(** * ChessGame: the computer opponent of [src/components/ChessGame.tsx]

    A shallow embedding of the move evaluation and move selection code of the
    React component [ChessGame], and the properties of it that the
    specification states.

    Conventions.
    - The rules engine is the external library chess.js.  What the component
      reads from a [Chess] object (board, FEN fields, the verbose list of legal
      moves, the check, checkmate and draw flags) is a [Position] record; the
      object itself is a current position with the stack of positions that
      [undo] pops.  The transition [play] of the engine (which position a move
      leads to, or that the move is refused) is a Section variable.
    - JavaScript numbers: integer valued terms are in [Z], the terms that
      involve [Math.random()] or a half are in [Q].  Each call of
      [Math.random()] is an explicit argument, a number in [0, 1) that is a
      [double].  The sums of the scores are exact.  The product that
      [selectMove] takes the floor of is rounded to the nearest double, as
      the multiplication of two Numbers is: there the rounding decides
      which element is returned.
    - An exception is the [Throw] completion of [completion].
    - The component declares [evaluateAdvancedPosition] twice.  The later
      declaration is the one every call runs and keeps the name; the earlier
      one is [evaluateAdvancedPosition_line470].  [evaluateMove], lines
      311-419, is called nowhere; it is embedded with the rest of the
      component. *)

From Stdlib Require Import ZArith QArith Qround Qabs Qminmax Qpower.
From Stdlib Require Import List String Ascii Bool Arith Lia Lqa.
From Stdlib Require Import Permutation Sorted DecimalString.
Import ListNotations.

Local Open Scope string_scope.
Local Open Scope Z_scope.

(** ** JavaScript primitives used by the component *)

Module Js.

(** Completion of a call: a returned value or a thrown exception. *)
Inductive completion (A : Type) : Type :=
| Return (a : A)
| Throw (e : string).
Arguments Return {A} a.
Arguments Throw {A} e.

Definition TypeError : string := "TypeError".
Definition IllegalMove : string := "Invalid move".

(** [String.prototype.includes]: literal substring test. *)
Fixpoint includes (s needle : string) : bool :=
  if String.prefix needle s then true
  else match s with
       | EmptyString => false
       | String _ s' => includes s' needle
       end.

(** [Array.prototype.includes] on strings. *)
Definition array_includes (l : list string) (x : string) : bool :=
  existsb (String.eqb x) l.

Definition chars (s : string) : list ascii := list_ascii_of_string s.

(** Lower-case form of an ASCII letter, for the [i] flag of a regular
    expression. *)
Definition to_lower (c : ascii) : ascii :=
  let n := nat_of_ascii c in
  if ((65 <=? n) && (n <=? 90))%nat then ascii_of_nat (n + 32) else c.

(** [(s.match(/[cs]/gi) || []).length]: the number of characters of [s]
    that are, ignoring case, one of [cs]. *)
Definition match_class_gi (cs : list ascii) (s : string) : nat :=
  List.length
    (filter (fun c => existsb (Ascii.eqb (to_lower c)) cs) (chars s)).

(** [(s.match(/[cs]/g) || []).length], case sensitive. *)
Definition match_class_g (cs : list ascii) (s : string) : nat :=
  List.length (filter (fun c => existsb (Ascii.eqb c) cs) (chars s)).

Definition is_rank_digit (c : ascii) : bool :=
  let n := nat_of_ascii c in ((49 <=? n) && (n <=? 56))%nat.

(** The lazy tail [.*?p] of the pattern below: the text after the first
    ['p'], when there is one.  (['.'] matches every character but a line
    terminator; a FEN has none.) *)
Fixpoint after_first_p (l : list ascii) : option (list ascii) :=
  match l with
  | [] => None
  | c :: l' => if Ascii.eqb c "p" then Some l' else after_first_p l'
  end.

(** [(s.match(new RegExp(file + '[1-8].*?p', 'g')) || []).length]: the
    number of successive, non overlapping, leftmost matches of the letter
    [file], a digit 1-8, the shortest run of characters, and a ['p'].
    [fuel] bounds the scan; the length of the text is enough. *)
Fixpoint match_file_rank_p (fuel : nat) (file : ascii) (l : list ascii)
  : nat :=
  match fuel with
  | O => O
  | S fuel' =>
      match l with
      | [] => O
      | c :: l' =>
          match l' with
          | d :: l'' =>
              if Ascii.eqb c file && is_rank_digit d then
                match after_first_p l'' with
                | Some rest => S (match_file_rank_p fuel' file rest)
                | None => match_file_rank_p fuel' file l'
                end
              else match_file_rank_p fuel' file l'
          | [] => O
          end
      end
  end.

Definition match_file_rank_p_g (file : ascii) (s : string) : nat :=
  match_file_rank_p (String.length s) file (chars s).

(** [s.split(' ')[0]]. *)
Fixpoint split_space_0 (s : string) : string :=
  match s with
  | EmptyString => EmptyString
  | String c s' =>
      if Ascii.eqb c " " then EmptyString else String c (split_space_0 s')
  end.

(** [parseInt] of a one character string: [None] is NaN. *)
Definition parseInt_char (c : option ascii) : option Z :=
  match c with
  | Some c =>
      let n := nat_of_ascii c in
      if ((48 <=? n) && (n <=? 57))%nat then Some (Z.of_nat n - 48)
      else None
  | None => None
  end.

(** [s.charCodeAt(i)]: [None] is NaN. *)
Definition charCodeAt (s : string) (i : nat) : option Z :=
  option_map (fun c => Z.of_nat (nat_of_ascii c)) (String.get i s).

(** Decimal text of a number, as string concatenation produces it. *)
Definition of_nat (n : nat) : string :=
  NilEmpty.string_of_uint (Nat.to_uint n).

(** *** Numbers

    A Number is an IEEE 754 binary64 value.  The finite ones are the
    rationals [m * 2^e] with a significand [m] of at most 53 bits and an
    exponent [e] from -1074 to 971. *)
Definition double (x : Q) : Prop :=
  exists m e : Z,
    Z.abs m < 2 ^ 53 /\ -1074 <= e <= 971 /\ (x == inject_Z m * 2 ^ e)%Q.

(** The exponent of the power of two at or below a positive rational:
    [2^(binade x) <= x < 2^(binade x + 1)]. *)
Definition binade (x : Q) : Z :=
  let a := Z.log2 (Qnum x) - Z.log2 (Z.pos (Qden x)) in
  if Qle_bool (2 ^ a) x then a else a - 1.

(** The exponent of the spacing of the doubles around a positive rational:
    53 bits for the significand, and the spacing of the subnormal numbers
    at the least. *)
Definition quantum (x : Q) : Z := Z.max (binade x - 52) (-1074).

(** The nearest integer, the even one of the two when they are equally
    near. *)
Definition round_half_even (y : Q) : Z :=
  let f := Qfloor y in
  match (y - inject_Z f ?= 1 # 2)%Q with
  | Lt => f
  | Gt => f + 1
  | Eq => if Z.even f then f else f + 1
  end.

(** The double nearest to a rational, ties to the even significand: the
    rounding of every arithmetic operation on Numbers.  (Below [2^1024] in
    size; the products this is applied to are below the length of an
    array.) *)
Definition round_double (x : Q) : Q :=
  match (x ?= 0)%Q with
  | Eq => 0%Q
  | Gt => (inject_Z (round_half_even (x / 2 ^ quantum x)) * 2 ^ quantum x)%Q
  | Lt => (- (inject_Z (round_half_even (- x / 2 ^ quantum (- x)))
              * 2 ^ quantum (- x)))%Q
  end.

End Js.
Import Js.

(** ** Data model: pieces, boards, moves, positions *)

(** [Color] of chess.js: ['w'] and ['b']. *)
Inductive Color : Type := White | Black.

(** [PieceSymbol] of chess.js: ['p'], ['n'], ['b'], ['r'], ['q'], ['k']. *)
Inductive PieceSymbol : Type := Pawn | Knight | Bishop | Rook | Queen | King.

Definition Color_eqb (a b : Color) : bool :=
  match a, b with
  | White, White | Black, Black => true
  | _, _ => false
  end.

Definition PieceSymbol_eqb (a b : PieceSymbol) : bool :=
  match a, b with
  | Pawn, Pawn | Knight, Knight | Bishop, Bishop
  | Rook, Rook | Queen, Queen | King, King => true
  | _, _ => false
  end.

(** A cell of [board()]: [{ type, color }]. *)
Record Piece : Type := mkPiece { type : PieceSymbol; color : Color }.

(** [board()]: the rows from rank 8 down to rank 1, each from file a to h;
    [None] is an empty square ([null]). *)
Definition Board : Type := list (list (option Piece)).

(** A verbose move of chess.js, with the fields the component reads. *)
Record Move : Type := mkMove {
  from : string;
  to : string;
  piece : PieceSymbol;
  captured : option PieceSymbol;
  promotion : option PieceSymbol;
  san : string
}.

(** The argument of [move()] as the component builds it:
    [{ from, to, promotion }]. *)
Record MoveInput : Type := mkMoveInput {
  mi_from : string;
  mi_to : string;
  mi_promotion : option PieceSymbol
}.

Definition input_of_move (m : Move) : MoveInput :=
  mkMoveInput (from m) (to m) (promotion m).

(** Castling availability, the third field of a FEN. *)
Record Castling : Type := mkCastling {
  white_kingside : bool;
  white_queenside : bool;
  black_kingside : bool;
  black_queenside : bool
}.

(** What a [Chess] object reports about its current position. *)
Record Position : Type := mkPosition {
  p_board : Board;
  p_turn : Color;
  p_castling : Castling;
  p_epSquare : option (nat * nat);   (* file index 0-7 and rank 1-8 *)
  p_halfMoves : nat;
  p_moveNumber : nat;
  p_moves : list Move;        (* moves({ verbose: true }) *)
  p_isCheck : bool;
  p_isCheckmate : bool;
  p_isDraw : bool
}.

(** A [Chess] object: the current position and the positions [undo] goes
    back to, latest first.  [new Chess(fen)] has no history. *)
Record Chess : Type := mkChess {
  position : Position;
  history : list Position
}.

Definition new_Chess (p : Position) : Chess := mkChess p [].

Definition board (g : Chess) : Board := p_board (position g).
Definition moves (g : Chess) : list Move := p_moves (position g).
Definition isCheck (g : Chess) : bool := p_isCheck (position g).
Definition isCheckmate (g : Chess) : bool := p_isCheckmate (position g).
Definition isDraw (g : Chess) : bool := p_isDraw (position g).
Definition turn (g : Chess) : Color := p_turn (position g).

(** [undo()]: back to the position before the last move; nothing happens
    when there is no move to take back. *)
Definition undo (g : Chess) : Chess :=
  match history g with
  | p :: h => mkChess p h
  | [] => g
  end.

(** *** FEN text of a position, as [fen()] builds it *)

Definition symbol_letter (t : PieceSymbol) : ascii :=
  match t with
  | Pawn => "p" | Knight => "n" | Bishop => "b"
  | Rook => "r" | Queen => "q" | King => "k"
  end%char.

Definition upper_letter (t : PieceSymbol) : ascii :=
  match t with
  | Pawn => "P" | Knight => "N" | Bishop => "B"
  | Rook => "R" | Queen => "Q" | King => "K"
  end%char.

Definition piece_letter (p : Piece) : ascii :=
  match color p with
  | White => upper_letter (type p)
  | Black => symbol_letter (type p)
  end.

Definition flush_empty (empty : nat) : string :=
  match empty with
  | O => ""
  | S _ => Js.of_nat empty
  end.

Fixpoint fen_row (empty : nat) (row : list (option Piece)) : string :=
  match row with
  | [] => flush_empty empty
  | Some p :: row' =>
      flush_empty empty ++ String (piece_letter p) (fen_row 0 row')
  | None :: row' => fen_row (S empty) row'
  end.

Fixpoint fen_placement (b : Board) : string :=
  match b with
  | [] => ""
  | [row] => fen_row 0 row
  | row :: b' => fen_row 0 row ++ "/" ++ fen_placement b'
  end.

Definition fen_turn (c : Color) : string :=
  match c with White => "w" | Black => "b" end.

Definition fen_castling (c : Castling) : string :=
  let s := (if white_kingside c then "K" else "")
           ++ (if white_queenside c then "Q" else "")
           ++ (if black_kingside c then "k" else "")
           ++ (if black_queenside c then "q" else "") in
  match s with
  | EmptyString => "-"
  | _ => s
  end.

(** [algebraic]: the name of a square, file letter and rank. *)
Definition algebraic (sq : nat * nat) : string :=
  nth (fst sq) ["a"; "b"; "c"; "d"; "e"; "f"; "g"; "h"] "" ++ Js.of_nat (snd sq).

Definition fen_epSquare (e : option (nat * nat)) : string :=
  match e with
  | Some sq => algebraic sq
  | None => "-"
  end.

Definition fen_of (p : Position) : string :=
  fen_placement (p_board p) ++ " " ++ fen_turn (p_turn p) ++ " "
  ++ fen_castling (p_castling p) ++ " " ++ fen_epSquare (p_epSquare p)
  ++ " " ++ Js.of_nat (p_halfMoves p) ++ " " ++ Js.of_nat (p_moveNumber p).

Definition fen (g : Chess) : string := fen_of (position g).

(** *** Writing boards down

    A board is written as the eight ranks of a FEN placement, for the
    examples: [board_of_rows] reads them back into [board()]. *)

Definition piece_of_letter (c : ascii) : option Piece :=
  match c with
  | "p" => Some (mkPiece Pawn Black)   | "P" => Some (mkPiece Pawn White)
  | "n" => Some (mkPiece Knight Black) | "N" => Some (mkPiece Knight White)
  | "b" => Some (mkPiece Bishop Black) | "B" => Some (mkPiece Bishop White)
  | "r" => Some (mkPiece Rook Black)   | "R" => Some (mkPiece Rook White)
  | "q" => Some (mkPiece Queen Black)  | "Q" => Some (mkPiece Queen White)
  | "k" => Some (mkPiece King Black)   | "K" => Some (mkPiece King White)
  | _ => None
  end%char.

Fixpoint row_of_string (s : string) : list (option Piece) :=
  match s with
  | EmptyString => []
  | String c s' =>
      match piece_of_letter c with
      | Some p => Some p :: row_of_string s'
      | None => repeat None (nat_of_ascii c - 48) ++ row_of_string s'
      end
  end.

Definition board_of_rows (rows : list string) : Board :=
  map row_of_string rows.


(** ** Constants of the component *)

(** [PIECE_VALUES], in centipawns. *)
Definition PIECE_VALUES (t : PieceSymbol) : Z :=
  match t with
  | Pawn => 100
  | Knight => 320
  | Bishop => 330
  | Rook => 500
  | Queen => 900
  | King => 20000
  end.

Definition PAWN_POSITION_SCORES : list Z := [
  0;  0;  0;  0;  0;  0;  0;  0;
  50; 50; 50; 50; 50; 50; 50; 50;
  10; 10; 20; 30; 30; 20; 10; 10;
  5;  5; 10; 25; 25; 10;  5;  5;
  0;  0;  0; 20; 20;  0;  0;  0;
  5; -5;-10;  0;  0;-10; -5;  5;
  5; 10; 10;-20;-20; 10; 10;  5;
  0;  0;  0;  0;  0;  0;  0;  0
].

Definition KNIGHT_POSITION_SCORES : list Z := [
  -50;-40;-30;-30;-30;-30;-40;-50;
  -40;-20;  0;  0;  0;  0;-20;-40;
  -30;  0; 10; 15; 15; 10;  0;-30;
  -30;  5; 15; 20; 20; 15;  5;-30;
  -30;  0; 15; 20; 20; 15;  0;-30;
  -30;  5; 10; 15; 15; 10;  5;-30;
  -40;-20;  0;  5;  5;  0;-20;-40;
  -50;-40;-30;-30;-30;-30;-40;-50
].

Definition BISHOP_POSITION_SCORES : list Z := [
  -20;-10;-10;-10;-10;-10;-10;-20;
  -10;  5;  0;  0;  0;  0;  5;-10;
  -10; 10; 10; 10; 10; 10; 10;-10;
  -10;  0; 10; 10; 10; 10;  0;-10;
  -10;  5;  5; 10; 10;  5;  5;-10;
  -10;  0;  5; 10; 10;  5;  0;-10;
  -10;  0;  0;  0;  0;  0;  0;-10;
  -20;-10;-10;-10;-10;-10;-10;-20
].

Definition ROOK_POSITION_SCORES : list Z := [
  0;  0;  0;  5;  5;  0;  0;  0;
  -5;  0;  0;  0;  0;  0;  0; -5;
  -5;  0;  0;  0;  0;  0;  0; -5;
  -5;  0;  0;  0;  0;  0;  0; -5;
  -5;  0;  0;  0;  0;  0;  0; -5;
  -5;  0;  0;  0;  0;  0;  0; -5;
  5; 10; 10; 10; 10; 10; 10;  5;
  0;  0;  0;  0;  0;  0;  0;  0
].

Definition QUEEN_POSITION_SCORES : list Z := [
  -20;-10;-10; -5; -5;-10;-10;-20;
  -10;  0;  0;  0;  0;  0;  0;-10;
  -10;  0;  5;  5;  5;  5;  0;-10;
  -5;  0;  5;  5;  5;  5;  0; -5;
  0;  0;  5;  5;  5;  5;  0; -5;
  -10;  5;  5;  5;  5;  5;  0;-10;
  -10;  0;  5;  0;  0;  0;  0;-10;
  -20;-10;-10; -5; -5;-10;-10;-20
].

Definition KING_MIDDLEGAME_SCORES : list Z := [
  20; 30; 10;  0;  0; 10; 30; 20;
  20; 20;  0;  0;  0;  0; 20; 20;
  -10;-20;-20;-20;-20;-20;-20;-10;
  -20;-30;-30;-40;-40;-30;-30;-20;
  -30;-40;-40;-50;-50;-40;-40;-30;
  -30;-40;-40;-50;-50;-40;-40;-30;
  -30;-40;-40;-50;-50;-40;-40;-30;
  -30;-40;-40;-50;-50;-40;-40;-30
].

Definition KING_ENDGAME_SCORES : list Z := [
  -50;-30;-30;-30;-30;-30;-30;-50;
  -30;-30;  0;  0;  0;  0;-30;-30;
  -30;-10; 20; 30; 30; 20;-10;-30;
  -30;-10; 30; 40; 40; 30;-10;-30;
  -30;-10; 30; 40; 40; 30;-10;-30;
  -30;-10; 20; 30; 30; 20;-10;-30;
  -30;-20;-10;  0;  0;-10;-20;-30;
  -50;-40;-30;-20;-20;-30;-40;-50
].

Inductive Difficulty : Type := Easy | Medium | Hard.

(** [THINKING_TIME], in milliseconds. *)
Definition THINKING_TIME (d : Difficulty) : nat :=
  match d with
  | Easy => 3000
  | Medium => 2000
  | Hard => 1000
  end%nat.

(** ** Reading a board *)

(** [position[row][col]]; a square outside the 8 by 8 board reads as empty. *)
Definition cell (b : Board) (row col : nat) : option Piece :=
  match nth_error b row with
  | Some r => match nth_error r col with
              | Some c => c
              | None => None
              end
  | None => None
  end.

(** The nested loops [for row in 0..7, for col in 0..7], row by row. *)
Definition for_squares {A : Type} (body : nat -> nat -> A -> A) (init : A)
  : A :=
  fold_left
    (fun acc row => fold_left (fun acc col => body row col acc) (seq 0 8) acc)
    (seq 0 8) init.

(** [TABLE[i]] *)
Definition at_index (table : list Z) (i : nat) : Z := nth i table 0.

Definition is_piece (t : PieceSymbol) (c : Color) (x : option Piece) : bool :=
  match x with
  | Some p => PieceSymbol_eqb (type p) t && Color_eqb (color p) c
  | None => false
  end.

(** [x?.type === 'p'] *)
Definition is_pawn (x : option Piece) : bool :=
  match x with
  | Some p => PieceSymbol_eqb (type p) Pawn
  | None => false
  end.

(** ** The evaluation terms *)

(** [isInEndgame], lines 638-644: both regular expressions are applied to
    the whole FEN text. *)
Definition isInEndgame (gameCopy : Chess) : bool :=
  let fen := fen gameCopy in
  let queens := match_class_gi ["q"%char] fen in
  let pieces := match_class_gi ["r"; "n"; "b"]%char fen in
  (queens =? 0)%nat || (pieces <=? 6)%nat.

(** The [switch] on the piece type of the two piece-square loops. *)
Definition square_score (endgame : bool) (p : Piece) (square : nat) : Z :=
  let isBlack := Color_eqb (color p) Black in
  let pick (table : list Z) : Z :=
    if isBlack then at_index table (63 - square)
    else - at_index table square in
  match type p with
  | Pawn => pick PAWN_POSITION_SCORES
  | Knight => pick KNIGHT_POSITION_SCORES
  | Bishop => pick BISHOP_POSITION_SCORES
  | Rook => pick ROOK_POSITION_SCORES
  | Queen => pick QUEEN_POSITION_SCORES
  | King => if endgame then pick KING_ENDGAME_SCORES
            else pick KING_MIDDLEGAME_SCORES
  end.

(** [evaluatePosition], lines 592-631. *)
Definition evaluatePosition (gameCopy : Chess) : Z :=
  let position := board gameCopy in
  for_squares
    (fun row col score =>
       match cell position row col with
       | Some piece =>
           let square := (row * 8 + col)%nat in
           score + square_score (isInEndgame gameCopy) piece square
       | None => score
       end)
    0.

(** JavaScript truthiness of an argument that may be missing. *)
Definition truthy (b : option bool) : bool :=
  match b with
  | Some true => true
  | _ => false
  end.

(** [evaluateAdvancedPosition], lines 834-873: the later of the two function
    declarations of that name in the body of [ChessGame].  Function
    declarations are hoisted, and the later declaration of a name replaces the
    earlier one, so every call of [evaluateAdvancedPosition] in the component
    runs this one.  [isEndgame] is [None] when the caller passes one argument
    ([undefined]). *)
Definition evaluateAdvancedPosition (gameCopy : Chess)
    (isEndgame : option bool) : Z :=
  let position := board gameCopy in
  for_squares
    (fun row col score =>
       match cell position row col with
       | Some piece =>
           let square := (row * 8 + col)%nat in
           score + square_score (truthy isEndgame) piece square
       | None => score
       end)
    0.

(** The first black king of the scan of [countAttacksNearKing], which leaves
    both loops at the first hit; [(-1, -1)] when there is none. *)
Definition find_black_king (position : Board) : Z * Z :=
  match
    for_squares
      (fun row col found =>
         match found with
         | Some _ => found
         | None => if is_piece King Black (cell position row col)
                   then Some (row, col) else None
         end)
      None
  with
  | Some (row, col) => (Z.of_nat row, Z.of_nat col)
  | None => (-1, -1)
  end.

(** The test of a destination square in [countAttacksNearKing]; a NaN makes
    the comparison false. *)
Definition near_king (kingRow kingCol : Z) (move : Move) : bool :=
  match parseInt_char (String.get 1 (to move)), charCodeAt (to move) 0 with
  | Some rank, Some code =>
      let moveRow := 8 - rank in
      let moveCol := code - 97 in
      (Z.abs (moveRow - kingRow) <=? 1) && (Z.abs (moveCol - kingCol) <=? 1)
  | _, _ => false
  end.

(** [countAttacksNearKing], lines 651-680. *)
Definition countAttacksNearKing (gameCopy : Chess) : Z :=
  let position := board gameCopy in
  let '(kingRow, kingCol) := find_black_king position in
  fold_left
    (fun attacks move =>
       if near_king kingRow kingCol move then attacks + 1 else attacks)
    (moves gameCopy) 0.

(** [evaluateKingSafety], lines 571-585.  [includes] takes its argument as
    literal text. *)
Definition evaluateKingSafety (gameCopy : Chess) (isEndgame : bool) : Z :=
  let score := 0 in
  if negb isEndgame then
    let score :=
      if includes (fen gameCopy) "k.*?r" || includes (fen gameCopy) "r.*?k"
      then score + 60 else score in
    score - countAttacksNearKing gameCopy * 10
  else score.

Definition files : list string := ["a"; "b"; "c"; "d"; "e"; "f"; "g"; "h"].

(** [files.indexOf(file)] *)
Fixpoint indexOf (l : list string) (x : string) : nat :=
  match l with
  | [] => O
  | y :: l' => if String.eqb y x then O else S (indexOf l' x)
  end.

Definition first_char (s : string) : ascii :=
  match s with
  | String c _ => c
  | EmptyString => zero
  end.

(** [evaluatePawnStructure], lines 541-563, the version of the Medium level.
    The pattern [file + '[1-8].*?p'] is a regular expression in [match] and
    literal text in [includes]. *)
Definition evaluatePawnStructure (gameCopy : Chess) : Z :=
  let fen := fen gameCopy in
  let position := split_space_0 fen in
  fold_left
    (fun score file =>
       let pawnsInFile := match_file_rank_p_g (first_char file) position in
       let score := if (1 <? pawnsInFile)%nat then score - 20 else score in
       let hasPawn := includes position (file ++ "[1-8].*?p") in
       if hasPawn then
         let hasNeighborPawn :=
           (negb (String.eqb file "a")
            && includes position
                 (nth (indexOf files file - 1) files "" ++ "[1-8].*?p"))
           || (negb (String.eqb file "h")
               && includes position
                    (nth (indexOf files file + 1) files "" ++ "[1-8].*?p")) in
         if negb hasNeighborPawn then score - 15 else score
       else score)
    files 0.

(** [evaluateAdvancedPawnStructure], lines 876-938. *)
Definition evaluateAdvancedPawnStructure (gameCopy : Chess) : Z :=
  let position := board gameCopy in
  let black_pawn row col := is_piece Pawn Black (cell position row col) in
  (* Check for doubled pawns *)
  let score :=
    fold_left
      (fun score col =>
         let blackPawns :=
           List.length (filter (fun row => black_pawn row col) (seq 0 8)) in
         if (1 <? blackPawns)%nat then score - 30 else score)
      (seq 0 8) 0 in
  (* Check for isolated and passed pawns *)
  fold_left
    (fun score col =>
       let hasPawn := existsb (fun row => black_pawn row col) (seq 0 8) in
       let isPassed :=
         negb (existsb
                 (fun row =>
                    black_pawn row col
                    && existsb (fun r => is_pawn (cell position r col))
                         (seq 0 row))
                 (seq 0 8)) in
       if hasPawn then
         let isIsolated :=
           negb (((0 <? col)%nat
                  && existsb (fun row => black_pawn row (col - 1)%nat) (seq 0 8))
                 || ((col <? 7)%nat
                     && existsb (fun row => black_pawn row (col + 1)%nat)
                          (seq 0 8))) in
         let score := if isIsolated then score - 25 else score in
         if isPassed then score + 50 else score
       else score)
    (seq 0 8) score.

(** [evaluateOpeningPrinciples], lines 507-519; [weight] is 1.0 or 2.0. *)
Definition evaluateOpeningPrinciples (gameCopy : Chess) (weight : Z) : Z :=
  fold_left
    (fun score move =>
       let score :=
         if PieceSymbol_eqb (piece move) Knight
            || PieceSymbol_eqb (piece move) Bishop
         then score + 30 * weight else score in
       let score :=
         if includes (san move) "O-O" || includes (san move) "O-O-O"
         then score + 40 * weight else score in
       let score :=
         if PieceSymbol_eqb (piece move) Queen
            && negb (match captured move with Some _ => true | None => false end)
         then score - 30 * weight else score in
       if PieceSymbol_eqb (piece move) Pawn
          && array_includes ["d4"; "d5"; "e4"; "e5"] (to move)
       then score + 25 * weight else score)
    (moves gameCopy) 0.

(** [evaluateThreats], lines 526-534. *)
Definition evaluateThreats (gameCopy : Chess) : Z :=
  fold_left
    (fun max nextMove =>
       match captured nextMove with
       | Some c => Z.max max (PIECE_VALUES c)
       | None => if isCheck gameCopy then Z.max max (PIECE_VALUES Pawn)
                 else max
       end)
    (moves gameCopy) 0.

(** [evaluateCenterControl], lines 687-704. *)
Definition evaluateCenterControl (gameCopy : Chess) : Z :=
  let centerSquares := ["d4"; "d5"; "e4"; "e5"] in
  let extendedCenter :=
    ["c3"; "c4"; "c5"; "c6"; "d3"; "d6"; "e3"; "e6"; "f3"; "f4"; "f5"; "f6"] in
  let controlledSquares := map to (moves gameCopy) in
  let score :=
    fold_left
      (fun score square =>
         if array_includes controlledSquares square then score + 10 else score)
      centerSquares 0 in
  fold_left
    (fun score square =>
       if array_includes controlledSquares square then score + 5 else score)
    extendedCenter score.

(** [isDrawnPosition], lines 984-989. *)
Definition isDrawnPosition (gameCopy : Chess) : bool :=
  let pieces := split_space_0 (fen gameCopy) in
  let pieceCount :=
    match_class_g ["p"; "r"; "n"; "b"; "q"; "P"; "R"; "N"; "B"; "Q"]%char
      pieces in
  (pieceCount <=? 3)%nat.

(** The king search of [evaluateEndgamePosition]: the scan does not stop, so
    the last king of each colour found is the one kept. *)
Definition find_kings (position : Board)
  : option (nat * nat) * option (nat * nat) :=
  for_squares
    (fun row col kings =>
       match cell position row col with
       | Some piece =>
           if PieceSymbol_eqb (type piece) King then
             if Color_eqb (color piece) Black then (Some (row, col), snd kings)
             else (fst kings, Some (row, col))
           else kings
       | None => kings
       end)
    (None, None).

(** [evaluateEndgamePosition], lines 941-981. *)
Definition evaluateEndgamePosition (gameCopy : Chess) : Q :=
  let position := board gameCopy in
  match find_kings position with
  | (Some (bRow, bCol), Some (wRow, wCol)) =>
      let blackKingDistance :=
        Qmax (Qabs (inject_Z (Z.of_nat bRow) - (7 # 2)))
             (Qabs (inject_Z (Z.of_nat bCol) - (7 # 2))) in
      let score := (0 + blackKingDistance * 10)%Q in
      let kingDistance :=
        Z.max (Z.abs (Z.of_nat bRow - Z.of_nat wRow))
              (Z.abs (Z.of_nat bCol - Z.of_nat wCol)) in
      if isDrawnPosition gameCopy
      then (score - inject_Z (kingDistance * 5))%Q
      else score
  | _ => 0%Q
  end.

(** [evaluateBasicPosition], lines 427-441. *)
Definition evaluateBasicPosition (move : Move) (gameCopy : Chess) : Z :=
  let score := 0 in
  let score :=
    match captured move with
    | Some c => score + PIECE_VALUES c * 2
    | None => score
    end in
  let score := if isCheck gameCopy then score + 50 else score in
  let score := if isCheckmate gameCopy then score + 10000 else score in
  if isDraw gameCopy then score - 5000 else score.

(** [evaluateIntermediatePosition], lines 448-463; [moveHistory] is the
    state of the component the function closes over. *)
Definition evaluateIntermediatePosition (moveHistory : list string)
    (gameCopy : Chess) : Z :=
  let score := 0 in
  let isEndgame := isInEndgame gameCopy in
  let score := score + evaluatePosition gameCopy in
  let score := score + evaluateKingSafety gameCopy isEndgame in
  let score := score + evaluatePawnStructure gameCopy in
  let score := score + Z.of_nat (List.length (moves gameCopy)) * 2 in
  if (List.length moveHistory <? 10)%nat
  then score + evaluateOpeningPrinciples gameCopy 1
  else score.

(** The function declared under the name [evaluateAdvancedPosition] at lines
    470-499.  The declaration at lines 834-873 replaces it, so no call
    reaches this body. *)
Definition evaluateAdvancedPosition_line470 (moveHistory : list string)
    (gameCopy : Chess) : Q :=
  let isEndgame := isInEndgame gameCopy in
  let score := inject_Z (0 + evaluatePosition gameCopy * 2) in
  let score := (score + inject_Z (evaluateKingSafety gameCopy isEndgame * 3))%Q in
  let score := (score + inject_Z (evaluateAdvancedPawnStructure gameCopy * 2))%Q in
  let mobility := Z.of_nat (List.length (moves gameCopy)) in
  let centerControl := evaluateCenterControl gameCopy in
  let score := (score + inject_Z (mobility * 5))%Q in
  let score := (score + inject_Z (centerControl * 15))%Q in
  let score :=
    if (List.length moveHistory <? 15)%nat
    then (score + inject_Z (evaluateOpeningPrinciples gameCopy 2))%Q
    else score in
  let score :=
    if isEndgame then (score + evaluateEndgamePosition gameCopy * 2)%Q
    else score in
  (score - inject_Z (evaluateThreats gameCopy))%Q.

(** ** Scoring and selecting the candidate moves *)

(** An element of the array [evaluateAllMoves] returns: [{ move, score }]. *)
Record ScoredMove : Type := mkScored { move : Move; score : Q }.

(** The comparator of the [sort] call: [(a, b) => b.score - a.score]. *)
Definition compare_scores (a b : ScoredMove) : Q := (score b - score a)%Q.

(** [Array.prototype.sort] is a stable sort: [a] goes before [b] when the
    comparator is negative, and the two keep their order when it is zero.
    Insertion from the right end of the array is such a sort. *)
Fixpoint insert_sorted (x : ScoredMove) (l : list ScoredMove)
  : list ScoredMove :=
  match l with
  | [] => [x]
  | y :: l' =>
      if Qle_bool (compare_scores x y) 0 then x :: y :: l'
      else y :: insert_sorted x l'
  end.

Definition sort_by_score (l : list ScoredMove) : list ScoredMove :=
  fold_right insert_sorted [] l.

(** The length of the prefix [selectMove] slices off. *)
Definition shortlist_size (difficulty : Difficulty) : nat :=
  match difficulty with
  | Easy => 5
  | Medium => 3
  | Hard => 2
  end%nat.

(** [Math.floor(Math.random() * n)]: the floor of the product of the two
    Numbers, which is the exact product rounded to a double. *)
Definition random_index (random : Q) (n : nat) : Z :=
  Qfloor (round_double (random * inject_Z (Z.of_nat n))).

(** [selectMove], lines 302-308.  Reading [.move] of [undefined] throws. *)
Definition selectMove (difficulty : Difficulty)
    (evaluatedMoves : list ScoredMove) (random : Q) : completion Move :=
  let topMoves := firstn (shortlist_size difficulty) evaluatedMoves in
  let index := random_index random (List.length topMoves) in
  if index <? 0 then Throw TypeError
  else match nth_error topMoves (Z.to_nat index) with
       | Some chosen => Return (move chosen)
       | None => Throw TypeError
       end.

(** Computations on the working copy [gameCopy]: the object is threaded
    through, and a thrown exception ends the computation. *)
Definition Game (A : Type) : Type := Chess -> completion A * Chess.

Definition ret {A : Type} (a : A) : Game A := fun g => (Return a, g).

Definition bind {A B : Type} (c : Game A) (k : A -> Game B) : Game B :=
  fun g =>
    match c g with
    | (Return a, g') => k a g'
    | (Throw e, g') => (Throw e, g')
    end.

Notation "x <- c ;; k" := (bind c (fun x => k))
  (at level 61, c at next level, right associativity).

(** The object itself, for the calls that only read it. *)
Definition this : Game Chess := fun g => (Return g, g).

(** [array.map(callback)], the callback called with the elements in order;
    [i] counts the calls. *)
Fixpoint map_from {A B : Type} (callback : nat -> A -> Game B) (i : nat)
    (l : list A) : Game (list B) :=
  match l with
  | [] => ret []
  | a :: l' =>
      b <- callback i a ;;
      bs <- map_from callback (S i) l' ;;
      ret (b :: bs)
  end.

(** The state of the component. *)
Record TimeControl : Type := mkTimeControl {
  name : string;
  initial : Z;
  increment : Z
}.

Record TimeLeft : Type := mkTimeLeft { white : Z; black : Z }.

Record State : Type := mkState {
  game : Chess;
  moveHistory : list string;
  moveFrom : string;
  possibleMoves : list string;
  isPlayingComputer : bool;
  difficulty : Difficulty;
  selectedTimeControl : TimeControl;
  timeLeft : TimeLeft;
  isTimerRunning : bool;
  lastMoveTime : option Z
}.

Section Engine.

(** The rules engine: the move a [{ from, to, promotion }] request stands
    for and the position it leads to, or [None] when the engine refuses
    it. *)
Variable play : Position -> MoveInput -> option (Move * Position).

(** [gameCopy.move(m)]: the engine throws on a move it refuses (releases
    before 1.0 return [null]; [makeAMove] treats both alike) and leaves the
    object as it was. *)
Definition Chess_move (m : MoveInput) : Game Move :=
  fun g =>
    match play (position g) m with
    | Some (result, p') =>
        (Return result, mkChess p' (position g :: history g))
    | None => (Throw IllegalMove, g)
    end.

(** [gameCopy.undo()] *)
Definition Chess_undo : Game unit := fun g => (Return tt, undo g).

(** The callback of [moves.map] in [evaluateAllMoves], lines 272-294;
    [random] is the value of the one call of [Math.random()]. *)
Definition score_candidate (difficulty : Difficulty)
    (moveHistory : list string) (random : Q) (move : Move)
  : Game ScoredMove :=
  let score := 0%Q in
  _ <- Chess_move (input_of_move move) ;;
  gameCopy <- this ;;
  (* Base evaluation for all levels *)
  let score := (score + inject_Z (evaluateBasicPosition move gameCopy))%Q in
  (* Additional evaluation based on difficulty *)
  let score :=
    match difficulty with
    | Easy => (score + random * 50)%Q
    | Medium =>
        (score
         + inject_Z (evaluateIntermediatePosition moveHistory gameCopy)
         + random * 20)%Q
    | Hard =>
        (score + inject_Z (evaluateAdvancedPosition gameCopy None)
         + random * 5)%Q
    end in
  _ <- Chess_undo ;;
  ret (mkScored move score).

(** [evaluateAllMoves], lines 271-295; [random i] is the value of the
    [i]-th call of [Math.random()]. *)
Definition evaluateAllMoves (difficulty : Difficulty)
    (moveHistory : list string) (random : nat -> Q) (moves : list Move)
  : Game (list ScoredMove) :=
  scored <- map_from
              (fun i move =>
                 score_candidate difficulty moveHistory (random i) move)
              0 moves ;;
  ret (sort_by_score scored).

(** A move the timer of [makeComputerMoveWithTimer] is set to make. *)
Record PendingMove : Type := mkPending {
  pending_move : MoveInput;
  delay : nat
}.

(** The head of [makeComputerMoveWithTimer]: the clock is started if it is
    not running. *)
Definition start_clock (st : State) : State :=
  if negb (isTimerRunning st) then
    mkState (game st) (moveHistory st) (moveFrom st) (possibleMoves st)
      (isPlayingComputer st) (difficulty st) (selectedTimeControl st)
      (timeLeft st) true (lastMoveTime st)
  else st.

(** [makeComputerMoveWithTimer], lines 230-254: the state it leaves and the
    timer it sets, [None] when it sets none.  The function is [async]: an
    exception in it rejects the promise it returns. *)
Definition makeComputerMoveWithTimer (st : State) (random : nat -> Q)
  : State * completion (option PendingMove) :=
  let st' := start_clock st in
  let moves := moves (game st) in
  if (0 <? List.length moves)%nat then
    let gameCopy := new_Chess (position (game st)) in
    match evaluateAllMoves (difficulty st) (moveHistory st) random moves
            gameCopy with
    | (Return evaluatedMoves, _) =>
        match selectMove (difficulty st) evaluatedMoves
                (random (List.length moves)) with
        | Return selectedMove =>
            (st', Return (Some (mkPending
                                  (mkMoveInput (from selectedMove)
                                     (to selectedMove) (Some Queen))
                                  (THINKING_TIME (difficulty st)))))
        | Throw e => (st', Throw e)
        end
    | (Throw e, _) => (st', Throw e)
    end
  else (st', Return None).

(** [handleMoveComplete], lines 206-221.  It runs in the render that
    [makeAMove] was called in: it reads the state [st] of that render and
    updates the state [st'] being built. *)
Definition handleMoveComplete (st st' : State) : State :=
  if negb (isTimerRunning st) then
    mkState (game st') (moveHistory st') (moveFrom st') (possibleMoves st')
      (isPlayingComputer st') (difficulty st') (selectedTimeControl st')
      (timeLeft st') true (lastMoveTime st')
  else
    let whiteJustMoved :=
      negb (Color_eqb (turn (game st)) White) in
    if 0 <? increment (selectedTimeControl st) then
      let prev := timeLeft st' in
      let inc := increment (selectedTimeControl st) in
      let timeLeft' :=
        if whiteJustMoved then mkTimeLeft (white prev + inc) (black prev)
        else mkTimeLeft (white prev) (black prev + inc) in
      mkState (game st') (moveHistory st') (moveFrom st')
        (possibleMoves st') (isPlayingComputer st') (difficulty st')
        (selectedTimeControl st') timeLeft' (isTimerRunning st')
        (lastMoveTime st')
    else st'.

(** [makeAMove], lines 707-725: the new state and the returned boolean. *)
Definition makeAMove (st : State) (move : MoveInput) : State * bool :=
  let gameCopy := new_Chess (position (game st)) in
  match Chess_move move gameCopy with
  | (Return result, gameCopy) =>
      let st' :=
        mkState gameCopy (moveHistory st ++ [san result]) "" []
          (isPlayingComputer st) (difficulty st) (selectedTimeControl st)
          (timeLeft st) (isTimerRunning st) (lastMoveTime st) in
      (handleMoveComplete st st', true)
  | (Throw _, _) => (st, false)
  end.

End Engine.

(** ** Notions the properties are stated with *)

(** Scores in descending order. *)
Definition descending (a b : ScoredMove) : Prop := (score b <= score a)%Q.

(** The elements whose score is [v]. *)
Definition has_score (v : Q) (a : ScoredMove) : bool := Qeq_bool (score a) v.

(** The [i]-th of [k] equal parts of the interval [0, 1). *)
Definition in_part (i k : nat) (r : Q) : Prop :=
  (Z.of_nat i # Pos.of_nat k <= r)%Q /\ (r < Z.of_nat (S i) # Pos.of_nat k)%Q.

(** The [i]-th part without the last [2^-51] of it, where the rounding of
    the product can reach the next integer. *)
Definition well_inside_part (i k : nat) (r : Q) : Prop :=
  in_part i k r /\ (r < (Z.of_nat (S i) # Pos.of_nat k) - 2 ^ (-51))%Q.

(** The [i]-th part with the [2^-51] before it. *)
Definition near_part (i k : nat) (r : Q) : Prop :=
  ((Z.of_nat i # Pos.of_nat k) - 2 ^ (-51) <= r)%Q
  /\ (r < Z.of_nat (S i) # Pos.of_nat k)%Q.

(** The characters that occur in a string are all in the class [P]. *)
Definition all_chars (P : ascii -> bool) (s : string) : bool :=
  forallb P (chars s).

Definition is_digit (c : ascii) : bool :=
  existsb (Ascii.eqb c) (chars "0123456789").

(** The characters of the first field of a FEN. *)
Definition placement_char (c : ascii) : bool :=
  existsb (Ascii.eqb c) (chars "pnbrqkPNBRQK0123456789/").

(** The characters of a FEN. *)
Definition fen_char (c : ascii) : bool :=
  existsb (Ascii.eqb c) (chars "pnbrqkPNBRQK0123456789/ wb-acdefgh").

(** The pieces on a board, row by row. *)
Definition row_pieces (row : list (option Piece)) : list Piece :=
  flat_map (fun x => match x with Some p => [p] | None => [] end) row.

Definition pieces_on (b : Board) : list Piece := flat_map row_pieces b.

(** The number of pieces on the board whose type is one of [ts]. *)
Definition count_on_board (ts : list PieceSymbol) (b : Board) : nat :=
  List.length
    (filter (fun p => existsb (PieceSymbol_eqb (type p)) ts) (pieces_on b)).

(** The test of a character in [match_class_gi]. *)
Definition ci_member (cs : list ascii) (c : ascii) : bool :=
  existsb (Ascii.eqb (to_lower c)) cs.

(** What [/q/gi] finds in a FEN: the queens on the board and the queenside
    castling rights [Q] and [q]. *)
Definition queens_in_fen (p : Position) : nat :=
  (count_on_board [Queen] (p_board p)
   + (if white_queenside (p_castling p) then 1 else 0)
   + (if black_queenside (p_castling p) then 1 else 0))%nat.

(** What [/[rnb]/gi] finds in a FEN: the rooks, knights and bishops on the
    board, the side to move when it is [b], and the file of the en passant
    square when it is the b-file. *)
Definition pieces_in_fen (p : Position) : nat :=
  (count_on_board [Rook; Knight; Bishop] (p_board p)
   + (match p_turn p with Black => 1 | White => 0 end)
   + (match p_epSquare p with Some (1, _) => 1 | _ => 0 end))%nat.

(** The phase by the material on the board alone: no queen, or at most six
    rooks, knights and bishops. *)
Definition endgame_by_material (b : Board) : bool :=
  (count_on_board [Queen] b =? 0)%nat
  || (count_on_board [Rook; Knight; Bishop] b <=? 6)%nat.




(** The Hard score as the claim composes it: the terms common to all levels,
    the body declared at lines 470-499, and the jitter. *)
Definition spec_advanced_score (moveHistory : list string) (move : Move)
    (after : Chess) (random : Q) : Q :=
  (inject_Z (evaluateBasicPosition move after)
   + evaluateAdvancedPosition_line470 moveHistory after
   + random * 5)%Q.

(** *** What the rules engine guarantees of legal chess

    The facts about candidate moves and the positions they lead to that the
    comparison of a mating move with the other candidates rests on. *)

(** The squares of the board, row by row. *)
Definition all_squares : list (nat * nat) :=
  list_prod (seq 0 8) (seq 0 8).

Definition cell_eqb (x y : option Piece) : bool :=
  match x, y with
  | None, None => true
  | Some p, Some q =>
      PieceSymbol_eqb (type p) (type q) && Color_eqb (color p) (color q)
  | _, _ => false
  end.

(** The squares on which two boards differ. *)
Definition differs (b b' : Board) (sq : nat * nat) : bool :=
  negb (cell_eqb (cell b (fst sq) (snd sq)) (cell b' (fst sq) (snd sq))).

Definition squares_changed (b b' : Board) : nat :=
  List.length (filter (differs b b') all_squares).

Definition holds_king (b : Board) (sq : nat * nat) : bool :=
  match cell b (fst sq) (snd sq) with
  | Some p => PieceSymbol_eqb (type p) King
  | None => false
  end.

Definition kings_on (b : Board) : nat :=
  List.length (filter (holds_king b) all_squares).

Definition minor_piece_move (m : Move) : bool :=
  PieceSymbol_eqb (piece m) Knight || PieceSymbol_eqb (piece m) Bishop.

Definition castling_move (m : Move) : bool :=
  includes (san m) "O-O" || includes (san m) "O-O-O".

Definition center_pawn_move (m : Move) : bool :=
  PieceSymbol_eqb (piece m) Pawn
  && array_includes ["d4"; "d5"; "e4"; "e5"] (to m).

(** A position one legal move away from [before], in a game this component
    plays.
    - A move changes at most four squares (castling moves the king and a
      rook), and the board has the two kings.
    - chess.js reports checkmate when the side to move is in check and has
      no legal move.
    - A position has at most 218 legal moves, the known maximum.  The side
      to move has two knights with at most 8 moves each and two bishops with
      at most 13, since every promotion the component asks for is to a queen
      ([promotion: 'q'], lines 247, 752 and 777); it has two ways to castle,
      and at most two pawn moves to each of the four central squares. *)
Record one_move_away (before after : Position) : Prop := {
  few_squares_change :
    (squares_changed (p_board before) (p_board after) <= 4)%nat;
  two_kings : (kings_on (p_board after) <= 2)%nat;
  checkmate_means :
    p_isCheckmate after = true ->
    p_isCheck after = true /\ p_moves after = [];
  at_most_218_moves : (List.length (p_moves after) <= 218)%nat;
  minor_piece_moves :
    (List.length (filter minor_piece_move (p_moves after)) <= 42)%nat;
  castling_moves :
    (List.length (filter castling_move (p_moves after)) <= 2)%nat;
  center_pawn_moves :
    (List.length (filter center_pawn_move (p_moves after)) <= 8)%nat
}.

(** What one square adds to the piece-square sum. *)
Definition contribution (endgame : bool) (b : Board) (sq : nat * nat) : Z :=
  match cell b (fst sq) (snd sq) with
  | Some piece => square_score endgame piece (fst sq * 8 + snd sq)
  | None => 0
  end.

Definition in_table_range (v : Z) : bool := (-50 <=? v) && (v <=? 50).

(** * Positions of the examples

    Each position is written with what chess.js reports for it: the board,
    the FEN fields, the legal moves in the order [moves()] lists them, and
    the check, checkmate and draw flags. *)

(** The request [{ from, to, promotion }] stands for the legal move with
    that origin and destination and, for a promotion, that piece. *)
Definition same_request (mi : MoveInput) (m : Move) : bool :=
  String.eqb (mi_from mi) (from m)
  && String.eqb (mi_to mi) (to m)
  && match promotion m with
     | None => true
     | Some p => match mi_promotion mi with
                 | Some q => PieceSymbol_eqb p q
                 | None => false
                 end
     end.

(** The rules engine on the positions of a table: each entry gives, for the
    position with that FEN, the legal moves and the positions they lead to.
    The table is an excerpt: a position that is not in it has no entry, and
    the examples never ask for one. *)
Definition table_engine (table : list (string * list (Move * Position)))
  : Position -> MoveInput -> option (Move * Position) :=
  fun p mi =>
    match find (fun entry => String.eqb (fst entry) (fen_of p)) table with
    | Some entry => find (fun reply => same_request mi (fst reply)) (snd entry)
    | None => None
    end.

(** The entry of a position whose legal moves lead to [after], in order. *)
Definition entry (p : Position) (after : list Position)
  : string * list (Move * Position) :=
  (fen_of p, combine (p_moves p) after).

(** A king and pawn ending, Black to move.
    FEN [k7/8/8/8/3p4/4P3/8/7K b - - 0 40]. *)
Definition kp_start : Position :=
  mkPosition
    (board_of_rows
       ["k7";
        "8";
        "8";
        "8";
        "3p4";
        "4P3";
        "8";
        "7K"])
    Black (mkCastling false false false false) None 0 40
    [mkMove "a8" "b8" King None None "Kb8";
     mkMove "a8" "b7" King None None "Kb7";
     mkMove "a8" "a7" King None None "Ka7";
     mkMove "d4" "d3" Pawn None None "d3";
     mkMove "d4" "e3" Pawn (Some Pawn) None "dxe3"]
    false false false.

(** After [Kb8].
    FEN [1k6/8/8/8/3p4/4P3/8/7K w - - 1 41]. *)
Definition kp_after_Kb8 : Position :=
  mkPosition
    (board_of_rows
       ["1k6";
        "8";
        "8";
        "8";
        "3p4";
        "4P3";
        "8";
        "7K"])
    White (mkCastling false false false false) None 1 41
    [mkMove "e3" "e4" Pawn None None "e4";
     mkMove "e3" "d4" Pawn (Some Pawn) None "exd4";
     mkMove "h1" "g2" King None None "Kg2";
     mkMove "h1" "h2" King None None "Kh2";
     mkMove "h1" "g1" King None None "Kg1"]
    false false false.

(** After [Kb7].
    FEN [8/1k6/8/8/3p4/4P3/8/7K w - - 1 41]. *)
Definition kp_after_Kb7 : Position :=
  mkPosition
    (board_of_rows
       ["8";
        "1k6";
        "8";
        "8";
        "3p4";
        "4P3";
        "8";
        "7K"])
    White (mkCastling false false false false) None 1 41
    [mkMove "e3" "e4" Pawn None None "e4";
     mkMove "e3" "d4" Pawn (Some Pawn) None "exd4";
     mkMove "h1" "g2" King None None "Kg2";
     mkMove "h1" "h2" King None None "Kh2";
     mkMove "h1" "g1" King None None "Kg1"]
    false false false.

(** After [Ka7].
    FEN [8/k7/8/8/3p4/4P3/8/7K w - - 1 41]. *)
Definition kp_after_Ka7 : Position :=
  mkPosition
    (board_of_rows
       ["8";
        "k7";
        "8";
        "8";
        "3p4";
        "4P3";
        "8";
        "7K"])
    White (mkCastling false false false false) None 1 41
    [mkMove "e3" "e4" Pawn None None "e4";
     mkMove "e3" "d4" Pawn (Some Pawn) None "exd4";
     mkMove "h1" "g2" King None None "Kg2";
     mkMove "h1" "h2" King None None "Kh2";
     mkMove "h1" "g1" King None None "Kg1"]
    false false false.

(** After [d3].
    FEN [k7/8/8/8/8/3pP3/8/7K w - - 0 41]. *)
Definition kp_after_d3 : Position :=
  mkPosition
    (board_of_rows
       ["k7";
        "8";
        "8";
        "8";
        "8";
        "3pP3";
        "8";
        "7K"])
    White (mkCastling false false false false) None 0 41
    [mkMove "e3" "e4" Pawn None None "e4";
     mkMove "h1" "g2" King None None "Kg2";
     mkMove "h1" "h2" King None None "Kh2";
     mkMove "h1" "g1" King None None "Kg1"]
    false false false.

(** After [dxe3].
    FEN [k7/8/8/8/8/4p3/8/7K w - - 0 41]. *)
Definition kp_after_dxe3 : Position :=
  mkPosition
    (board_of_rows
       ["k7";
        "8";
        "8";
        "8";
        "8";
        "4p3";
        "8";
        "7K"])
    White (mkCastling false false false false) None 0 41
    [mkMove "h1" "g2" King None None "Kg2";
     mkMove "h1" "h2" King None None "Kh2";
     mkMove "h1" "g1" King None None "Kg1"]
    false false false.

Definition kp_engine : Position -> MoveInput -> option (Move * Position) :=
  table_engine
    [entry kp_start
       [kp_after_Kb8;
        kp_after_Kb7;
        kp_after_Ka7;
        kp_after_d3;
        kp_after_dxe3]].

(** After 1. e4 d5 2. exd5 Qxd5 3. Qf3 Qxf3 4. Nxf3 Nf6: no queen is left on
    the board, all twelve rooks, knights and bishops are, and both sides may
    still castle.
    FEN [rnb1kb1r/ppp1pppp/5n2/8/8/5N2/PPPP1PPP/RNB1KB1R w KQkq - 1 5]. *)
Definition queens_traded : Position :=
  mkPosition
    (board_of_rows
       ["rnb1kb1r";
        "ppp1pppp";
        "5n2";
        "8";
        "8";
        "5N2";
        "PPPP1PPP";
        "RNB1KB1R"])
    White (mkCastling true true true true) None 1 5
    [mkMove "f3" "d4" Knight None None "Nd4";
     mkMove "f3" "e5" Knight None None "Ne5";
     mkMove "f3" "g5" Knight None None "Ng5";
     mkMove "f3" "h4" Knight None None "Nh4";
     mkMove "f3" "g1" Knight None None "Ng1";
     mkMove "a2" "a3" Pawn None None "a3";
     mkMove "a2" "a4" Pawn None None "a4";
     mkMove "b2" "b3" Pawn None None "b3";
     mkMove "b2" "b4" Pawn None None "b4";
     mkMove "c2" "c3" Pawn None None "c3";
     mkMove "c2" "c4" Pawn None None "c4";
     mkMove "d2" "d3" Pawn None None "d3";
     mkMove "d2" "d4" Pawn None None "d4";
     mkMove "g2" "g3" Pawn None None "g3";
     mkMove "g2" "g4" Pawn None None "g4";
     mkMove "h2" "h3" Pawn None None "h3";
     mkMove "h2" "h4" Pawn None None "h4";
     mkMove "b1" "a3" Knight None None "Na3";
     mkMove "b1" "c3" Knight None None "Nc3";
     mkMove "e1" "e2" King None None "Ke2";
     mkMove "e1" "d1" King None None "Kd1";
     mkMove "f1" "e2" Bishop None None "Be2";
     mkMove "f1" "d3" Bishop None None "Bd3";
     mkMove "f1" "c4" Bishop None None "Bc4";
     mkMove "f1" "b5" Bishop None None "Bb5+";
     mkMove "f1" "a6" Bishop None None "Ba6";
     mkMove "h1" "g1" Rook None None "Rg1"]
    false false false.

(** After 1. e4 e5 2. Nf3 Nf6 3. Nc3 Bc5 4. Bc4 O-O: Black has castled.
    FEN [rnbq1rk1/pppp1ppp/5n2/2b1p3/2B1P3/2N2N2/PPPP1PPP/R1BQK2R w KQ - 6 5]. *)
Definition castled : Position :=
  mkPosition
    (board_of_rows
       ["rnbq1rk1";
        "pppp1ppp";
        "5n2";
        "2b1p3";
        "2B1P3";
        "2N2N2";
        "PPPP1PPP";
        "R1BQK2R"])
    White (mkCastling true true false false) None 6 5
    [mkMove "c4" "b5" Bishop None None "Bb5";
     mkMove "c4" "a6" Bishop None None "Ba6";
     mkMove "c4" "d5" Bishop None None "Bd5";
     mkMove "c4" "e6" Bishop None None "Be6";
     mkMove "c4" "f7" Bishop (Some Pawn) None "Bxf7+";
     mkMove "c4" "d3" Bishop None None "Bd3";
     mkMove "c4" "e2" Bishop None None "Be2";
     mkMove "c4" "f1" Bishop None None "Bf1";
     mkMove "c4" "b3" Bishop None None "Bb3";
     mkMove "c3" "a4" Knight None None "Na4";
     mkMove "c3" "b5" Knight None None "Nb5";
     mkMove "c3" "d5" Knight None None "Nd5";
     mkMove "c3" "e2" Knight None None "Ne2";
     mkMove "c3" "b1" Knight None None "Nb1";
     mkMove "f3" "d4" Knight None None "Nd4";
     mkMove "f3" "e5" Knight (Some Pawn) None "Nxe5";
     mkMove "f3" "g5" Knight None None "Ng5";
     mkMove "f3" "h4" Knight None None "Nh4";
     mkMove "f3" "g1" Knight None None "Ng1";
     mkMove "a2" "a3" Pawn None None "a3";
     mkMove "a2" "a4" Pawn None None "a4";
     mkMove "b2" "b3" Pawn None None "b3";
     mkMove "b2" "b4" Pawn None None "b4";
     mkMove "d2" "d3" Pawn None None "d3";
     mkMove "d2" "d4" Pawn None None "d4";
     mkMove "g2" "g3" Pawn None None "g3";
     mkMove "g2" "g4" Pawn None None "g4";
     mkMove "h2" "h3" Pawn None None "h3";
     mkMove "h2" "h4" Pawn None None "h4";
     mkMove "a1" "b1" Rook None None "Rb1";
     mkMove "d1" "e2" Queen None None "Qe2";
     mkMove "e1" "e2" King None None "Ke2";
     mkMove "e1" "f1" King None None "Kf1";
     mkMove "h1" "g1" Rook None None "Rg1";
     mkMove "h1" "f1" Rook None None "Rf1";
     mkMove "e1" "g1" King None None "O-O"]
    false false false.

(** Black has two pawns, both on the e-file; White has none.
    FEN [4k3/4p3/4p3/8/8/8/8/4K3 w - - 1 30]. *)
Definition doubled_pawns : Position :=
  mkPosition
    (board_of_rows
       ["4k3";
        "4p3";
        "4p3";
        "8";
        "8";
        "8";
        "8";
        "4K3"])
    White (mkCastling false false false false) None 1 30
    [mkMove "e1" "d2" King None None "Kd2";
     mkMove "e1" "e2" King None None "Ke2";
     mkMove "e1" "f2" King None None "Kf2";
     mkMove "e1" "f1" King None None "Kf1";
     mkMove "e1" "d1" King None None "Kd1"]
    false false false.

(** The working copy and the state of the component in the ending; of the
    history only the length is read. *)
Definition kp_game : Chess := new_Chess kp_start.

Definition kp_state (d : Difficulty) : State :=
  mkState kp_game (repeat "..." 79) "" [] true d
    (mkTimeControl "10 min Rapid" 600 0) (mkTimeLeft 431 388) true None.

(** The capture [dxe3] of the ending, a pawn taking a pawn, and the working
    copy after it. *)
Definition kp_dxe3 : Move := mkMove "d4" "e3" Pawn (Some Pawn) None "dxe3".

Definition kp_game_after_dxe3 : Chess := mkChess kp_after_dxe3 [kp_start].

(** Scored moves of the ending, as the Easy level may score them. *)
Definition kp_scored : list ScoredMove :=
  [mkScored (mkMove "a8" "b8" King None None "Kb8") (12 # 1);
   mkScored (mkMove "a8" "b7" King None None "Kb7") (49 # 2);
   mkScored (mkMove "a8" "a7" King None None "Ka7") (12 # 1);
   mkScored (mkMove "d4" "d3" Pawn None None "d3") (3 # 1);
   mkScored kp_dxe3 (231 # 1)].

(** Black to move mates on the back rank with [Ra1#].
    FEN [7k/6pp/8/8/8/8/r5PP/7K b - - 4 40]. *)
Definition back_rank_start : Position :=
  mkPosition
    (board_of_rows
       ["7k";
        "6pp";
        "8";
        "8";
        "8";
        "8";
        "r5PP";
        "7K"])
    Black (mkCastling false false false false) None 4 40
    [mkMove "h8" "g8" King None None "Kg8";
     mkMove "g7" "g6" Pawn None None "g6";
     mkMove "g7" "g5" Pawn None None "g5";
     mkMove "h7" "h6" Pawn None None "h6";
     mkMove "h7" "h5" Pawn None None "h5";
     mkMove "a2" "a3" Rook None None "Ra3";
     mkMove "a2" "a4" Rook None None "Ra4";
     mkMove "a2" "a5" Rook None None "Ra5";
     mkMove "a2" "a6" Rook None None "Ra6";
     mkMove "a2" "a7" Rook None None "Ra7";
     mkMove "a2" "a8" Rook None None "Ra8";
     mkMove "a2" "b2" Rook None None "Rb2";
     mkMove "a2" "c2" Rook None None "Rc2";
     mkMove "a2" "d2" Rook None None "Rd2";
     mkMove "a2" "e2" Rook None None "Re2";
     mkMove "a2" "f2" Rook None None "Rf2";
     mkMove "a2" "g2" Rook (Some Pawn) None "Rxg2";
     mkMove "a2" "a1" Rook None None "Ra1#"]
    false false false.

(** After [Ra1#].
    FEN [7k/6pp/8/8/8/8/6PP/r6K w - - 5 41]. *)
Definition back_rank_after_Ra1 : Position :=
  mkPosition
    (board_of_rows
       ["7k";
        "6pp";
        "8";
        "8";
        "8";
        "8";
        "6PP";
        "r6K"])
    White (mkCastling false false false false) None 5 41
    []
    true true false.

Definition back_rank_Ra1 : Move :=
  mkMove "a2" "a1" Rook None None "Ra1#".

(** After [Rxg2].
    FEN [7k/6pp/8/8/8/8/6rP/7K w - - 0 41]. *)
Definition back_rank_after_Rxg2 : Position :=
  mkPosition
    (board_of_rows
       ["7k";
        "6pp";
        "8";
        "8";
        "8";
        "8";
        "6rP";
        "7K"])
    White (mkCastling false false false false) None 0 41
    [mkMove "h2" "h3" Pawn None None "h3";
     mkMove "h2" "h4" Pawn None None "h4";
     mkMove "h1" "g2" King (Some Rook) None "Kxg2"]
    false false false.

Definition back_rank_Rxg2 : Move :=
  mkMove "a2" "g2" Rook (Some Pawn) None "Rxg2".

(** The engine on the two candidates compared. *)
Definition back_rank_engine : Position -> MoveInput -> option (Move * Position) :=
  table_engine
    [(fen_of back_rank_start,
      [(back_rank_Ra1, back_rank_after_Ra1);
       (back_rank_Rxg2, back_rank_after_Rxg2)])].

(** * Further positions of the examples *)

(** Black to move has no legal move and is not in check.
    FEN [7k/5Q2/6K1/8/8/8/8/8 b - - 0 61]. *)
Definition stalemate_position : Position :=
  mkPosition
    (board_of_rows
       ["7k";
        "5Q2";
        "6K1";
        "8";
        "8";
        "8";
        "8";
        "8"])
    Black (mkCastling false false false false) None 0 61
    []
    false false true.

(** * The rest of the component

    The handlers and helpers of [ChessGame] that the evaluation does not go
    through: the clock, the selection of squares, undo and reset, the status
    line, and [evaluateMove], which nothing calls. *)

(** [new Chess()]: the position a game starts from.
    FEN [rnbqkbnr/pppppppp/8/8/8/8/PPPPPPPP/RNBQKBNR w KQkq - 0 1]. *)
Definition start_position : Position :=
  mkPosition
    (board_of_rows
       ["rnbqkbnr";
        "pppppppp";
        "8";
        "8";
        "8";
        "8";
        "PPPPPPPP";
        "RNBQKBNR"])
    White (mkCastling true true true true) None 0 1
    [mkMove "a2" "a3" Pawn None None "a3";
     mkMove "a2" "a4" Pawn None None "a4";
     mkMove "b2" "b3" Pawn None None "b3";
     mkMove "b2" "b4" Pawn None None "b4";
     mkMove "c2" "c3" Pawn None None "c3";
     mkMove "c2" "c4" Pawn None None "c4";
     mkMove "d2" "d3" Pawn None None "d3";
     mkMove "d2" "d4" Pawn None None "d4";
     mkMove "e2" "e3" Pawn None None "e3";
     mkMove "e2" "e4" Pawn None None "e4";
     mkMove "f2" "f3" Pawn None None "f3";
     mkMove "f2" "f4" Pawn None None "f4";
     mkMove "g2" "g3" Pawn None None "g3";
     mkMove "g2" "g4" Pawn None None "g4";
     mkMove "h2" "h3" Pawn None None "h3";
     mkMove "h2" "h4" Pawn None None "h4";
     mkMove "b1" "a3" Knight None None "Na3";
     mkMove "b1" "c3" Knight None None "Nc3";
     mkMove "g1" "f3" Knight None None "Nf3";
     mkMove "g1" "h3" Knight None None "Nh3"]
    false false false.

(** ** The clock *)

(** [TIME_CONTROLS], lines 135-141. *)
Definition TIME_CONTROLS : list TimeControl :=
  [mkTimeControl "1 min Bullet" 60 0;
   mkTimeControl "3 min Blitz" 180 0;
   mkTimeControl "5 min Blitz" 300 0;
   mkTimeControl "10 min Rapid" 600 0;
   mkTimeControl "15|10 Rapid" 900 10].

(** The state of the first render, lines 148-159. *)
Definition initial_state : State :=
  mkState (new_Chess start_position) [] "" [] false Easy
    (mkTimeControl "10 min Rapid" 600 0) (mkTimeLeft 600 600) false None.

(** [n.toString()] of an integer. *)
Definition number_to_string (z : Z) : string :=
  if z <? 0 then "-" ++ Js.of_nat (Z.to_nat (- z))
  else Js.of_nat (Z.to_nat z).

(** [s.padStart(n, c)] for a one character filler. *)
Definition padStart (s : string) (n : nat) (c : ascii) : string :=
  string_of_list_ascii (repeat c (n - String.length s)) ++ s.

(** [formatTime], lines 199-203, on a whole number of seconds:
    [Math.floor(seconds / 60)] is the quotient rounded down and [%] is the
    remainder with the sign of the dividend. *)
Definition formatTime (seconds : Z) : string :=
  let minutes := seconds / 60 in
  let remainingSeconds := Z.rem seconds 60 in
  number_to_string minutes ++ ":"
  ++ padStart (number_to_string remainingSeconds) 2 "0".

Definition with_timeLeft (st : State) (t : TimeLeft) : State :=
  mkState (game st) (moveHistory st) (moveFrom st) (possibleMoves st)
    (isPlayingComputer st) (difficulty st) (selectedTimeControl st) t
    (isTimerRunning st) (lastMoveTime st).

Definition with_isTimerRunning (st : State) (b : bool) : State :=
  mkState (game st) (moveHistory st) (moveFrom st) (possibleMoves st)
    (isPlayingComputer st) (difficulty st) (selectedTimeControl st)
    (timeLeft st) b (lastMoveTime st).

Definition with_selection (st : State) (square : string)
    (squares : list string) : State :=
  mkState (game st) (moveHistory st) square squares
    (isPlayingComputer st) (difficulty st) (selectedTimeControl st)
    (timeLeft st) (isTimerRunning st) (lastMoveTime st).

(** The check for a time out, lines 188-196. *)
Definition timeOutEffect (st : State) : State :=
  if white (timeLeft st) =? 0 then with_isTimerRunning st false
  else if black (timeLeft st) =? 0 then with_isTimerRunning st false
  else st.

(** [resetGame], lines 783-793. *)
Definition resetGame (st : State) : State :=
  mkState (new_Chess start_position) [] "" []
    (isPlayingComputer st) (difficulty st) (selectedTimeControl st)
    (mkTimeLeft (initial (selectedTimeControl st))
       (initial (selectedTimeControl st)))
    false (lastMoveTime st).

(** The button that switches between a friend and the computer, lines
    1011-1014: [setIsPlayingComputer(!isPlayingComputer); resetGame()]. *)
Definition togglePlayingComputer (st : State) : State :=
  let st' := resetGame st in
  mkState (game st') (moveHistory st') (moveFrom st') (possibleMoves st')
    (negb (isPlayingComputer st)) (difficulty st') (selectedTimeControl st')
    (timeLeft st') (isTimerRunning st') (lastMoveTime st').

(** The [onChange] of the time control menu, lines 1032-1039.  The menu
    offers the names of [TIME_CONTROLS]; for any other text [find] gives
    [undefined] and reading [.initial] throws.  The clock is not stopped and
    the game is not reset. *)
Definition selectTimeControl (st : State) (value : string)
  : Js.completion State :=
  match find (fun tc => String.eqb (name tc) value) TIME_CONTROLS with
  | Some newTimeControl =>
      Return
        (mkState (game st) (moveHistory st) (moveFrom st) (possibleMoves st)
           (isPlayingComputer st) (difficulty st) newTimeControl
           (mkTimeLeft (initial newTimeControl) (initial newTimeControl))
           (isTimerRunning st) (lastMoveTime st))
  | None => Throw TypeError
  end.

(** [prev.slice(0, -k)] *)
Definition slice_off_end {A : Type} (l : list A) (k : nat) : list A :=
  firstn (List.length l - k) l.

(** [undoLastMove], lines 796-811.  The copy is made from the FEN, so it has
    no move to take back. *)
Definition undoLastMove (st : State) : State :=
  let gameCopy := new_Chess (position (game st)) in
  let gameCopy :=
    if isPlayingComputer st then undo (undo gameCopy) else undo gameCopy in
  mkState gameCopy
    (if isPlayingComputer st then slice_off_end (moveHistory st) 2
     else slice_off_end (moveHistory st) 1)
    "" [] (isPlayingComputer st) (difficulty st) (selectedTimeControl st)
    (timeLeft st) false (lastMoveTime st).

(** [game.moves({ square, verbose: true })]: the legal moves of the piece
    on [square]. *)
Definition moves_from (g : Chess) (square : string) : list Move :=
  filter (fun m => String.eqb (from m) square) (moves g).

Section Handlers.

Variable play : Position -> MoveInput -> option (Move * Position).

(** [isGameOver()] and [isStalemate()] of the rules engine. *)
Variable isGameOver : Chess -> bool.
Variable isStalemate : Chess -> bool.

(** One run of the callback of [setInterval] in the timer effect, lines
    165-185; the effect sets the interval only while the clock runs and the
    game is not over. *)
Definition tick (st : State) : State :=
  if isTimerRunning st && negb (isGameOver (game st)) then
    let prev := timeLeft st in
    match turn (game st) with
    | White => with_timeLeft st (mkTimeLeft (Z.max 0 (white prev - 1)) (black prev))
    | Black => with_timeLeft st (mkTimeLeft (white prev) (Z.max 0 (black prev - 1)))
    end
  else st.

(** [onDrop], lines 768-780. *)
Definition onDrop (st : State) (sourceSquare targetSquare : string)
  : State * bool :=
  if isPlayingComputer st && Color_eqb (turn (game st)) Black then (st, false)
  else
    makeAMove play (with_selection st "" [])
      (mkMoveInput sourceSquare targetSquare (Some Queen)).

(** [onSquareClick], lines 728-765. *)
Definition onSquareClick (st : State) (square : string) : State :=
  if isPlayingComputer st && Color_eqb (turn (game st)) Black then st
  else
    let moves := moves_from (game st) square in
    if String.eqb (moveFrom st) "" then
      if (0 <? List.length moves)%nat
      then with_selection st square (map to moves)
      else st
    else if String.eqb square (moveFrom st) then with_selection st "" []
    else if array_includes (possibleMoves st) square then
      fst (makeAMove play st
             (mkMoveInput (moveFrom st) square (Some Queen)))
    else if (0 <? List.length moves)%nat
    then with_selection st square (map to moves)
    else with_selection st "" [].

(** [getGameStatus], lines 814-822. *)
Definition getGameStatus (st : State) : string :=
  if white (timeLeft st) =? 0 then "Black wins on time!"
  else if black (timeLeft st) =? 0 then "White wins on time!"
  else if isCheckmate (game st) then "Checkmate!"
  else if isDraw (game st) then "Draw!"
  else if isStalemate (game st) then "Stalemate!"
  else if isCheck (game st) then "Check!"
  else (match turn (game st) with White => "White" | Black => "Black" end)
       ++ "'s turn".


End Handlers.

(** ** Notions the further properties are stated with *)

(** Both clocks, and the two numbers of the time control, are not
    negative. *)
Definition clock_ok (st : State) : Prop :=
  0 <= white (timeLeft st) /\ 0 <= black (timeLeft st)
  /\ 0 <= initial (selectedTimeControl st)
  /\ 0 <= increment (selectedTimeControl st).

(** Nothing is selected, or a square is and the highlighted squares are the
    destinations of the legal moves from it, of which there is one at
    least. *)
Definition selection_ok (st : State) : Prop :=
  (moveFrom st = "" /\ possibleMoves st = [])
  \/ (moveFrom st <> "" /\ possibleMoves st <> []
      /\ possibleMoves st = map to (moves_from (game st) (moveFrom st))).

(** The character of a decimal digit. *)
Definition digit (n : nat) : ascii := ascii_of_nat (48 + n).

(** The ending with the clock of the 15|10 time control running, and with a
    friend at the board instead of the computer. *)
Definition kp_state_increment : State :=
  mkState kp_game (repeat "..." 79) "" [] true Hard
    (mkTimeControl "15|10 Rapid" 900 10) (mkTimeLeft 431 388) true None.

Definition kp_state_friend : State :=
  mkState kp_game (repeat "..." 79) "" [] false Easy
    (mkTimeControl "10 min Rapid" 600 0) (mkTimeLeft 431 388) true None.

(** The same with the pawn on d4 selected. *)
Definition kp_state_selected : State :=
  with_selection kp_state_friend "d4" ["d3"; "e3"].

(** What chess.js computes for [isStalemate()]: not in check and no legal
    move. *)
Definition no_move_no_check (g : Chess) : bool :=
  negb (isCheck g) && (List.length (moves g) =? 0)%nat.

(** A game that has reached the stalemate, and one move before a flag
    falls. *)
Definition stalemate_state : State :=
  mkState (new_Chess stalemate_position) (repeat "..." 121) "" [] false Easy
    (mkTimeControl "10 min Rapid" 600 0) (mkTimeLeft 212 97) true None.

Definition kp_state_last_second : State :=
  mkState kp_game (repeat "..." 79) "" [] false Easy
    (mkTimeControl "10 min Rapid" 600 0) (mkTimeLeft 431 1) true None.

(** The first position with the list of legal moves in the opposite
    order. *)
Definition start_position_reordered : Position :=
  mkPosition (p_board start_position) (p_turn start_position)
    (p_castling start_position) (p_epSquare start_position)
    (p_halfMoves start_position) (p_moveNumber start_position)
    (rev (p_moves start_position))
    (p_isCheck start_position) (p_isCheckmate start_position)
    (p_isDraw start_position).

(** The board seen from the other side: turned by half a turn, with the
    colours of the pieces exchanged. *)
Definition opposite (c : Color) : Color :=
  match c with
  | White => Black
  | Black => White
  end.

Definition swap_colour (p : Piece) : Piece :=
  mkPiece (type p) (opposite (color p)).

Definition turn_board (b : Board) : Board :=
  rev (map (fun row => rev (map (option_map swap_colour) row)) b).

(** Eight rows of eight squares, as [board()] of chess.js gives them. *)
Definition eight_by_eight (b : Board) : Prop :=
  List.length b = 8%nat /\ Forall (fun row => List.length row = 8%nat) b.

(** The square at the other end of the board. *)
Definition turn_square (sq : nat * nat) : nat * nat :=
  ((7 - fst sq)%nat, (7 - snd sq)%nat).

(** The number of squares of the board that hold a piece. *)
Definition occupied (b : Board) (sq : nat * nat) : bool :=
  match cell b (fst sq) (snd sq) with
  | Some _ => true
  | None => false
  end.

Definition men_on (b : Board) : nat :=
  List.length (filter (occupied b) all_squares).

(** The king and pawn ending seen from the other side, White to move. *)
Definition kp_turned : Position :=
  mkPosition (turn_board (p_board kp_start)) White
    (p_castling kp_start) None (p_halfMoves kp_start)
    (p_moveNumber kp_start) [] false false false.

(** [y] has a strictly higher score than [x]. *)
Definition better_than (x y : ScoredMove) : bool :=
  negb (Qle_bool (score y) (score x)).

(** The name chess.js gives to the square at [row] and [col] of [board()]:
    row 0 is the eighth rank, column 0 the a-file. *)
Definition square_name (row col : nat) : string :=
  algebraic (col, (8 - row)%nat).

(** * Properties *)

(** ** The working copy: apply, score, undo *)

Section EngineFacts.

Variable play : Position -> MoveInput -> option (Move * Position).

Lemma undo_after_move (m : MoveInput) (g g' : Chess) (result : Move) :
  Chess_move play m g = (Return result, g') -> undo g' = g.
Proof.
  unfold Chess_move. destruct (play (position g) m) as [[r p']|].
  - intros [= _ <-]. destruct g; reflexivity.
  - discriminate.
Qed.

Lemma refused_move_keeps_object (m : MoveInput) (g g' : Chess) (e : string) :
  Chess_move play m g = (Throw e, g') -> g' = g.
Proof.
  unfold Chess_move. destruct (play (position g) m) as [[r p']|].
  - discriminate.
  - intros [= _ <-]. reflexivity.
Qed.

(** What one candidate is scored on: the position the engine reaches from
    the position of the working copy, and nothing else. *)
Lemma score_candidate_eq d h r (m : Move) (g : Chess) :
  score_candidate play d h r m g =
  match play (position g) (input_of_move m) with
  | Some (_, p') =>
      let after := mkChess p' (position g :: history g) in
      (Return
         (mkScored m
            match d with
            | Easy =>
                (0 + inject_Z (evaluateBasicPosition m after) + r * 50)%Q
            | Medium =>
                (0 + inject_Z (evaluateBasicPosition m after)
                 + inject_Z (evaluateIntermediatePosition h after)
                 + r * 20)%Q
            | Hard =>
                (0 + inject_Z (evaluateBasicPosition m after)
                 + inject_Z (evaluateAdvancedPosition after None)
                 + r * 5)%Q
            end), g)
  | None => (Throw IllegalMove, g)
  end.
Proof.
  unfold score_candidate, bind, Chess_move, this, Chess_undo, ret.
  destruct (play (position g) (input_of_move m)) as [[res p']|];
    [|reflexivity].
  destruct g as [p hs]; destruct d; reflexivity.
Qed.

Lemma score_candidate_restores d h r (m : Move) (g : Chess) :
  snd (score_candidate play d h r m g) = g.
Proof.
  rewrite score_candidate_eq.
  destruct (play (position g) (input_of_move m)) as [[res p']|];
    reflexivity.
Qed.

Lemma score_candidate_move d h r (m : Move) (g : Chess) (sm : ScoredMove) :
  fst (score_candidate play d h r m g) = Return sm -> move sm = m.
Proof.
  rewrite score_candidate_eq.
  destruct (play (position g) (input_of_move m)) as [[res p']|]; simpl.
  - intros [= <-]. reflexivity.
  - discriminate.
Qed.

Section MapFrom.
Context {A B : Type} (callback : nat -> A -> Game B).
Hypothesis restores : forall i a g, snd (callback i a g) = g.

Lemma map_from_restores (l : list A) :
  forall i g, snd (map_from callback i l g) = g.
Proof.
  induction l as [|a l IH]; intros i g; simpl; [reflexivity|].
  unfold bind. specialize (restores i a g).
  destruct (callback i a g) as [[b|e] g1]; simpl in *; subst g1;
    [|reflexivity].
  specialize (IH (S i) g).
  destruct (map_from callback (S i) l g) as [[bs|e] g2]; simpl in *;
    subst g2; reflexivity.
Qed.

Lemma map_from_results (l : list A) :
  forall i g bs,
    fst (map_from callback i l g) = Return bs ->
    List.length bs = List.length l
    /\ forall k a, nth_error l k = Some a ->
         exists b, nth_error bs k = Some b
                   /\ callback (i + k)%nat a g = (Return b, g).
Proof.
  induction l as [|a l IH]; intros i g bs; simpl.
  - intros [= <-]. split; [reflexivity|].
    intros [|k] a0; discriminate.
  - unfold bind. pose proof (restores i a g) as R.
    destruct (callback i a g) as [[b|e] g1] eqn:E; simpl in *; subst g1;
      [|discriminate].
    pose proof (map_from_restores l (S i) g) as R'.
    destruct (map_from callback (S i) l g) as [[bs'|e] g2] eqn:E';
      simpl in *; subst g2; [|discriminate].
    intros [= <-].
    destruct (IH (S i) g bs') as [Hlen Hnth]; [rewrite E'; reflexivity|].
    split; [simpl; congruence|].
    intros [|k] a0; simpl.
    + intros [= <-]. exists b. rewrite Nat.add_0_r. auto.
    + intros Hk. destruct (Hnth k a0 Hk) as [b0 [Hb0 Hc]].
      exists b0. split; [exact Hb0|].
      rewrite Nat.add_succ_r. exact Hc.
Qed.

Lemma map_from_returns (l : list A) :
  forall i g,
    (forall k a, nth_error l k = Some a ->
                 exists b, fst (callback (i + k)%nat a g) = Return b) ->
    exists bs, fst (map_from callback i l g) = Return bs.
Proof.
  induction l as [|a l IH]; intros i g H; simpl.
  - exists []. reflexivity.
  - unfold bind. pose proof (restores i a g) as R.
    destruct (H 0%nat a eq_refl) as [b Hb]. rewrite Nat.add_0_r in Hb.
    destruct (callback i a g) as [[b'|e] g1]; simpl in *; subst g1;
      [|discriminate].
    destruct (IH (S i) g) as [bs Hbs].
    { intros k a0 Hk. specialize (H (S k) a0 Hk).
      rewrite Nat.add_succ_r in H. exact H. }
    pose proof (map_from_restores l (S i) g) as R'.
    destruct (map_from callback (S i) l g) as [[bs'|e] g2]; simpl in *;
      subst g2; [|discriminate].
    eexists. reflexivity.
Qed.
End MapFrom.

(** The pass returns when the engine accepts every candidate. *)
Lemma evaluateAllMoves_returns d h rnd (ms : list Move) (g : Chess) :
  (forall m, In m ms -> play (position g) (input_of_move m) <> None) ->
  exists evaluated, fst (evaluateAllMoves play d h rnd ms g) = Return evaluated.
Proof.
  intros Hacc.
  set (cb := fun (i : nat) (m : Move) => score_candidate play d h (rnd i) m).
  assert (R : forall i a g0, snd (cb i a g0) = g0)
    by (intros; apply score_candidate_restores).
  destruct (map_from_returns cb R ms 0%nat g) as [bs Hbs].
  { intros k a Hk. unfold cb. rewrite score_candidate_eq.
    specialize (Hacc a (nth_error_In _ _ Hk)).
    destruct (play (position g) (input_of_move a)) as [[res p']|];
      [|congruence].
    eexists. reflexivity. }
  unfold evaluateAllMoves, bind; fold cb.
  destruct (map_from cb 0 ms g) as [[scored|e] g1]; [|discriminate].
  eexists. reflexivity.
Qed.

(** C2.  The scoring pass leaves the working copy as it found it, whether
    it returns or throws; when it returns, its result is the sorted array
    of the scores of the candidates, the [i]-th of which is the score
    [score_candidate] computes when run on the working copy as it was
    before the pass began, and which leaves that copy unchanged; and the
    pass returns whenever the engine accepts every candidate. *)
Theorem evaluateAllMoves_apply_undo :
  forall (d : Difficulty) (h : list string) (rnd : nat -> Q)
         (ms : list Move) (gameCopy : Chess),
    snd (evaluateAllMoves play d h rnd ms gameCopy) = gameCopy
    /\ (forall evaluated,
           fst (evaluateAllMoves play d h rnd ms gameCopy) = Return evaluated ->
           exists scored,
             evaluated = sort_by_score scored
             /\ List.length scored = List.length ms
             /\ forall i m,
                  nth_error ms i = Some m ->
                  exists sm,
                    nth_error scored i = Some sm
                    /\ score_candidate play d h (rnd i) m gameCopy
                       = (Return sm, gameCopy))
    /\ ((forall m, In m ms ->
                   play (position gameCopy) (input_of_move m) <> None) ->
        exists evaluated,
          fst (evaluateAllMoves play d h rnd ms gameCopy) = Return evaluated).
Proof.
  intros d h rnd ms g.
  set (cb := fun (i : nat) (m : Move) => score_candidate play d h (rnd i) m).
  assert (R : forall i a g0, snd (cb i a g0) = g0)
    by (intros; apply score_candidate_restores).
  pose proof (map_from_restores cb R ms 0%nat g) as Hsnd.
  unfold evaluateAllMoves, bind; fold cb.
  destruct (map_from cb 0 ms g) as [[scored|e] g1] eqn:E; simpl in Hsnd;
    subst g1; simpl.
  - split; [reflexivity|]. split.
    + intros evaluated [= <-]. exists scored.
      destruct (map_from_results cb R ms 0%nat g scored) as [Hl Hn];
        [rewrite E; reflexivity|].
      split; [reflexivity|]. split; [exact Hl|].
      intros i m Hi. destruct (Hn i m Hi) as [sm [H1 H2]].
      exists sm. split; [exact H1|exact H2].
    + intros _. eexists. reflexivity.
  - split; [reflexivity|]. split; [discriminate|].
    intros Hacc. exfalso.
    destruct (map_from_returns cb R ms 0%nat g) as [bs Hbs].
    { intros k a Hk. unfold cb. rewrite score_candidate_eq.
      specialize (Hacc a (nth_error_In _ _ Hk)).
      destruct (play (position g) (input_of_move a)) as [[res p']|];
        [|congruence].
      eexists. reflexivity. }
    rewrite E in Hbs. discriminate.
Qed.

(** C10.  [makeAMove] on a move the engine refuses returns [false] and the
    state it was given; on a move the engine accepts it returns [true],
    shows the position the engine reached and appends the move to the
    history.  So it returns [true] exactly when the move was applied. *)
Theorem makeAMove_atomic :
  forall (st : State) (mv : MoveInput),
    match play (position (game st)) mv with
    | None => makeAMove play st mv = (st, false)
    | Some (result, p') =>
        snd (makeAMove play st mv) = true
        /\ position (game (fst (makeAMove play st mv))) = p'
        /\ moveHistory (fst (makeAMove play st mv))
           = (moveHistory st ++ [san result])%list
        /\ moveFrom (fst (makeAMove play st mv)) = ""
        /\ possibleMoves (fst (makeAMove play st mv)) = []
    end.
Proof.
  intros st mv. unfold makeAMove, Chess_move, new_Chess. simpl.
  destruct (play (position (game st)) mv) as [[result p']|];
    [|reflexivity].
  unfold handleMoveComplete. simpl.
  destruct (negb (isTimerRunning st)); simpl; [repeat split|].
  destruct (0 <? increment (selectedTimeControl st)); simpl;
    repeat split.
Qed.

End EngineFacts.

(** ** The selector: stable sort, shortlist, sampling *)

Lemma comparator_nonpositive (x y : ScoredMove) :
  Qle_bool (compare_scores x y) 0 = true <-> descending x y.
Proof.
  unfold compare_scores, descending. rewrite Qle_bool_iff.
  split; intros H.
  - apply Qle_minus_iff in H. apply Qle_minus_iff.
    setoid_replace (score x + - score y)%Q
      with (0 + - (score y - score x))%Q by ring. exact H.
  - apply Qle_minus_iff in H. apply Qle_minus_iff.
    setoid_replace (0 + - (score y - score x))%Q
      with (score x + - score y)%Q by ring. exact H.
Qed.

Lemma comparator_positive (x y : ScoredMove) :
  Qle_bool (compare_scores x y) 0 = false -> (score x < score y)%Q.
Proof.
  intros H. apply Qnot_le_lt. intros Hle.
  apply comparator_nonpositive in Hle. congruence.
Qed.

Lemma insert_sorted_perm (x : ScoredMove) (l : list ScoredMove) :
  Permutation (x :: l) (insert_sorted x l).
Proof.
  induction l as [|y l IH]; simpl; [apply Permutation_refl|].
  destruct (Qle_bool (compare_scores x y) 0); [apply Permutation_refl|].
  eapply perm_trans; [apply perm_swap|]. apply perm_skip. exact IH.
Qed.

Lemma sort_by_score_perm (l : list ScoredMove) :
  Permutation l (sort_by_score l).
Proof.
  induction l as [|x l IH]; simpl; [constructor|].
  eapply perm_trans; [apply perm_skip; exact IH|]. apply insert_sorted_perm.
Qed.

Lemma insert_sorted_sorted (x : ScoredMove) (l : list ScoredMove) :
  StronglySorted descending l -> StronglySorted descending (insert_sorted x l).
Proof.
  induction l as [|y l IH]; intros Hs; simpl.
  - repeat constructor.
  - inversion Hs as [|? ? Hl Hy]; subst.
    destruct (Qle_bool (compare_scores x y) 0) eqn:E.
    + apply comparator_nonpositive in E.
      constructor; [exact Hs|]. constructor; [exact E|].
      eapply Forall_impl; [|exact Hy]. intros z Hz. unfold descending in *.
      eapply Qle_trans; eassumption.
    + apply comparator_positive in E.
      constructor; [apply IH; exact Hl|].
      eapply Permutation_Forall; [apply insert_sorted_perm|].
      constructor; [|exact Hy]. unfold descending. apply Qlt_le_weak, E.
Qed.

Lemma sort_by_score_sorted (l : list ScoredMove) :
  StronglySorted descending (sort_by_score l).
Proof.
  induction l as [|x l IH]; simpl; [constructor|].
  apply insert_sorted_sorted, IH.
Qed.

Lemma insert_sorted_stable (v : Q) (x : ScoredMove) (l : list ScoredMove) :
  filter (has_score v) (insert_sorted x l) = filter (has_score v) (x :: l).
Proof.
  induction l as [|y l IH]; [reflexivity|].
  simpl insert_sorted.
  destruct (Qle_bool (compare_scores x y) 0) eqn:E; [reflexivity|].
  apply comparator_positive in E.
  change (filter (has_score v) (y :: insert_sorted x l))
    with (if has_score v y
          then y :: filter (has_score v) (insert_sorted x l)
          else filter (has_score v) (insert_sorted x l)).
  rewrite IH. simpl. unfold has_score in *.
  destruct (Qeq_bool (score y) v) eqn:Ey;
    destruct (Qeq_bool (score x) v) eqn:Ex; try reflexivity.
  exfalso. apply Qeq_bool_iff in Ey, Ex.
  rewrite Ex, Ey in E. exact (Qlt_irrefl _ E).
Qed.

Lemma sort_by_score_stable (v : Q) (l : list ScoredMove) :
  filter (has_score v) (sort_by_score l) = filter (has_score v) l.
Proof.
  induction l as [|x l IH]; [reflexivity|].
  simpl sort_by_score. rewrite insert_sorted_stable. simpl.
  rewrite IH. reflexivity.
Qed.

Lemma sort_by_score_length (l : list ScoredMove) :
  List.length (sort_by_score l) = List.length l.
Proof. symmetry. apply Permutation_length, sort_by_score_perm. Qed.

(** *** The rounding of the product *)

Lemma pow2_pos (e : Z) : (0 < 2 ^ e)%Q.
Proof. apply Qpower_0_lt. reflexivity. Qed.

Lemma pow2_add (a b : Z) : (2 ^ (a + b) == 2 ^ a * 2 ^ b)%Q.
Proof. apply Qpower_plus. discriminate. Qed.

Lemma pow2_Z (e : Z) : 0 <= e -> (2 ^ e == inject_Z (2 ^ e))%Q.
Proof. intros H. symmetry. apply (Zpower_Qpower 2 e H). Qed.

Lemma pow2_le (a b : Z) : a <= b -> (2 ^ a <= 2 ^ b)%Q.
Proof. intros H. apply Qpower_le_compat_l; [exact H|discriminate]. Qed.

Lemma pow2_lt_inv (a b : Z) : (2 ^ a < 2 ^ b)%Q -> a < b.
Proof. intros H. eapply Qpower_lt_compat_l_inv; [exact H|reflexivity]. Qed.

(** [binade x] is the exponent of the power of two at or below [x]. *)
Lemma binade_spec (x : Q) :
  (0 < x)%Q -> (2 ^ binade x <= x)%Q /\ (x < 2 ^ (binade x + 1))%Q.
Proof.
  intros Hx. unfold binade.
  destruct x as [n d]. cbn [Qnum Qden].
  assert (Hn : 0 < n) by (unfold Qlt in Hx; cbn in Hx; lia).
  set (ln := Z.log2 n). set (ld := Z.log2 (Z.pos d)).
  destruct (Z.log2_spec n Hn) as [Hn1 Hn2]. fold ln in Hn1, Hn2.
  destruct (Z.log2_spec (Z.pos d) eq_refl) as [Hd1 Hd2]. fold ld in Hd1, Hd2.
  assert (Hln : 0 <= ln) by apply Z.log2_nonneg.
  assert (Hld : 0 <= ld) by apply Z.log2_nonneg.
  set (x := n # d) in *.
  assert (HxD : (x * inject_Z (Z.pos d) == inject_Z n)%Q).
  { unfold x, Qeq, Qmult, inject_Z. cbn. lia. }
  assert (HN1 : (2 ^ ln <= inject_Z n)%Q)
    by (rewrite pow2_Z by lia; rewrite <- Zle_Qle; exact Hn1).
  assert (HN2 : (inject_Z n < 2 ^ (ln + 1))%Q)
    by (rewrite pow2_Z by lia; rewrite <- Zlt_Qlt;
        replace (ln + 1) with (Z.succ ln) by lia; exact Hn2).
  assert (HD1 : (2 ^ ld <= inject_Z (Z.pos d))%Q)
    by (rewrite pow2_Z by lia; rewrite <- Zle_Qle; exact Hd1).
  assert (HD2 : (inject_Z (Z.pos d) < 2 ^ (ld + 1))%Q)
    by (rewrite pow2_Z by lia; rewrite <- Zlt_Qlt;
        replace (ld + 1) with (Z.succ ld) by lia; exact Hd2).
  pose proof (pow2_pos ld) as Pld. pose proof (pow2_pos (ld + 1)) as Pld1.
  destruct (Qle_bool (2 ^ (ln - ld)) x) eqn:E.
  - apply Qle_bool_iff in E. split; [exact E|].
    assert (Hs : (2 ^ (ln - ld + 1) * 2 ^ ld == 2 ^ (ln + 1))%Q).
    { rewrite <- pow2_add. replace (ln - ld + 1 + ld) with (ln + 1) by lia.
      reflexivity. }
    set (U := (2 ^ (ln - ld + 1))%Q) in *.
    set (V := (2 ^ ld)%Q) in *. set (W := (2 ^ (ln + 1))%Q) in *.
    set (D := inject_Z (Z.pos d)) in *. set (N := inject_Z n) in *.
    nra.
  - assert (E' : ~ (2 ^ (ln - ld) <= x)%Q).
    { intros H. apply Qle_bool_iff in H. congruence. }
    apply Qnot_le_lt in E'. split.
    + assert (Hs : (2 ^ (ln - ld - 1) * 2 ^ (ld + 1) == 2 ^ ln)%Q).
      { rewrite <- pow2_add. replace (ln - ld - 1 + (ld + 1)) with ln by lia.
        reflexivity. }
      set (U := (2 ^ (ln - ld - 1))%Q) in *.
      set (V := (2 ^ (ld + 1))%Q) in *. set (W := (2 ^ ln)%Q) in *.
      set (D := inject_Z (Z.pos d)) in *. set (N := inject_Z n) in *.
      nra.
    + replace (ln - ld - 1 + 1) with (ln - ld) by lia. exact E'.
Qed.

Lemma round_half_even_ge (y : Q) (n : Z) :
  (inject_Z n <= y)%Q -> n <= round_half_even y.
Proof.
  intros H. unfold round_half_even.
  assert (Hf : n <= Qfloor y).
  { rewrite <- (Qfloor_Z n). apply Qfloor_resp_le. exact H. }
  destruct (y - inject_Z (Qfloor y) ?= 1 # 2)%Q;
    [destruct (Z.even (Qfloor y))| |]; lia.
Qed.

Lemma round_half_even_lt (y : Q) (n : Z) :
  (y < inject_Z n - (1 # 2))%Q -> round_half_even y < n.
Proof.
  intros H. unfold round_half_even.
  pose proof (Qfloor_le y) as Hf.
  set (f := Qfloor y) in *.
  destruct (y - inject_Z f ?= 1 # 2)%Q eqn:E.
  - apply Qeq_alt in E.
    assert (Hlt : (inject_Z (f + 1) < inject_Z n)%Q)
      by (rewrite inject_Z_plus; change (inject_Z 1) with 1%Q; lra).
    rewrite <- Zlt_Qlt in Hlt. destruct (Z.even f); lia.
  - assert (Hlt : (inject_Z f < inject_Z n)%Q) by lra.
    rewrite <- Zlt_Qlt in Hlt. exact Hlt.
  - apply Qgt_alt in E.
    assert (Hlt : (inject_Z (f + 1) < inject_Z n)%Q)
      by (rewrite inject_Z_plus; change (inject_Z 1) with 1%Q; lra).
    rewrite <- Zlt_Qlt in Hlt. exact Hlt.
Qed.

Lemma round_double_pos (x : Q) :
  (0 < x)%Q ->
  round_double x
  = (inject_Z (round_half_even (x / 2 ^ quantum x)) * 2 ^ quantum x)%Q.
Proof.
  intros H. unfold round_double. apply Qgt_alt in H. rewrite H. reflexivity.
Qed.

Lemma scaled_integer (j q : Z) :
  q <= 0 -> (inject_Z (j * 2 ^ (- q)) == inject_Z j / 2 ^ q)%Q.
Proof.
  intros Hq. rewrite inject_Z_mult, <- pow2_Z by lia.
  rewrite Qpower_opp. reflexivity.
Qed.

(** Rounding does not go below an integer at or below the number. *)
Lemma round_double_ge (x : Q) (j : Z) :
  (0 < x)%Q -> quantum x <= 0 ->
  (inject_Z j <= x)%Q -> (inject_Z j <= round_double x)%Q.
Proof.
  intros Hx Hq Hj. rewrite round_double_pos by exact Hx.
  set (q := quantum x) in *.
  pose proof (pow2_pos q) as Pq.
  assert (Hy : (inject_Z (j * 2 ^ (- q)) <= x / 2 ^ q)%Q).
  { rewrite scaled_integer by exact Hq.
    apply Qmult_le_compat_r; [exact Hj|].
    apply Qlt_le_weak, Qinv_lt_0_compat, Pq. }
  apply round_half_even_ge in Hy.
  rewrite Zle_Qle in Hy. rewrite scaled_integer in Hy by exact Hq.
  set (R := inject_Z (round_half_even (x / 2 ^ q))) in *.
  pose proof (Qmult_le_compat_r _ _ (2 ^ q) Hy (Qlt_le_weak _ _ Pq)) as H.
  setoid_replace (inject_Z j / 2 ^ q * 2 ^ q)%Q with (inject_Z j) in H;
    [exact H|].
  field. intros H0. rewrite H0 in Pq. discriminate.
Qed.

(** Rounding stays below an integer that is more than half a quantum
    above the number. *)
Lemma round_double_lt (x : Q) (j : Z) :
  (0 < x)%Q -> quantum x <= 0 ->
  (x < inject_Z j - 2 ^ (quantum x - 1))%Q ->
  (round_double x < inject_Z j)%Q.
Proof.
  intros Hx Hq Hj. rewrite round_double_pos by exact Hx.
  set (q := quantum x) in *.
  pose proof (pow2_pos q) as Pq.
  assert (Hhalf : (2 ^ (q - 1) == (1 # 2) * 2 ^ q)%Q).
  { replace (q - 1) with (-1 + q) by lia. rewrite pow2_add. reflexivity. }
  assert (Hy : (x / 2 ^ q < inject_Z (j * 2 ^ (- q)) - (1 # 2))%Q).
  { rewrite scaled_integer by exact Hq.
    apply Qlt_shift_div_r; [exact Pq|].
    rewrite Hhalf in Hj.
    setoid_replace ((inject_Z j / 2 ^ q - (1 # 2)) * 2 ^ q)%Q
      with (inject_Z j - (1 # 2) * 2 ^ q)%Q; [exact Hj|].
    field. intros H0. rewrite H0 in Pq. discriminate. }
  apply round_half_even_lt in Hy.
  assert (Hy' : (inject_Z (round_half_even (x / 2 ^ q))
                 < inject_Z (j * 2 ^ (- q)))%Q)
    by (rewrite <- Zlt_Qlt; exact Hy).
  rewrite scaled_integer in Hy' by exact Hq.
  set (R := inject_Z (round_half_even (x / 2 ^ q))) in *.
  pose proof (Qmult_lt_compat_r _ _ (2 ^ q) Pq Hy') as H.
  setoid_replace (inject_Z j / 2 ^ q * 2 ^ q)%Q with (inject_Z j) in H;
    [exact H|].
  field. intros H0. rewrite H0 in Pq. discriminate.
Qed.

Lemma quantum_small (x : Q) : (0 < x)%Q -> (x < 8)%Q -> quantum x <= -50.
Proof.
  intros H0 H8. destruct (binade_spec x H0) as [Hlo _].
  assert (H : (2 ^ binade x < 2 ^ 3)%Q).
  { eapply Qle_lt_trans; [exact Hlo|]. exact H8. }
  apply pow2_lt_inv in H. unfold quantum. lia.
Qed.

Lemma half_quantum_small (x : Q) (n : Z) :
  (0 < x)%Q -> (x < inject_Z n)%Q -> 1 <= n ->
  (2 ^ (quantum x - 1) < inject_Z n * 2 ^ (-53))%Q.
Proof.
  intros H0 Hn H1. destruct (binade_spec x H0) as [Hlo _].
  pose proof (pow2_pos (-53)) as P53.
  assert (Hn1 : (1 <= inject_Z n)%Q)
    by (change 1%Q with (inject_Z 1); rewrite <- Zle_Qle; exact H1).
  unfold quantum.
  destruct (Z.max_spec (binade x - 52) (-1074)) as [[_ ->]|[_ ->]].
  - assert (H : (2 ^ (-1074 - 1) < 2 ^ (-53))%Q)
      by (apply Qpower_lt_compat_l; [lia|reflexivity]).
    set (a := (2 ^ (-1074 - 1))%Q) in *. set (b := (2 ^ (-53))%Q) in *.
    nra.
  - replace (binade x - 52 - 1) with (binade x + -53) by lia.
    rewrite pow2_add.
    set (a := (2 ^ binade x)%Q) in *. set (b := (2 ^ (-53))%Q) in *.
    nra.
Qed.

Section RandomIndex.

Variable r : Q.
Variable n : nat.
Hypothesis r_nonneg : (0 <= r)%Q.
Hypothesis r_at_most_1 : (r <= 1)%Q.
Hypothesis n_small : (n <= 5)%nat.

Lemma product_range :
  (0 <= r * inject_Z (Z.of_nat n))%Q /\ (r * inject_Z (Z.of_nat n) < 8)%Q.
Proof.
  assert (Hn0 : (0 <= inject_Z (Z.of_nat n))%Q)
    by (change 0%Q with (inject_Z 0); rewrite <- Zle_Qle; lia).
  assert (Hn5 : (inject_Z (Z.of_nat n) <= 5)%Q)
    by (change 5%Q with (inject_Z 5); rewrite <- Zle_Qle; lia).
  set (k := inject_Z (Z.of_nat n)) in *. split; nra.
Qed.

(** The index is at least every integer at or below the exact product. *)
Lemma random_index_ge (j : Z) :
  (inject_Z j <= r * inject_Z (Z.of_nat n))%Q -> j <= random_index r n.
Proof.
  intros Hj. unfold random_index.
  destruct product_range as [H0 H8].
  set (x := (r * inject_Z (Z.of_nat n))%Q) in *.
  destruct (Qlt_le_dec 0 x) as [Hpos|Hle].
  - rewrite <- (Qfloor_Z j). apply Qfloor_resp_le.
    apply round_double_ge; [exact Hpos| |exact Hj].
    pose proof (quantum_small x Hpos H8). lia.
  - assert (Hx : (x == 0)%Q) by lra.
    unfold round_double. apply Qeq_alt in Hx. rewrite Hx.
    apply Qeq_alt in Hx.
    assert (Hj0 : (inject_Z j <= inject_Z 0)%Q)
      by (change (inject_Z 0) with 0%Q; lra).
    rewrite <- Zle_Qle in Hj0. exact Hj0.
Qed.

(** The index is below every integer that is more than [2^-51] above the
    exact product. *)
Lemma random_index_lt_margin (j : Z) :
  (r * inject_Z (Z.of_nat n) < inject_Z j - 2 ^ (-51))%Q ->
  random_index r n < j.
Proof.
  intros Hj. unfold random_index.
  destruct product_range as [H0 H8].
  set (x := (r * inject_Z (Z.of_nat n))%Q) in *.
  pose proof (pow2_pos (-51)) as P51.
  destruct (Qlt_le_dec 0 x) as [Hpos|Hle].
  - pose proof (quantum_small x Hpos H8) as Hq.
    assert (Hlt : (round_double x < inject_Z j)%Q).
    { apply round_double_lt; [exact Hpos|lia|].
      assert (Hm : (2 ^ (quantum x - 1) <= 2 ^ (-51))%Q)
        by (apply pow2_le; lia).
      lra. }
    pose proof (Qfloor_le (round_double x)) as Hf.
    rewrite Zlt_Qlt. lra.
  - assert (Hx : (x == 0)%Q) by lra.
    unfold round_double. apply Qeq_alt in Hx. rewrite Hx.
    apply Qeq_alt in Hx.
    assert (Hj0 : (inject_Z 0 < inject_Z j)%Q)
      by (change (inject_Z 0) with 0%Q; lra).
    rewrite <- Zlt_Qlt in Hj0. exact Hj0.
Qed.

(** The index is below the length: a random number at most [1 - 2^-53]
    does not round up to it. *)
Lemma random_index_lt :
  (r <= 1 - 2 ^ (-53))%Q -> (0 < n)%nat ->
  random_index r n < Z.of_nat n.
Proof.
  intros Hr Hn. unfold random_index.
  destruct product_range as [H0 H8].
  pose proof (pow2_pos (-53)) as P53.
  assert (Hn1 : (1 <= inject_Z (Z.of_nat n))%Q)
    by (change 1%Q with (inject_Z 1); rewrite <- Zle_Qle; lia).
  assert (Hxn : (r * inject_Z (Z.of_nat n)
                 <= inject_Z (Z.of_nat n)
                    - inject_Z (Z.of_nat n) * 2 ^ (-53))%Q).
  { set (k := inject_Z (Z.of_nat n)) in *.
    set (u := (2 ^ (-53))%Q) in *. nra. }
  set (x := (r * inject_Z (Z.of_nat n))%Q) in *.
  destruct (Qlt_le_dec 0 x) as [Hpos|Hle].
  - pose proof (quantum_small x Hpos H8) as Hq.
    assert (Hlt : (round_double x < inject_Z (Z.of_nat n))%Q).
    { apply round_double_lt; [exact Hpos|lia|].
      assert (Hx1 : (x < inject_Z (Z.of_nat n))%Q).
      { set (k := inject_Z (Z.of_nat n)) in *.
        set (u := (2 ^ (-53))%Q) in *. nra. }
      pose proof (half_quantum_small x (Z.of_nat n) Hpos Hx1 ltac:(lia)).
      lra. }
    pose proof (Qfloor_le (round_double x)) as Hf.
    rewrite Zlt_Qlt. lra.
  - assert (Hx : (x == 0)%Q) by lra.
    unfold round_double. apply Qeq_alt in Hx. rewrite Hx.
    cbn. lia.
Qed.

End RandomIndex.

(** A double below 1 is at most [1 - 2^-53]. *)
Lemma double_below_one (r : Q) :
  double r -> (r < 1)%Q -> (r <= 1 - 2 ^ (-53))%Q.
Proof.
  intros [m [e [Hm [He Hr]]]] H1. rewrite Hr in H1 |- *.
  pose proof (pow2_pos e) as Pe.
  destruct (Z_le_gt_dec (-53) e) as [Hge|Hlt].
  - assert (Hs : (2 ^ e == inject_Z (2 ^ (e + 53)) * 2 ^ (-53))%Q).
    { rewrite <- pow2_Z by lia. rewrite <- pow2_add.
      replace (e + 53 + -53) with e by lia. reflexivity. }
    rewrite Hs in H1 |- *.
    assert (HM : (inject_Z (m * 2 ^ (e + 53)) * 2 ^ (-53) < 1)%Q).
    { rewrite inject_Z_mult. lra. }
    assert (HM' : (inject_Z (m * 2 ^ (e + 53)) < inject_Z (2 ^ 53))%Q).
    { assert (E : (inject_Z (2 ^ 53) * 2 ^ (-53) == 1)%Q) by reflexivity.
      pose proof (pow2_pos (-53)) as P.
      set (M := inject_Z (m * 2 ^ (e + 53))) in *.
      set (u := (2 ^ (-53))%Q) in *. set (T := inject_Z (2 ^ 53)) in *.
      nra. }
    rewrite <- Zlt_Qlt in HM'.
    assert (HM2 : (inject_Z (m * 2 ^ (e + 53)) <= inject_Z (2 ^ 53 - 1))%Q)
      by (rewrite <- Zle_Qle; lia).
    rewrite inject_Z_mult in HM2.
    assert (E : (inject_Z (2 ^ 53 - 1) * 2 ^ (-53) == 1 - 2 ^ (-53))%Q)
      by reflexivity.
    pose proof (pow2_pos (-53)) as P.
    set (a := inject_Z m) in *. set (b := inject_Z (2 ^ (e + 53))) in *.
    set (u := (2 ^ (-53))%Q) in *. set (T := inject_Z (2 ^ 53 - 1)) in *.
    nra.
  - assert (Hp : (2 ^ e <= 2 ^ (-54))%Q) by (apply pow2_le; lia).
    assert (Hm' : (inject_Z m <= inject_Z (2 ^ 53))%Q)
      by (rewrite <- Zle_Qle; lia).
    assert (E : (inject_Z (2 ^ 53) * 2 ^ (-54) == 1 # 2)%Q) by reflexivity.
    assert (E2 : (1 # 2 <= 1 - 2 ^ (-53))%Q)
      by (apply Qle_bool_iff; reflexivity).
    pose proof (pow2_pos (-54)) as P.
    set (a := inject_Z m) in *. set (p := (2 ^ e)%Q) in *.
    set (u := (2 ^ (-54))%Q) in *. set (T := inject_Z (2 ^ 53)) in *.
    set (w := (1 - 2 ^ (-53))%Q) in *.
    destruct (Qlt_le_dec a 0) as [Ha|Ha]; nra.
Qed.

(** The rounding shows: the double just below two thirds times 3 is 2, and
    the double nearest to six tenths times 5 is 3, where the exact products
    are below 2 and below 3. *)
Lemma random_index_rounds :
  random_index (6004799503160661 # 9007199254740992) 3 = 2
  /\ Qfloor ((6004799503160661 # 9007199254740992) * 3) = 1
  /\ random_index (5404319552844595 # 9007199254740992) 5 = 3
  /\ Qfloor ((5404319552844595 # 9007199254740992) * 5) = 2.
Proof. repeat split; vm_compute; reflexivity. Qed.

(** *** The index and the parts of [0, 1) *)

Lemma part_lower (z : Z) (k : nat) (r : Q) :
  (0 < k)%nat ->
  ((z # Pos.of_nat k <= r)%Q
   <-> (inject_Z z <= r * inject_Z (Z.of_nat k))%Q).
Proof.
  intros Hk.
  assert (Hpos : Z.pos (Pos.of_nat k) = Z.of_nat k).
  { rewrite <- positive_nat_Z, Nat2Pos.id by lia. reflexivity. }
  unfold Qle, Qmult, inject_Z; simpl.
  rewrite Hpos. destruct r as [n d]; simpl.
  rewrite Pos.mul_1_r. split; intros H; nia.
Qed.

Lemma part_upper (z : Z) (k : nat) (r : Q) :
  (0 < k)%nat ->
  ((r < z # Pos.of_nat k)%Q
   <-> (r * inject_Z (Z.of_nat k) < inject_Z z)%Q).
Proof.
  intros Hk.
  assert (Hpos : Z.pos (Pos.of_nat k) = Z.of_nat k).
  { rewrite <- positive_nat_Z, Nat2Pos.id by lia. reflexivity. }
  unfold Qlt, Qmult, inject_Z; simpl.
  rewrite Hpos. destruct r as [n d]; simpl.
  rewrite Pos.mul_1_r. split; intros H; nia.
Qed.

Lemma random_index_range (r : Q) (k : nat) :
  (0 < k)%nat -> (k <= 5)%nat -> double r -> (0 <= r)%Q -> (r < 1)%Q ->
  exists i, (i < k)%nat /\ random_index r k = Z.of_nat i.
Proof.
  intros Hk H5 Hd H0 H1.
  assert (Hle : (r <= 1)%Q) by lra.
  assert (Hlo : 0 <= random_index r k).
  { apply random_index_ge; try assumption.
    change (inject_Z 0) with 0%Q.
    apply (proj1 (product_range r k H0 Hle H5)). }
  pose proof (random_index_lt r k H0 Hle H5
                (double_below_one r Hd H1) Hk) as Hhi.
  exists (Z.to_nat (random_index r k)). split; lia.
Qed.

(** Well inside the [i]-th part the index is [i]. *)
Lemma random_index_well_inside (r : Q) (i k : nat) :
  (i < k)%nat -> (k <= 5)%nat -> well_inside_part i k r ->
  random_index r k = Z.of_nat i.
Proof.
  intros Hi H5 [[Hlo _] Hhi].
  assert (Hk : (0 < k)%nat) by lia.
  pose proof (pow2_pos (-51)) as P51.
  assert (Hk1 : (1 <= inject_Z (Z.of_nat k))%Q)
    by (change 1%Q with (inject_Z 1); rewrite <- Zle_Qle; lia).
  assert (Htop : (Z.of_nat (S i) # Pos.of_nat k <= 1)%Q).
  { assert (Hp : Z.pos (Pos.of_nat k) = Z.of_nat k)
      by (rewrite <- positive_nat_Z, Nat2Pos.id by lia; reflexivity).
    unfold Qle. cbn [Qnum Qden]. rewrite Hp. lia. }
  assert (Hbot : (0 <= Z.of_nat i # Pos.of_nat k)%Q)
    by (unfold Qle; cbn; lia).
  assert (H0 : (0 <= r)%Q) by lra.
  assert (H1 : (r <= 1)%Q) by lra.
  apply (part_lower _ k r Hk) in Hlo.
  assert (Hup : (r * inject_Z (Z.of_nat k)
                 < inject_Z (Z.of_nat (S i)) - 2 ^ (-51))%Q).
  { assert (Hr' : (r + 2 ^ (-51) < Z.of_nat (S i) # Pos.of_nat k)%Q) by lra.
    apply (part_upper _ k _ Hk) in Hr'.
    set (u := (2 ^ (-51))%Q) in *. set (c := inject_Z (Z.of_nat k)) in *.
    set (t := inject_Z (Z.of_nat (S i))) in *. nra. }
  pose proof (random_index_ge r k H0 H1 H5 _ Hlo).
  pose proof (random_index_lt_margin r k H0 H1 H5 _ Hup).
  lia.
Qed.

(** The index is [i] only in the [i]-th part and the [2^-51] before it. *)
Lemma random_index_near (r : Q) (i k : nat) :
  (0 < k)%nat -> (k <= 5)%nat -> (0 <= r)%Q -> (r <= 1)%Q ->
  random_index r k = Z.of_nat i -> near_part i k r.
Proof.
  intros Hk H5 H0 H1 Hidx.
  pose proof (pow2_pos (-51)) as P51.
  assert (Hk1 : (1 <= inject_Z (Z.of_nat k))%Q)
    by (change 1%Q with (inject_Z 1); rewrite <- Zle_Qle; lia).
  split.
  - apply Qnot_lt_le. intros Hlt.
    assert (Hr' : (r + 2 ^ (-51) < Z.of_nat i # Pos.of_nat k)%Q) by lra.
    apply (part_upper _ k _ Hk) in Hr'.
    assert (Hup : (r * inject_Z (Z.of_nat k)
                   < inject_Z (Z.of_nat i) - 2 ^ (-51))%Q).
    { set (u := (2 ^ (-51))%Q) in *. set (c := inject_Z (Z.of_nat k)) in *.
      set (t := inject_Z (Z.of_nat i)) in *. nra. }
    pose proof (random_index_lt_margin r k H0 H1 H5 _ Hup). lia.
  - apply Qnot_le_lt. intros Hge.
    apply (part_lower _ k r Hk) in Hge.
    pose proof (random_index_ge r k H0 H1 H5 _ Hge). lia.
Qed.

(** [selectMove] returns the element of the shortlist at the sampled
    index. *)
Lemma selectMove_at (d : Difficulty) (l : list ScoredMove) (r : Q) (i : nat)
    (chosen : ScoredMove) :
  random_index r (Nat.min (shortlist_size d) (List.length l)) = Z.of_nat i ->
  (i < Nat.min (shortlist_size d) (List.length l))%nat ->
  nth_error l i = Some chosen ->
  selectMove d l r = Return (move chosen).
Proof.
  intros Hi Hlt Hn. unfold selectMove.
  rewrite length_firstn, Hi.
  destruct (Z.of_nat i <? 0) eqn:E; [apply Z.ltb_lt in E; lia|].
  rewrite Nat2Z.id, nth_error_firstn.
  destruct (Nat.ltb_spec i (shortlist_size d)); [|lia].
  rewrite Hn. reflexivity.
Qed.

(** The function itself has no case for an empty array: reading [.move] of
    [undefined] throws.  Its one call, at line 239, is under the test
    [moves.length > 0]. *)
Lemma selectMove_empty (d : Difficulty) (r : Q) :
  selectMove d [] r = Throw TypeError.
Proof.
  unfold selectMove. rewrite firstn_nil. simpl List.length.
  destruct (random_index r 0 <? 0); [reflexivity|].
  destruct (Z.to_nat (random_index r 0)); reflexivity.
Qed.

Lemma shortlist_at_most_5 (d : Difficulty) (n : nat) :
  (Nat.min (shortlist_size d) n <= 5)%nat.
Proof. destruct d; unfold shortlist_size; lia. Qed.

Lemma selectMove_nonempty (d : Difficulty) (l : list ScoredMove) (r : Q) :
  l <> [] -> double r -> (0 <= r)%Q -> (r < 1)%Q ->
  exists chosen, In chosen l /\ selectMove d l r = Return (move chosen).
Proof.
  intros Hne Hd H0 H1.
  set (k := Nat.min (shortlist_size d) (List.length l)).
  assert (Hpos : (0 < k)%nat).
  { unfold k. destruct l; [congruence|]. destruct d; simpl; lia. }
  destruct (random_index_range r k Hpos (shortlist_at_most_5 d _) Hd H0 H1)
    as [i [Hi Hidx]].
  destruct (nth_error l i) as [chosen|] eqn:E.
  - exists chosen. split; [eapply nth_error_In; exact E|].
    apply selectMove_at with (i := i); assumption.
  - apply nth_error_None in E. unfold k in Hi. lia.
Qed.

(** ** The controller *)

Lemma makeAMove_cases
    (play : Position -> MoveInput -> option (Move * Position))
    (st : State) (mv : MoveInput) :
  (play (position (game st)) mv = None /\ makeAMove play st mv = (st, false))
  \/ (exists result after,
         play (position (game st)) mv = Some (result, after)
         /\ makeAMove play st mv
            = (handleMoveComplete st
                 (mkState (mkChess after [position (game st)])
                    (moveHistory st ++ [san result]) "" []
                    (isPlayingComputer st) (difficulty st)
                    (selectedTimeControl st) (timeLeft st)
                    (isTimerRunning st) (lastMoveTime st)), true)).
Proof.
  unfold makeAMove, Chess_move, new_Chess. cbn [position history].
  destruct (play (position (game st)) mv) as [[result after]|].
  - right. exists result, after. split; reflexivity.
  - left. split; reflexivity.
Qed.

Lemma handleMoveComplete_fields (st st' : State) :
  game (handleMoveComplete st st') = game st'
  /\ moveHistory (handleMoveComplete st st') = moveHistory st'
  /\ moveFrom (handleMoveComplete st st') = moveFrom st'
  /\ possibleMoves (handleMoveComplete st st') = possibleMoves st'
  /\ isPlayingComputer (handleMoveComplete st st') = isPlayingComputer st'
  /\ difficulty (handleMoveComplete st st') = difficulty st'
  /\ selectedTimeControl (handleMoveComplete st st')
     = selectedTimeControl st'.
Proof.
  unfold handleMoveComplete.
  destruct (negb (isTimerRunning st));
    [|destruct (0 <? increment (selectedTimeControl st))];
    repeat split.
Qed.

Section Controller.

Variable play : Position -> MoveInput -> option (Move * Position).

(** What the pass returns is the sorted array of the scores of the
    candidates, in the order of the candidates before the sort. *)
Lemma evaluateAllMoves_scored d h rnd (ms : list Move) (g : Chess)
    (evaluated : list ScoredMove) :
  fst (evaluateAllMoves play d h rnd ms g) = Return evaluated ->
  exists scored,
    evaluated = sort_by_score scored
    /\ List.length scored = List.length ms
    /\ forall i m,
         nth_error ms i = Some m ->
         exists sm,
           nth_error scored i = Some sm
           /\ score_candidate play d h (rnd i) m g = (Return sm, g).
Proof.
  intros H.
  set (cb := fun (i : nat) (m : Move) => score_candidate play d h (rnd i) m).
  assert (R : forall i a g0, snd (cb i a g0) = g0)
    by (intros; apply score_candidate_restores).
  unfold evaluateAllMoves, bind in H; fold cb in H.
  destruct (map_from cb 0 ms g) as [[scored|e] g1] eqn:E; [|discriminate].
  simpl in H. injection H as <-.
  destruct (map_from_results cb R ms 0%nat g scored) as [Hl Hn];
    [rewrite E; reflexivity|].
  exists scored. split; [reflexivity|]. split; [exact Hl|].
  intros i m Hi. destruct (Hn i m Hi) as [sm [H1 H2]].
  exists sm. split; [exact H1|exact H2].
Qed.

(** The scored moves are the candidates, each once. *)
Lemma evaluateAllMoves_moves d h rnd (ms : list Move) (g : Chess)
    (evaluated : list ScoredMove) :
  fst (evaluateAllMoves play d h rnd ms g) = Return evaluated ->
  Permutation (map move evaluated) ms.
Proof.
  intros H.
  destruct (evaluateAllMoves_scored d h rnd ms g evaluated H)
    as [scored [-> [Hl Hn]]].
  assert (Hmap : map move scored = ms).
  { apply nth_error_ext. intros i. rewrite nth_error_map.
    destruct (nth_error ms i) as [m|] eqn:Em.
    - destruct (Hn i m Em) as [sm [H1 H2]]. rewrite H1. simpl.
      f_equal. apply (score_candidate_move play d h (rnd i) m g).
      rewrite H2. reflexivity.
    - apply nth_error_None in Em.
      assert (nth_error scored i = None) as ->
          by (apply nth_error_None; lia).
      reflexivity. }
  rewrite <- Hmap. apply Permutation_map, Permutation_sym,
    sort_by_score_perm.
Qed.

(** C3.  The selector is the sort at the end of [evaluateAllMoves] and
    [selectMove].  When the scoring pass over candidates, of which there is
    one at least, returns an array, that array is the stable descending
    sort of the scored candidates: the same elements, no element before one
    with a higher score, equal scores in the order of the candidates.
    [selectMove] keeps the first 5 (Easy), 3 (Medium) or 2 (Hard) of it, or
    all when there are fewer, and for every random double in [0, 1) returns
    the move of the element at index [floor (r * k)] of these [k], the
    product rounded to a double; the element is a scored candidate and its
    move one of the candidates.  The index is
    [i] for every [r] in the [i]-th of the [k] equal parts of [0, 1) but
    the last [2^-51] of the part, where the product can round up to the
    next integer, and only for [r] in that part or the [2^-51] before
    it. *)
Theorem selector_spec :
  forall (d : Difficulty) (h : list string) (rnd : nat -> Q)
         (ms : list Move) (gameCopy : Chess) (evaluated : list ScoredMove),
    ms <> [] ->
    fst (evaluateAllMoves play d h rnd ms gameCopy) = Return evaluated ->
    exists scored : list ScoredMove,
      List.length scored = List.length ms
      /\ (forall i m,
             nth_error ms i = Some m ->
             exists sm,
               nth_error scored i = Some sm
               /\ score_candidate play d h (rnd i) m gameCopy
                  = (Return sm, gameCopy))
      /\ Permutation scored evaluated
      /\ StronglySorted descending evaluated
      /\ (forall v, filter (has_score v) evaluated
                    = filter (has_score v) scored)
      /\ let k := Nat.min (match d with Easy => 5 | Medium => 3 | Hard => 2 end)
                    (List.length scored) in
         (0 < k)%nat
         /\ (forall r, double r -> (0 <= r)%Q -> (r < 1)%Q ->
               exists i chosen,
                 (i < k)%nat
                 /\ Z.of_nat i
                    = Qfloor (round_double (r * inject_Z (Z.of_nat k)))
                 /\ near_part i k r
                 /\ nth_error evaluated i = Some chosen
                 /\ selectMove d evaluated r = Return (move chosen)
                 /\ In chosen scored
                 /\ In (move chosen) ms)
         /\ (forall i r, (i < k)%nat -> double r -> well_inside_part i k r ->
               exists chosen,
                 nth_error evaluated i = Some chosen
                 /\ selectMove d evaluated r = Return (move chosen)).
Proof.
  intros d h rnd ms g evaluated Hne Hret.
  pose proof (evaluateAllMoves_moves d h rnd ms g evaluated Hret) as Hms.
  destruct (evaluateAllMoves_scored d h rnd ms g evaluated Hret)
    as [scored [-> [Hlen Hnth]]].
  exists scored.
  split; [exact Hlen|]. split; [exact Hnth|].
  split; [apply sort_by_score_perm|].
  split; [apply sort_by_score_sorted|].
  split; [intros v; apply sort_by_score_stable|].
  set (sorted := sort_by_score scored) in *.
  intros k.
  assert (Hk : k = Nat.min (shortlist_size d) (List.length sorted)).
  { unfold k, sorted. rewrite sort_by_score_length. destruct d; reflexivity. }
  assert (Hk5 : (k <= 5)%nat) by (rewrite Hk; apply shortlist_at_most_5).
  assert (Hpos : (0 < k)%nat).
  { unfold k. rewrite Hlen. destruct ms; [congruence|].
    destruct d; simpl; lia. }
  assert (Hget : forall i, (i < k)%nat ->
                           exists chosen, nth_error sorted i = Some chosen).
  { intros i Hi. destruct (nth_error sorted i) eqn:E; [eauto|].
    apply nth_error_None in E. lia. }
  split; [exact Hpos|]. split.
  - intros r Hd H0 H1.
    destruct (random_index_range r k Hpos Hk5 Hd H0 H1) as [i [Hi Hidx]].
    destruct (Hget i Hi) as [chosen Hc].
    exists i, chosen. split; [exact Hi|].
    split; [symmetry; exact Hidx|].
    split; [apply random_index_near; try assumption; lra|].
    split; [exact Hc|]. split; [|split].
    + pose proof (selectMove_at d sorted r i chosen) as Hs.
      rewrite <- Hk in Hs. apply Hs; assumption.
    + eapply Permutation_in;
        [apply Permutation_sym, sort_by_score_perm|].
      eapply nth_error_In; exact Hc.
    + eapply Permutation_in; [exact Hms|].
      apply in_map. eapply nth_error_In; exact Hc.
  - intros i r Hi Hd Hpart. destruct (Hget i Hi) as [chosen Hc].
    exists chosen. split; [exact Hc|].
    pose proof (selectMove_at d sorted r i chosen) as Hs.
    rewrite <- Hk in Hs. apply Hs; try assumption.
    apply random_index_well_inside; assumption.
Qed.

(** C4.  With no candidate the selection ends without a move and without
    an error: the controller, which holds the one call of [selectMove]
    under the test [moves.length > 0], sets no timer, makes no move and
    throws nothing.  That happens only then: when there is a legal move,
    and the engine accepts its own candidates and the request for each of
    them with promotion to a queen, the controller sets the timer of the
    level for one of the legal moves, and the move the timer makes is
    accepted, shown on the board and added to the list of moves. *)
Theorem no_move_only_without_candidates :
  forall (st : State) (rnd : nat -> Q),
    (forall n, double (rnd n) /\ (0 <= rnd n)%Q /\ (rnd n < 1)%Q) ->
    (forall m, In m (moves (game st)) ->
               play (position (game st)) (input_of_move m) <> None
               /\ play (position (game st))
                    (mkMoveInput (from m) (to m) (Some Queen)) <> None) ->
    (moves (game st) = [] ->
     makeComputerMoveWithTimer play st rnd = (start_clock st, Return None))
    /\ (snd (makeComputerMoveWithTimer play st rnd) = Return None ->
        moves (game st) = [])
    /\ (moves (game st) <> [] ->
        exists m result after,
          let request := mkMoveInput (from m) (to m) (Some Queen) in
          In m (moves (game st))
          /\ makeComputerMoveWithTimer play st rnd
             = (start_clock st,
                Return (Some (mkPending request
                                (THINKING_TIME (difficulty st)))))
          /\ play (position (game st)) request = Some (result, after)
          /\ snd (makeAMove play st request) = true
          /\ game (fst (makeAMove play st request))
             = mkChess after [position (game st)]
          /\ moveHistory (fst (makeAMove play st request))
             = (moveHistory st ++ [san result])%list).
Proof.
  intros st rnd Hrnd Hacc.
  assert (Hmove : moves (game st) <> [] ->
            exists m,
              In m (moves (game st))
              /\ makeComputerMoveWithTimer play st rnd
                 = (start_clock st,
                    Return (Some (mkPending
                                    (mkMoveInput (from m) (to m) (Some Queen))
                                    (THINKING_TIME (difficulty st)))))).
  { intros Hne. unfold makeComputerMoveWithTimer.
    destruct (moves (game st)) as [|m0 ms] eqn:Em; [congruence|].
    rewrite <- Em in *.
    replace (0 <? List.length (moves (game st)))%nat with true
      by (rewrite Em; reflexivity).
    destruct (evaluateAllMoves_returns play (difficulty st) (moveHistory st)
                rnd (moves (game st)) (new_Chess (position (game st))))
      as [evaluated He].
    { intros m Hm. apply (Hacc m Hm). }
    pose proof (evaluateAllMoves_moves (difficulty st) (moveHistory st) rnd
                  (moves (game st)) (new_Chess (position (game st)))
                  evaluated He) as Hperm.
    destruct (evaluateAllMoves play (difficulty st) (moveHistory st) rnd
                (moves (game st)) (new_Chess (position (game st))))
      as [c g1]. simpl in He. subst c.
    assert (Hne' : evaluated <> []).
    { intros ->. apply Permutation_length in Hperm. rewrite Em in Hperm.
      discriminate. }
    destruct (Hrnd (List.length (moves (game st)))) as [Hd [H0 H1]].
    destruct (selectMove_nonempty (difficulty st) evaluated _ Hne' Hd H0 H1)
      as [chosen [Hin Hsel]].
    rewrite Hsel. exists (move chosen). split; [|reflexivity].
    eapply Permutation_in; [exact Hperm|]. apply in_map, Hin. }
  split.
  { intros H. unfold makeComputerMoveWithTimer. rewrite H. reflexivity. }
  split.
  { intros Hnone.
    destruct (moves (game st)) as [|m0 ms] eqn:Em; [reflexivity|].
    destruct Hmove as [m [_ Hrun]]; [discriminate|].
    rewrite Hrun in Hnone. discriminate Hnone. }
  intros Hne. destruct (Hmove Hne) as [m [Hin Hrun]].
  destruct (makeAMove_cases play st
              (mkMoveInput (from m) (to m) (Some Queen)))
    as [[Hrefused _]|[result [after [Hplay Hmade]]]].
  { destruct (Hacc m Hin) as [_ Hq]. congruence. }
  exists m, result, after. cbv zeta.
  split; [exact Hin|]. split; [exact Hrun|]. split; [exact Hplay|].
  rewrite Hmade. cbn [fst snd].
  match goal with
  | |- context [handleMoveComplete st ?s] =>
      destruct (handleMoveComplete_fields st s) as [Hg [Hh _]]
  end.
  rewrite Hg, Hh. repeat split.
Qed.

End Controller.

(** ** The text of a FEN *)

Lemma chars_app (a b : string) : chars (a ++ b) = (chars a ++ chars b)%list.
Proof.
  induction a as [|c a IH]; simpl; [reflexivity|].
  unfold chars in *. simpl. rewrite IH. reflexivity.
Qed.

Lemma chars_String (c : ascii) (s : string) : chars (String c s) = c :: chars s.
Proof. reflexivity. Qed.

Lemma all_chars_app P (a b : string) :
  all_chars P (a ++ b) = all_chars P a && all_chars P b.
Proof. unfold all_chars. rewrite chars_app. apply forallb_app. Qed.

Lemma all_chars_weaken (P Q : ascii -> bool) (s : string) :
  (forall c, P c = true -> Q c = true) ->
  all_chars P s = true -> all_chars Q s = true.
Proof.
  unfold all_chars. intros HPQ H. rewrite forallb_forall in *.
  intros c Hc. apply HPQ, H, Hc.
Qed.

Lemma string_of_uint_digits (d : Decimal.uint) :
  all_chars is_digit (NilEmpty.string_of_uint d) = true.
Proof. induction d; simpl; try reflexivity; exact IHd. Qed.

Lemma of_nat_digits (n : nat) : all_chars is_digit (Js.of_nat n) = true.
Proof. apply string_of_uint_digits. Qed.

Lemma digit_placement_char c : is_digit c = true -> placement_char c = true.
Proof.
  unfold is_digit, placement_char. rewrite !existsb_exists.
  intros [x [Hx E]]. exists x. split; [|exact E].
  simpl in Hx. simpl. intuition.
Qed.

Lemma placement_fen_char c : placement_char c = true -> fen_char c = true.
Proof.
  unfold fen_char, placement_char. rewrite !existsb_exists.
  intros [x [Hx E]]. exists x. split; [|exact E].
  simpl in Hx. simpl. intuition.
Qed.

Lemma piece_letter_placement (p : Piece) :
  placement_char (piece_letter p) = true.
Proof. destruct p as [[] []]; reflexivity. Qed.

Lemma flush_empty_digits (e : nat) : all_chars is_digit (flush_empty e) = true.
Proof. destruct e; [reflexivity|apply of_nat_digits]. Qed.

Lemma fen_row_chars (row : list (option Piece)) :
  forall e, all_chars placement_char (fen_row e row) = true.
Proof.
  induction row as [|[p|] row IH]; intros e; simpl.
  - eapply all_chars_weaken; [apply digit_placement_char|].
    apply flush_empty_digits.
  - rewrite all_chars_app. apply andb_true_intro. split.
    + eapply all_chars_weaken; [apply digit_placement_char|].
      apply flush_empty_digits.
    + unfold all_chars. rewrite chars_String. simpl.
      rewrite piece_letter_placement. apply IH.
  - apply IH.
Qed.

Lemma fen_placement_chars (b : Board) :
  all_chars placement_char (fen_placement b) = true.
Proof.
  induction b as [|row b IH]; [reflexivity|].
  destruct b as [|row' b'].
  - apply fen_row_chars.
  - change (fen_placement (row :: row' :: b'))
      with (fen_row 0 row ++ "/" ++ fen_placement (row' :: b')).
    rewrite !all_chars_app, fen_row_chars, IH. reflexivity.
Qed.

Lemma algebraic_chars (sq : nat * nat) :
  all_chars fen_char (algebraic sq) = true.
Proof.
  destruct sq as [f r]. unfold algebraic. simpl fst; simpl snd.
  rewrite all_chars_app. apply andb_true_intro. split.
  - do 8 (destruct f as [|f]; [reflexivity|]). destruct f; reflexivity.
  - eapply all_chars_weaken; [|apply of_nat_digits].
    intros c H. apply placement_fen_char, digit_placement_char, H.
Qed.

Lemma fen_of_chars (p : Position) : all_chars fen_char (fen_of p) = true.
Proof.
  unfold fen_of. rewrite !all_chars_app.
  repeat (apply andb_true_intro; split); try reflexivity.
  - eapply all_chars_weaken; [apply placement_fen_char|].
    apply fen_placement_chars.
  - destruct (p_turn p); reflexivity.
  - destruct (p_castling p) as [[] [] [] []]; reflexivity.
  - destruct (p_epSquare p); [apply algebraic_chars|reflexivity].
  - eapply all_chars_weaken; [|apply of_nat_digits].
    intros c H. apply placement_fen_char, digit_placement_char, H.
  - eapply all_chars_weaken; [|apply of_nat_digits].
    intros c H. apply placement_fen_char, digit_placement_char, H.
Qed.

(** A text that includes another has all the characters of it. *)
Lemma prefix_chars (n s : string) :
  String.prefix n s = true -> forall c, In c (chars n) -> In c (chars s).
Proof.
  revert s. induction n as [|a n IH]; intros s H c Hc; [destruct Hc|].
  destruct s as [|b s]; [discriminate|]. simpl in H.
  destruct (ascii_dec a b) as [->|]; [|discriminate].
  rewrite chars_String in *. destruct Hc as [<-|Hc]; [left; reflexivity|].
  right. apply (IH s H c Hc).
Qed.

Lemma includes_chars (s n : string) :
  includes s n = true -> forall c, In c (chars n) -> In c (chars s).
Proof.
  induction s as [|b s IH]; intros H c Hc.
  - cbn [includes] in H.
    destruct (String.prefix n "") eqn:E; [|discriminate].
    apply (prefix_chars n "" E c Hc).
  - cbn [includes] in H.
    destruct (String.prefix n (String b s)) eqn:E.
    + apply (prefix_chars n _ E c Hc).
    + rewrite chars_String. right. apply (IH H c Hc).
Qed.

Lemma includes_foreign_char (P : ascii -> bool) (s n : string) (c : ascii) :
  all_chars P s = true -> In c (chars n) -> P c = false ->
  includes s n = false.
Proof.
  intros Hs Hc Hp. destruct (includes s n) eqn:E; [|reflexivity].
  pose proof (includes_chars s n E c Hc) as Hin.
  unfold all_chars in Hs. rewrite forallb_forall in Hs.
  rewrite (Hs c Hin) in Hp. discriminate.
Qed.

(** ** Counting letters in a FEN *)

Lemma match_class_gi_app (cs : list ascii) (a b : string) :
  match_class_gi cs (a ++ b)
  = (match_class_gi cs a + match_class_gi cs b)%nat.
Proof.
  unfold match_class_gi. rewrite chars_app, filter_app, length_app.
  reflexivity.
Qed.

Lemma match_class_gi_none (P : ascii -> bool) (cs : list ascii) (s : string) :
  all_chars P s = true ->
  (forall c, P c = true -> ci_member cs c = false) ->
  match_class_gi cs s = 0%nat.
Proof.
  unfold match_class_gi, all_chars. intros Hs HP.
  rewrite forallb_forall in Hs.
  induction (chars s) as [|c l IH]; [reflexivity|]. simpl.
  change (existsb (Ascii.eqb (to_lower c)) cs) with (ci_member cs c).
  rewrite (HP c (Hs c (or_introl eq_refl))).
  apply IH. intros x Hx. apply Hs. right. exact Hx.
Qed.

Ltac digit_cases H :=
  unfold is_digit in H; apply existsb_exists in H;
  destruct H as [? [H ?E]]; apply Ascii.eqb_eq in E; subst;
  simpl in H;
  repeat (destruct H as [<-|H]; [reflexivity|]); contradiction.

Lemma digit_not_queen c : is_digit c = true -> ci_member ["q"%char] c = false.
Proof. intros H. digit_cases H. Qed.

Lemma digit_not_rnb c :
  is_digit c = true -> ci_member ["r"; "n"; "b"]%char c = false.
Proof. intros H. digit_cases H. Qed.

Section LetterCount.

(** A class of letters: no digit and no slash. *)
Variable cs : list ascii.
Hypothesis no_digit : forall c, is_digit c = true -> ci_member cs c = false.
Hypothesis no_slash : ci_member cs "/" = false.

Lemma flush_empty_count (e : nat) : match_class_gi cs (flush_empty e) = 0%nat.
Proof.
  eapply match_class_gi_none; [apply flush_empty_digits|exact no_digit].
Qed.

Lemma fen_row_count (row : list (option Piece)) :
  forall e,
    match_class_gi cs (fen_row e row)
    = List.length
        (filter (fun p => ci_member cs (piece_letter p)) (row_pieces row)).
Proof.
  induction row as [|[p|] row IH]; intros e; simpl.
  - apply flush_empty_count.
  - rewrite match_class_gi_app, flush_empty_count. simpl.
    unfold match_class_gi at 1. rewrite chars_String. simpl.
    change (existsb (Ascii.eqb (to_lower (piece_letter p))) cs)
      with (ci_member cs (piece_letter p)).
    specialize (IH 0%nat). unfold match_class_gi in IH.
    destruct (ci_member cs (piece_letter p)); simpl; rewrite IH;
      reflexivity.
  - apply IH.
Qed.

Lemma fen_placement_count (b : Board) :
  match_class_gi cs (fen_placement b)
  = List.length
      (filter (fun p => ci_member cs (piece_letter p)) (pieces_on b)).
Proof.
  induction b as [|row b IH]; [reflexivity|].
  unfold pieces_on in *. simpl flat_map.
  rewrite filter_app, length_app, <- IH, <- (fen_row_count row 0).
  destruct b as [|row' b'].
  - simpl. rewrite Nat.add_0_r. reflexivity.
  - change (fen_placement (row :: row' :: b'))
      with (fen_row 0 row ++ "/" ++ fen_placement (row' :: b')).
    rewrite !match_class_gi_app. f_equal.
    unfold match_class_gi at 1. simpl.
    change (existsb (Ascii.eqb (to_lower "/")) cs)
      with (ci_member cs "/"). rewrite no_slash. reflexivity.
Qed.

Lemma of_nat_count (n : nat) : match_class_gi cs (Js.of_nat n) = 0%nat.
Proof.
  eapply match_class_gi_none; [apply of_nat_digits|exact no_digit].
Qed.

End LetterCount.

Lemma count_queens_in_placement (b : Board) :
  match_class_gi ["q"%char] (fen_placement b) = count_on_board [Queen] b.
Proof.
  rewrite fen_placement_count; [|apply digit_not_queen|reflexivity].
  unfold count_on_board. f_equal. apply filter_ext.
  intros [[] []]; reflexivity.
Qed.

Lemma count_rnb_in_placement (b : Board) :
  match_class_gi ["r"; "n"; "b"]%char (fen_placement b)
  = count_on_board [Rook; Knight; Bishop] b.
Proof.
  rewrite fen_placement_count; [|apply digit_not_rnb|reflexivity].
  unfold count_on_board. f_equal. apply filter_ext.
  intros [[] []]; reflexivity.
Qed.

Lemma count_queens_in_fen (p : Position) :
  match_class_gi ["q"%char] (fen_of p) = queens_in_fen p.
Proof.
  unfold fen_of, queens_in_fen. rewrite !match_class_gi_app.
  rewrite count_queens_in_placement.
  rewrite !(of_nat_count ["q"%char] digit_not_queen).
  assert (Hep : match_class_gi ["q"%char] (fen_epSquare (p_epSquare p)) = 0%nat).
  { destruct (p_epSquare p) as [[f r]|]; [|reflexivity].
    unfold fen_epSquare, algebraic. rewrite match_class_gi_app.
    rewrite (of_nat_count ["q"%char] digit_not_queen). simpl fst.
    do 8 (destruct f as [|f]; [reflexivity|]). destruct f; reflexivity. }
  rewrite Hep.
  destruct (p_turn p); destruct (p_castling p) as [[] [] [] []]; simpl;
    lia.
Qed.

Lemma count_rnb_in_fen (p : Position) :
  match_class_gi ["r"; "n"; "b"]%char (fen_of p) = pieces_in_fen p.
Proof.
  unfold fen_of, pieces_in_fen. rewrite !match_class_gi_app.
  rewrite count_rnb_in_placement.
  rewrite !(of_nat_count ["r"; "n"; "b"]%char digit_not_rnb).
  assert (Hep : match_class_gi ["r"; "n"; "b"]%char
                  (fen_epSquare (p_epSquare p))
                = match p_epSquare p with Some (1, _) => 1 | _ => 0 end%nat).
  { destruct (p_epSquare p) as [[f r]|]; [|reflexivity].
    unfold fen_epSquare, algebraic. rewrite match_class_gi_app.
    rewrite (of_nat_count ["r"; "n"; "b"]%char digit_not_rnb). simpl fst.
    do 8 (destruct f as [|f]; [reflexivity|]). destruct f; reflexivity. }
  rewrite Hep.
  destruct (p_turn p); destruct (p_castling p) as [[] [] [] []]; simpl;
    lia.
Qed.

(** C5.  [isInEndgame] counts letters in the whole FEN text, so a queenside
    castling right counts as a queen, and a [b] for the side to move or for
    the file of the en passant square counts as a piece.  What it answers is
    the test of the claim on those counts.  When it answers [true] the board
    has no queen or at most six rooks, knights and bishops; the converse
    fails: after the queens are traded with the castling rights intact, no
    queen is on the board and the answer is [false]. *)
Theorem isInEndgame_counts_fen_text :
  (forall g : Chess,
      isInEndgame g
      = (queens_in_fen (position g) =? 0)%nat
        || (pieces_in_fen (position g) <=? 6)%nat)
  /\ (forall g : Chess,
         isInEndgame g = true -> endgame_by_material (board g) = true)
  /\ count_on_board [Queen] (p_board queens_traded) = 0%nat
  /\ endgame_by_material (p_board queens_traded) = true
  /\ queens_in_fen queens_traded = 2%nat
  /\ pieces_in_fen queens_traded = 12%nat
  /\ isInEndgame (new_Chess queens_traded) = false.
Proof.
  assert (H : forall g : Chess,
             isInEndgame g
             = (queens_in_fen (position g) =? 0)%nat
               || (pieces_in_fen (position g) <=? 6)%nat).
  { intros g. unfold isInEndgame, fen.
    rewrite count_queens_in_fen, count_rnb_in_fen. reflexivity. }
  split; [exact H|]. split.
  - intros g Hg. rewrite H in Hg. unfold endgame_by_material, board.
    unfold queens_in_fen, pieces_in_fen in Hg.
    apply orb_true_iff in Hg. apply orb_true_iff.
    destruct Hg as [Hq|Hp].
    + left. apply Nat.eqb_eq in Hq. apply Nat.eqb_eq. lia.
    + right. apply Nat.leb_le in Hp. apply Nat.leb_le. lia.
  - repeat split; reflexivity.
Qed.

(** ** King safety *)

Lemma fen_has_no_castling_pattern (g : Chess) :
  includes (fen g) "k.*?r" = false /\ includes (fen g) "r.*?k" = false.
Proof.
  split.
  - apply includes_foreign_char with (P := fen_char) (c := "."%char);
      [apply fen_of_chars|simpl; tauto|reflexivity].
  - apply includes_foreign_char with (P := fen_char) (c := "."%char);
      [apply fen_of_chars|simpl; tauto|reflexivity].
Qed.

(** The reward for castling is never added. *)
Lemma evaluateKingSafety_eq (g : Chess) (isEndgame : bool) :
  evaluateKingSafety g isEndgame
  = if isEndgame then 0 else - (countAttacksNearKing g * 10).
Proof.
  unfold evaluateKingSafety.
  destruct (fen_has_no_castling_pattern g) as [-> ->].
  destruct isEndgame; simpl; [reflexivity|lia].
Qed.

(** C6.  No FEN contains the text [k.*?r] or [r.*?k], so the reward for
    having castled is never added: outside the endgame the term is the
    penalty alone, ten times the number of legal moves that end next to the
    black king, and in the endgame it is zero.  In the position after
    1. e4 e5 2. Nf3 Nf6 3. Nc3 Bc5 4. Bc4 O-O, where Black has castled (king
    on g8, rook on f8) and which is not an endgame, the term is -10: one
    move, Bxf7+, ends next to the king. *)
Theorem king_safety_never_rewards_castling :
  (forall (g : Chess) (isEndgame : bool),
      evaluateKingSafety g isEndgame
      = if isEndgame then 0 else - (countAttacksNearKing g * 10))
  /\ cell (p_board castled) 0 6 = Some (mkPiece King Black)
  /\ cell (p_board castled) 0 5 = Some (mkPiece Rook Black)
  /\ isInEndgame (new_Chess castled) = false
  /\ countAttacksNearKing (new_Chess castled) = 1
  /\ evaluateKingSafety (new_Chess castled) (isInEndgame (new_Chess castled))
     = -10.
Proof.
  split; [exact evaluateKingSafety_eq|].
  repeat split; reflexivity.
Qed.

(** ** Pawn structure *)

Lemma split_space_0_field (P : ascii -> bool) (s rest : string) :
  all_chars P s = true -> P " "%char = false ->
  split_space_0 (s ++ String " " rest) = s.
Proof.
  unfold all_chars. intros Hs Hsp.
  induction s as [|c s IH]; [reflexivity|].
  rewrite chars_String in Hs. simpl in Hs.
  apply andb_true_iff in Hs. destruct Hs as [Hc Hs]. simpl.
  destruct (Ascii.eqb_spec c " ") as [->|_]; [congruence|].
  rewrite (IH Hs). reflexivity.
Qed.

Lemma fen_first_field (g : Chess) :
  split_space_0 (fen g) = fen_placement (board g).
Proof.
  unfold fen, fen_of, board.
  apply split_space_0_field with (P := placement_char);
    [apply fen_placement_chars|reflexivity].
Qed.

Lemma match_file_absent (file : ascii) :
  forall fuel l,
    (forall x, In x l -> x <> file) ->
    match_file_rank_p fuel file l = 0%nat.
Proof.
  induction fuel as [|fuel IH]; intros l Hl; [reflexivity|].
  destruct l as [|c [|d l'']]; try reflexivity.
  cbn [match_file_rank_p].
  destruct (Ascii.eqb_spec c file) as [->|_].
  - exfalso. apply (Hl file); [left; reflexivity|reflexivity].
  - simpl. apply IH. intros x Hx. apply Hl. right. exact Hx.
Qed.

Lemma no_match_outside_placement (file : ascii) (s : string) :
  all_chars placement_char s = true -> placement_char file = false ->
  match_file_rank_p_g file s = 0%nat.
Proof.
  unfold all_chars, match_file_rank_p_g. intros Hs Hf.
  apply match_file_absent. intros x Hx ->.
  rewrite forallb_forall in Hs. rewrite (Hs file Hx) in Hf. discriminate.
Qed.

Lemma fold_left_ext_in {A B : Type} (f f' : A -> B -> A) (l : list B) :
  (forall a x, In x l -> f a x = f' a x) ->
  forall a, fold_left f l a = fold_left f' l a.
Proof.
  induction l as [|x l IH]; intros H a; [reflexivity|].
  cbn [fold_left]. rewrite (H a x (or_introl eq_refl)).
  apply IH. intros a' x' Hx'. apply H. right. exact Hx'.
Qed.

(** The Medium version of the term reads no pawn file: all it depends on is
    whether the text of the board has, twice, a [b] followed by a digit and
    later a [p]. *)
Lemma evaluatePawnStructure_eq (g : Chess) :
  evaluatePawnStructure g
  = if (1 <? match_file_rank_p_g "b" (fen_placement (board g)))%nat
    then -20 else 0.
Proof.
  unfold evaluatePawnStructure. rewrite fen_first_field.
  generalize (fen_placement_chars (board g)).
  generalize (fen_placement (board g)). intros pl Hpl.
  rewrite fold_left_ext_in
    with (f' := fun score file =>
                  if (1 <? match_file_rank_p_g (first_char file) pl)%nat
                  then score - 20 else score).
  - unfold files. cbn [fold_left first_char].
    rewrite (no_match_outside_placement "a" pl Hpl eq_refl),
      (no_match_outside_placement "c" pl Hpl eq_refl),
      (no_match_outside_placement "d" pl Hpl eq_refl),
      (no_match_outside_placement "e" pl Hpl eq_refl),
      (no_match_outside_placement "f" pl Hpl eq_refl),
      (no_match_outside_placement "g" pl Hpl eq_refl),
      (no_match_outside_placement "h" pl Hpl eq_refl).
    cbn [Nat.ltb Nat.leb].
    destruct (1 <? match_file_rank_p_g "b" pl)%nat; reflexivity.
  - intros score file Hfile. cbv zeta.
    assert (Hinc : includes pl (file ++ "[1-8].*?p") = false).
    { apply includes_foreign_char with (P := placement_char) (c := "["%char);
        [exact Hpl| |reflexivity].
      unfold files in Hfile. cbn [In] in Hfile.
      repeat (destruct Hfile as [<-|Hfile]; [cbn; tauto|]). contradiction. }
    rewrite Hinc. reflexivity.
Qed.

(** C7.  The Medium version of the term never looks at the files of the
    pawns (it is 0 or -20 by the text of the board), and its penalty for
    isolated pawns is never applied.  With two black pawns on the e-file and
    no other pawn on the board, it is 0: neither the doubled pawns nor the
    isolated ones are penalised.  The Hard version is -55 there: 30 off for
    the doubled pawns, 25 off for the isolated file, and no bonus although
    no white pawn is left, because the black pawn on e7 stands in the rows
    the code scans for the pawn on e6. *)
Theorem pawn_structure_misses_pawns :
  (forall g : Chess,
      evaluatePawnStructure g
      = if (1 <? match_file_rank_p_g "b" (fen_placement (board g)))%nat
        then -20 else 0)
  /\ cell (p_board doubled_pawns) 1 4 = Some (mkPiece Pawn Black)
  /\ cell (p_board doubled_pawns) 2 4 = Some (mkPiece Pawn Black)
  /\ count_on_board [Pawn] (p_board doubled_pawns) = 2%nat
  /\ evaluatePawnStructure (new_Chess doubled_pawns) = 0
  /\ evaluateAdvancedPawnStructure (new_Chess doubled_pawns) = -55.
Proof.
  split; [exact evaluatePawnStructure_eq|].
  repeat split; reflexivity.
Qed.

(** ** The scores of the levels *)




(** ** A mating move against the other candidates *)

Lemma table_in_range (table : list Z) :
  forallb in_table_range table = true ->
  forall i, -50 <= at_index table i <= 50.
Proof.
  intros H i. unfold at_index.
  destruct (nth_in_or_default i table 0) as [Hin| ->]; [|lia].
  rewrite forallb_forall in H. specialize (H _ Hin).
  unfold in_table_range in H. apply andb_true_iff in H.
  destruct H as [H1 H2]. apply Z.leb_le in H1, H2. lia.
Qed.

Lemma square_score_bound (e : bool) (p : Piece) (sq : nat) :
  -50 <= square_score e p sq <= 50.
Proof.
  unfold square_score.
  pose proof (table_in_range PAWN_POSITION_SCORES eq_refl) as HP.
  pose proof (table_in_range KNIGHT_POSITION_SCORES eq_refl) as HN.
  pose proof (table_in_range BISHOP_POSITION_SCORES eq_refl) as HB.
  pose proof (table_in_range ROOK_POSITION_SCORES eq_refl) as HR.
  pose proof (table_in_range QUEEN_POSITION_SCORES eq_refl) as HQ.
  pose proof (table_in_range KING_MIDDLEGAME_SCORES eq_refl) as HM.
  pose proof (table_in_range KING_ENDGAME_SCORES eq_refl) as HE.
  destruct (type p); destruct (Color_eqb (color p) Black); try destruct e;
    match goal with
    | |- _ <= at_index ?t ?i <= _ =>
        pose proof (table_in_range t eq_refl i); lia
    | |- _ <= - at_index ?t ?i <= _ =>
        pose proof (table_in_range t eq_refl i); lia
    end.
Qed.

Lemma contribution_bound (e : bool) (b : Board) (sq : nat * nat) :
  -50 <= contribution e b sq <= 50.
Proof.
  unfold contribution. destruct (cell b (fst sq) (snd sq)).
  - apply square_score_bound.
  - lia.
Qed.

Lemma for_squares_unfold {A : Type} (body : nat -> nat -> A -> A) (init : A) :
  for_squares body init
  = fold_left (fun acc sq => body (fst sq) (snd sq) acc) all_squares init.
Proof. reflexivity. Qed.

Lemma fold_left_ext {A B : Type} (f f' : A -> B -> A) (l : list B) :
  (forall a x, f a x = f' a x) ->
  forall a, fold_left f l a = fold_left f' l a.
Proof. intros H. apply fold_left_ext_in. intros a x _. apply H. Qed.

Lemma evaluatePosition_sum (g : Chess) :
  evaluatePosition g
  = fold_left
      (fun acc sq => acc + contribution (isInEndgame g) (board g) sq)
      all_squares 0.
Proof.
  unfold evaluatePosition. rewrite for_squares_unfold.
  apply fold_left_ext. intros acc sq. unfold contribution.
  destruct (cell (board g) (fst sq) (snd sq)); lia.
Qed.

Lemma evaluateAdvancedPosition_sum (g : Chess) (e : option bool) :
  evaluateAdvancedPosition g e
  = fold_left
      (fun acc sq => acc + contribution (truthy e) (board g) sq)
      all_squares 0.
Proof.
  unfold evaluateAdvancedPosition. rewrite for_squares_unfold.
  apply fold_left_ext. intros acc sq. unfold contribution.
  destruct (cell (board g) (fst sq) (snd sq)); lia.
Qed.

(** Two sums over the same squares differ by at most 100 for each square
    on which the summands differ. *)
Lemma sum_difference_bound {T : Type} (f f' : T -> Z) (D : T -> bool)
    (l : list T) :
  (forall s, f s - f' s <= if D s then 100 else 0) ->
  forall a a',
    fold_left (fun acc s => acc + f s) l a
    - fold_left (fun acc s => acc + f' s) l a'
    <= a - a' + 100 * Z.of_nat (List.length (filter D l)).
Proof.
  intros H. induction l as [|s l IH]; intros a a'; [simpl; lia|].
  cbn [fold_left filter].
  specialize (IH (a + f s) (a' + f' s)). specialize (H s).
  destruct (D s); cbn [List.length]; lia.
Qed.

Lemma filter_length_union {T : Type} (D A B : T -> bool) (l : list T) :
  (forall s, D s = true -> A s = true \/ B s = true) ->
  (List.length (filter D l)
   <= List.length (filter A l) + List.length (filter B l))%nat.
Proof.
  intros H. induction l as [|s l IH]; [simpl; lia|].
  cbn [filter]. specialize (H s).
  destruct (D s), (A s), (B s); cbn [List.length]; lia.
Qed.

Lemma PieceSymbol_eqb_eq (a b : PieceSymbol) :
  PieceSymbol_eqb a b = true -> a = b.
Proof. destruct a, b; simpl; congruence. Qed.

Lemma Color_eqb_eq (a b : Color) : Color_eqb a b = true -> a = b.
Proof. destruct a, b; simpl; congruence. Qed.

Lemma cell_eqb_eq (x y : option Piece) : cell_eqb x y = true -> x = y.
Proof.
  destruct x as [[t c]|], y as [[t' c']|]; simpl; try congruence.
  intros H. apply andb_true_iff in H. destruct H as [H1 H2].
  apply PieceSymbol_eqb_eq in H1. apply Color_eqb_eq in H2. congruence.
Qed.

Lemma cell_eqb_refl (x : option Piece) : cell_eqb x x = true.
Proof. destruct x as [[[] []]|]; reflexivity. Qed.

(** The boards after two moves from one position differ where one of the
    moves changed the board. *)
Lemma differs_after (b b1 b2 : Board) (sq : nat * nat) :
  differs b1 b2 sq = true ->
  differs b b1 sq = true \/ differs b b2 sq = true.
Proof.
  unfold differs. intros H.
  destruct (cell_eqb (cell b (fst sq) (snd sq)) (cell b1 (fst sq) (snd sq)))
    eqn:E1; [|left; reflexivity].
  destruct (cell_eqb (cell b (fst sq) (snd sq)) (cell b2 (fst sq) (snd sq)))
    eqn:E2; [|right; reflexivity].
  apply cell_eqb_eq in E1, E2. rewrite <- E1, <- E2, cell_eqb_refl in H.
  discriminate.
Qed.

Lemma contribution_difference (e1 e2 : bool) (b1 b2 : Board)
    (sq : nat * nat) :
  contribution e1 b1 sq - contribution e2 b2 sq
  <= if differs b1 b2 sq || (negb (Bool.eqb e1 e2) && holds_king b1 sq)
     then 100 else 0.
Proof.
  pose proof (contribution_bound e1 b1 sq).
  pose proof (contribution_bound e2 b2 sq).
  unfold differs.
  destruct (cell_eqb (cell b1 (fst sq) (snd sq)) (cell b2 (fst sq) (snd sq)))
    eqn:E; simpl; [|lia].
  apply cell_eqb_eq in E.
  destruct (Bool.eqb e1 e2) eqn:Ee; simpl.
  - apply Bool.eqb_prop in Ee. subst e2.
    unfold contribution. rewrite E. lia.
  - destruct (holds_king b1 sq) eqn:Ek; [lia|].
    unfold contribution, holds_king in *. rewrite <- E.
    destruct (cell b1 (fst sq) (snd sq)) as [p|]; [|lia].
    unfold square_score. destruct (type p); try lia. discriminate.
Qed.

(** The piece-square sums of the positions after two moves from the same
    position: at most 100 apart for each changed square and each king. *)
Lemma piece_square_difference (e1 e2 : bool) (b b1 b2 : Board) :
  fold_left (fun acc sq => acc + contribution e1 b1 sq) all_squares 0
  - fold_left (fun acc sq => acc + contribution e2 b2 sq) all_squares 0
  <= 100 * Z.of_nat (squares_changed b b1 + squares_changed b b2
                     + kings_on b1).
Proof.
  eapply Z.le_trans.
  - apply sum_difference_bound
      with (D := fun sq => differs b1 b2 sq
                           || (negb (Bool.eqb e1 e2) && holds_king b1 sq)).
    intros sq. apply contribution_difference.
  - unfold squares_changed, kings_on.
    pose proof (filter_length_union
                  (fun sq => differs b1 b2 sq
                             || (negb (Bool.eqb e1 e2) && holds_king b1 sq))
                  (differs b1 b2) (holds_king b1) all_squares) as H1.
    pose proof (filter_length_union (differs b1 b2) (differs b b1)
                  (differs b b2) all_squares (differs_after b b1 b2)) as H2.
    assert (forall s,
               differs b1 b2 s
               || (negb (Bool.eqb e1 e2) && holds_king b1 s) = true ->
               differs b1 b2 s = true \/ holds_king b1 s = true) as H.
    { intros s Hs. apply orb_true_iff in Hs. destruct Hs as [Hs|Hs];
        [left; exact Hs|].
      apply andb_true_iff in Hs. right. apply Hs. }
    specialize (H1 H). lia.
Qed.

Lemma opening_principles_bound (g : Chess) :
  evaluateOpeningPrinciples g 1
  <= 30 * Z.of_nat (List.length (filter minor_piece_move (moves g)))
     + 40 * Z.of_nat (List.length (filter castling_move (moves g)))
     + 25 * Z.of_nat (List.length (filter center_pawn_move (moves g))).
Proof.
  unfold evaluateOpeningPrinciples.
  assert (H : forall ms acc,
             fold_left
               (fun score move =>
                  let score :=
                    if PieceSymbol_eqb (piece move) Knight
                       || PieceSymbol_eqb (piece move) Bishop
                    then score + 30 * 1 else score in
                  let score :=
                    if includes (san move) "O-O"
                       || includes (san move) "O-O-O"
                    then score + 40 * 1 else score in
                  let score :=
                    if PieceSymbol_eqb (piece move) Queen
                       && negb (match captured move with
                                | Some _ => true
                                | None => false
                                end)
                    then score - 30 * 1 else score in
                  if PieceSymbol_eqb (piece move) Pawn
                     && array_includes ["d4"; "d5"; "e4"; "e5"] (to move)
                  then score + 25 * 1 else score)
               ms acc
             <= acc
                + 30 * Z.of_nat (List.length (filter minor_piece_move ms))
                + 40 * Z.of_nat (List.length (filter castling_move ms))
                + 25 * Z.of_nat (List.length (filter center_pawn_move ms))).
  { induction ms as [|m ms IH]; intros acc; [simpl; lia|].
    cbn [fold_left filter]. cbv zeta.
    unfold minor_piece_move at 1, castling_move at 1, center_pawn_move at 1.
    eapply Z.le_trans; [apply IH|].
    destruct (PieceSymbol_eqb (piece m) Knight
              || PieceSymbol_eqb (piece m) Bishop);
      destruct (includes (san m) "O-O" || includes (san m) "O-O-O");
      destruct (PieceSymbol_eqb (piece m) Queen
                && negb (match captured m with
                         | Some _ => true
                         | None => false
                         end));
      destruct (PieceSymbol_eqb (piece m) Pawn
                && array_includes ["d4"; "d5"; "e4"; "e5"] (to m));
      cbn [List.length]; lia. }
  eapply Z.le_trans; [apply (H (moves g) 0)|]. lia.
Qed.

Lemma countAttacksNearKing_nonneg (g : Chess) : 0 <= countAttacksNearKing g.
Proof.
  unfold countAttacksNearKing.
  destruct (find_black_king (board g)) as [kingRow kingCol].
  assert (H : forall ms acc,
             acc <= fold_left
                      (fun attacks move =>
                         if near_king kingRow kingCol move
                         then attacks + 1 else attacks) ms acc).
  { induction ms as [|m ms IH]; intros acc; [simpl; lia|].
    cbn [fold_left]. eapply Z.le_trans; [|apply IH].
    destruct (near_king kingRow kingCol m); lia. }
  apply H.
Qed.

Lemma evaluateKingSafety_nonpos (g : Chess) (e : bool) :
  evaluateKingSafety g e <= 0.
Proof.
  rewrite evaluateKingSafety_eq. pose proof (countAttacksNearKing_nonneg g).
  destruct e; lia.
Qed.

Lemma evaluateKingSafety_no_moves (g : Chess) (e : bool) :
  moves g = [] -> evaluateKingSafety g e = 0.
Proof.
  intros H. rewrite evaluateKingSafety_eq. unfold countAttacksNearKing.
  rewrite H. destruct (find_black_king (board g)). destruct e; reflexivity.
Qed.

Lemma evaluatePawnStructure_range (g : Chess) :
  -20 <= evaluatePawnStructure g <= 0.
Proof.
  rewrite evaluatePawnStructure_eq.
  destruct (1 <? match_file_rank_p_g "b" (fen_placement (board g)))%nat; lia.
Qed.

Lemma basic_of_mate (m : Move) (g : Chess) :
  isCheckmate g = true -> isCheck g = true ->
  5050 <= evaluateBasicPosition m g.
Proof.
  intros Hm Hc. unfold evaluateBasicPosition. rewrite Hm, Hc.
  destruct (captured m) as [[]|]; destruct (isDraw g); simpl; lia.
Qed.

Lemma basic_of_other (m : Move) (g : Chess) :
  isCheckmate g = false -> captured m <> Some King ->
  evaluateBasicPosition m g <= 1850.
Proof.
  intros Hm Hk. unfold evaluateBasicPosition. rewrite Hm.
  destruct (captured m) as [[]|]; try congruence;
    destruct (isCheck g); destruct (isDraw g); simpl; lia.
Qed.

(** With the jitter: a score that is ahead by the width of the jitter stays
    ahead. *)
Lemma ahead_with_jitter (xn xm w : Z) (rn rm : Q) :
  xn + w <= xm -> 0 < w -> (rn < 1)%Q -> (0 <= rm)%Q ->
  (inject_Z xn + rn * inject_Z w < inject_Z xm + rm * inject_Z w)%Q.
Proof.
  intros H Hw Hn Hm.
  rewrite Zle_Qle, inject_Z_plus in H.
  rewrite Zlt_Qlt in Hw. change (inject_Z 0) with 0%Q in Hw.
  assert (H1 : (rn * inject_Z w < 1 * inject_Z w)%Q)
    by (apply Qmult_lt_compat_r; assumption).
  assert (H2 : (0 <= rm * inject_Z w)%Q)
    by (apply Qmult_le_0_compat; [assumption|apply Qlt_le_weak; assumption]).
  lra.
Qed.

Lemma evaluateOpeningPrinciples_no_moves (g : Chess) (w : Z) :
  moves g = [] -> evaluateOpeningPrinciples g w = 0.
Proof. intros H. unfold evaluateOpeningPrinciples. rewrite H. reflexivity. Qed.

Section MateAgainstOthers.

Variables before after_mate after_other : Position.
Variable past : list Position.
Variables mate other : Move.

Hypothesis legal_mate : one_move_away before after_mate.
Hypothesis legal_other : one_move_away before after_other.
Hypothesis no_king_taken : captured other <> Some King.
Hypothesis is_mate : p_isCheckmate after_mate = true.
Hypothesis is_not_mate : p_isCheckmate after_other = false.

Let gm : Chess := mkChess after_mate (before :: past).
Let go : Chess := mkChess after_other (before :: past).

Lemma mate_has_no_reply : isCheck gm = true /\ moves gm = [].
Proof. exact (checkmate_means _ _ legal_mate is_mate). Qed.

Lemma basic_ahead :
  evaluateBasicPosition other go + 3200 <= evaluateBasicPosition mate gm.
Proof.
  destruct mate_has_no_reply as [Hc _].
  pose proof (basic_of_mate mate gm is_mate Hc).
  pose proof (basic_of_other other go is_not_mate no_king_taken).
  lia.
Qed.

Lemma changed_squares_and_kings :
  (squares_changed (p_board before) (board go)
   + squares_changed (p_board before) (board gm)
   + kings_on (board go) <= 10)%nat.
Proof.
  pose proof (few_squares_change _ _ legal_mate).
  pose proof (few_squares_change _ _ legal_other).
  pose proof (two_kings _ _ legal_other).
  unfold board, gm, go. cbn [position]. lia.
Qed.

Lemma intermediate_ahead (h : list string) :
  evaluateBasicPosition other go + evaluateIntermediatePosition h go + 20
  <= evaluateBasicPosition mate gm + evaluateIntermediatePosition h gm.
Proof.
  pose proof basic_ahead as Hb.
  destruct mate_has_no_reply as [_ Hnone].
  unfold evaluateIntermediatePosition.
  rewrite (evaluateKingSafety_no_moves gm _ Hnone).
  rewrite (evaluateOpeningPrinciples_no_moves gm 1 Hnone).
  rewrite Hnone. cbn [List.length].
  pose proof (evaluateKingSafety_nonpos go (isInEndgame go)) as Hks.
  pose proof (evaluatePawnStructure_range go) as Hpo.
  pose proof (evaluatePawnStructure_range gm) as Hpm.
  pose proof (opening_principles_bound go) as Hop.
  pose proof (at_most_218_moves _ _ legal_other) as Hlen.
  pose proof (minor_piece_moves _ _ legal_other) as Hminor.
  pose proof (castling_moves _ _ legal_other) as Hcastle.
  pose proof (center_pawn_moves _ _ legal_other) as Hcenter.
  change (p_moves after_other) with (moves go) in Hlen, Hminor, Hcastle, Hcenter.
  pose proof (piece_square_difference (isInEndgame go) (isInEndgame gm)
                (p_board before) (board go) (board gm)) as Hpst.
  rewrite <- !evaluatePosition_sum in Hpst.
  pose proof changed_squares_and_kings as Hsq.
  destruct (List.length h <? 10)%nat; lia.
Qed.

Lemma advanced_ahead :
  evaluateBasicPosition other go + evaluateAdvancedPosition go None + 5
  <= evaluateBasicPosition mate gm + evaluateAdvancedPosition gm None.
Proof.
  pose proof basic_ahead as Hb.
  pose proof (piece_square_difference false false
                (p_board before) (board go) (board gm)) as Hpst.
  change false with (truthy None) in Hpst at 1 2.
  rewrite <- !evaluateAdvancedPosition_sum in Hpst.
  pose proof changed_squares_and_kings as Hsq. lia.
Qed.

End MateAgainstOthers.

(** C9.  At every level, a candidate that mates scores strictly more than a
    candidate of the same position that does not, whatever the two random
    numbers are: the bonus of 10000, less the 5000 that a draw by the fifty
    move rule may cost at the same time, is more than the capture, the check,
    the piece-square, mobility and opening terms and the jitter can make up.
    The positions reached are positions of legal chess one move away from
    the position of the candidates, as chess.js and this component play it
    ([one_move_away]), and the other candidate takes no king. *)
Theorem checkmate_scores_highest :
  forall (play : Position -> MoveInput -> option (Move * Position))
         (d : Difficulty) (h : list string)
         (before : Position) (past : list Position)
         (mate other result_mate result_other : Move)
         (after_mate after_other : Position) (r_mate r_other : Q),
    play before (input_of_move mate) = Some (result_mate, after_mate) ->
    play before (input_of_move other) = Some (result_other, after_other) ->
    one_move_away before after_mate ->
    one_move_away before after_other ->
    captured other <> Some King ->
    p_isCheckmate after_mate = true ->
    p_isCheckmate after_other = false ->
    (0 <= r_mate)%Q -> (r_other < 1)%Q ->
    exists s_mate s_other,
      score_candidate play d h r_mate mate (mkChess before past)
      = (Return s_mate, mkChess before past)
      /\ score_candidate play d h r_other other (mkChess before past)
         = (Return s_other, mkChess before past)
      /\ move s_mate = mate /\ move s_other = other
      /\ (score s_other < score s_mate)%Q.
Proof.
  intros play d h before past mate other result_mate result_other
    after_mate after_other r_mate r_other Hpm Hpo Hlm Hlo Hk Hm Hnm Hrm Hro.
  rewrite !score_candidate_eq. cbn [position history].
  rewrite Hpm, Hpo. cbv zeta.
  eexists. eexists.
  split; [reflexivity|]. split; [reflexivity|].
  split; [reflexivity|]. split; [reflexivity|].
  cbn [score].
  set (gm := mkChess after_mate (before :: past)).
  set (go := mkChess after_other (before :: past)).
  destruct d.
  - pose proof (basic_ahead before after_mate after_other past mate other
                  Hlm Hk Hm Hnm) as H.
    fold gm go in H.
    pose proof (ahead_with_jitter (evaluateBasicPosition other go)
                  (evaluateBasicPosition mate gm) 50 r_other r_mate) as HQ.
    change (inject_Z 50) with 50%Q in HQ.
    assert (HQ' := HQ ltac:(lia) ltac:(lia) Hro Hrm). lra.
  - pose proof (intermediate_ahead before after_mate after_other past mate
                  other Hlm Hlo Hk Hm Hnm h) as H.
    fold gm go in H.
    pose proof (ahead_with_jitter
                  (evaluateBasicPosition other go
                   + evaluateIntermediatePosition h go)
                  (evaluateBasicPosition mate gm
                   + evaluateIntermediatePosition h gm)
                  20 r_other r_mate H ltac:(lia) Hro Hrm) as HQ.
    change (inject_Z 20) with 20%Q in HQ.
    rewrite !inject_Z_plus in HQ. lra.
  - pose proof (advanced_ahead before after_mate after_other past mate other
                  Hlm Hlo Hk Hm Hnm) as H.
    fold gm go in H.
    pose proof (ahead_with_jitter
                  (evaluateBasicPosition other go
                   + evaluateAdvancedPosition go None)
                  (evaluateBasicPosition mate gm
                   + evaluateAdvancedPosition gm None)
                  5 r_other r_mate H ltac:(lia) Hro Hrm) as HQ.
    change (inject_Z 5) with 5%Q in HQ.
    rewrite !inject_Z_plus in HQ. lra.
Qed.

Lemma back_rank_mate_legal : one_move_away back_rank_start back_rank_after_Ra1.
Proof.
  constructor.
  - vm_compute; lia.
  - vm_compute; lia.
  - intros _. split; reflexivity.
  - vm_compute; lia.
  - vm_compute; lia.
  - vm_compute; lia.
  - vm_compute; lia.
Defined.

Lemma back_rank_capture_legal :
  one_move_away back_rank_start back_rank_after_Rxg2.
Proof.
  constructor.
  - vm_compute; lia.
  - vm_compute; lia.
  - discriminate.
  - vm_compute; lia.
  - vm_compute; lia.
  - vm_compute; lia.
  - vm_compute; lia.
Defined.

Lemma checkmate_scores_highest_witness :
  back_rank_engine back_rank_start (input_of_move back_rank_Ra1)
  = Some (back_rank_Ra1, back_rank_after_Ra1)
  /\ back_rank_engine back_rank_start (input_of_move back_rank_Rxg2)
     = Some (back_rank_Rxg2, back_rank_after_Rxg2)
  /\ one_move_away back_rank_start back_rank_after_Ra1
  /\ one_move_away back_rank_start back_rank_after_Rxg2
  /\ captured back_rank_Rxg2 <> Some King
  /\ p_isCheckmate back_rank_after_Ra1 = true
  /\ p_isCheckmate back_rank_after_Rxg2 = false
  /\ (0 <= 0)%Q /\ (99 # 100 < 1)%Q
  /\ exists s_mate s_other,
       score_candidate back_rank_engine Medium [] 0 back_rank_Ra1
         (mkChess back_rank_start [])
       = (Return s_mate, mkChess back_rank_start [])
       /\ score_candidate back_rank_engine Medium [] (99 # 100) back_rank_Rxg2
            (mkChess back_rank_start [])
          = (Return s_other, mkChess back_rank_start [])
       /\ move s_mate = back_rank_Ra1 /\ move s_other = back_rank_Rxg2
       /\ (score s_other < score s_mate)%Q.
Proof.
  assert (H1 : back_rank_engine back_rank_start (input_of_move back_rank_Ra1)
               = Some (back_rank_Ra1, back_rank_after_Ra1)) by reflexivity.
  assert (H2 : back_rank_engine back_rank_start (input_of_move back_rank_Rxg2)
               = Some (back_rank_Rxg2, back_rank_after_Rxg2)) by reflexivity.
  assert (H3 : captured back_rank_Rxg2 <> Some King) by discriminate.
  assert (H4 : p_isCheckmate back_rank_after_Ra1 = true) by reflexivity.
  assert (H5 : p_isCheckmate back_rank_after_Rxg2 = false) by reflexivity.
  assert (H6 : (0 <= 0)%Q) by discriminate.
  assert (H7 : (99 # 100 < 1)%Q) by reflexivity.
  repeat (split; [assumption || apply back_rank_mate_legal
                  || apply back_rank_capture_legal|]).
  exact (checkmate_scores_highest back_rank_engine Medium [] back_rank_start
           [] back_rank_Ra1 back_rank_Rxg2 back_rank_Ra1 back_rank_Rxg2
           back_rank_after_Ra1 back_rank_after_Rxg2 0 (99 # 100)
           H1 H2 back_rank_mate_legal back_rank_capture_legal H3 H4 H5 H6 H7).
Defined.

(** ** The Hard level *)

(** C1 fails on the code.  Both declarations named
    [evaluateAdvancedPosition] are in the body of the component, so the call
    in [evaluateAllMoves] runs the later one, the piece-square loop, with no
    second argument.  The Hard score of a candidate is therefore the terms
    common to all levels, the piece-square sum of the position reached with
    the middlegame king table, and the jitter: no king safety, pawn
    structure, mobility, center control, opening, endgame or threat term,
    and no use of the move history.  For the capture [dxe3] of the ending it
    is 230 and the jitter: 200 for the pawn and 30 for the piece-square
    values.  The composition the claim describes gives 325 and the jitter
    there, for every length of the move history. *)
Theorem hard_score_is_piece_square_only :
  (forall (play : Position -> MoveInput -> option (Move * Position))
          (h : list string) (r : Q) (m : Move) (g : Chess),
      match play (position g) (input_of_move m) with
      | Some (_, after) =>
          exists sm,
            score_candidate play Hard h r m g = (Return sm, g)
            /\ (score sm
                == inject_Z
                     (evaluateBasicPosition m
                        (mkChess after (position g :: history g))
                      + fold_left
                          (fun acc sq =>
                             acc + contribution false (p_board after) sq)
                          all_squares 0)%Z
                   + r * 5)%Q
      | None => score_candidate play Hard h r m g = (Throw IllegalMove, g)
      end)
  /\ (forall (h : list string) (r : Q),
         exists sm,
           score_candidate kp_engine Hard h r kp_dxe3 kp_game
           = (Return sm, kp_game)
           /\ (score sm == 230 + r * 5)%Q
           /\ (spec_advanced_score h kp_dxe3 kp_game_after_dxe3 r
               == 325 + r * 5)%Q
           /\ ~ (score sm
                 == spec_advanced_score h kp_dxe3 kp_game_after_dxe3 r)%Q).
Proof.
  split.
  { intros play h r m g. rewrite score_candidate_eq.
    destruct (play (position g) (input_of_move m)) as [[res after]|];
      [|reflexivity].
    cbv zeta. eexists. split; [reflexivity|]. cbn [score].
    rewrite evaluateAdvancedPosition_sum. unfold board.
    cbn [truthy position]. rewrite inject_Z_plus. ring. }
  intros h r. rewrite score_candidate_eq.
  change (kp_engine (position kp_game) (input_of_move kp_dxe3))
    with (Some (kp_dxe3, kp_after_dxe3)).
  cbv zeta. eexists. split; [reflexivity|]. cbn [score].
  assert (Hcode :
           (0 + inject_Z (evaluateBasicPosition kp_dxe3
                            (mkChess kp_after_dxe3
                               (position kp_game :: history kp_game)))
            + inject_Z (evaluateAdvancedPosition
                          (mkChess kp_after_dxe3
                             (position kp_game :: history kp_game)) None)
            + r * 5 == 230 + r * 5)%Q).
  { apply Qplus_inj_r. reflexivity. }
  assert (Hspec :
           (spec_advanced_score h kp_dxe3 kp_game_after_dxe3 r
            == 325 + r * 5)%Q).
  { unfold spec_advanced_score. apply Qplus_inj_r.
    unfold evaluateAdvancedPosition_line470.
    destruct (List.length h <? 15)%nat; reflexivity. }
  split; [exact Hcode|]. split; [exact Hspec|].
  rewrite Hcode, Hspec. intros H. apply Qplus_inj_r in H. discriminate H.
Qed.

(** ** Witnesses and counterexamples on the ending *)

Lemma selector_spec_witness :
  p_moves kp_start <> []
  /\ double (6004799503160661 # 9007199254740992)
  /\ exists evaluated,
       fst (evaluateAllMoves kp_engine Medium (repeat "..." 79)
              (fun _ => 1 # 2) (p_moves kp_start) kp_game)
       = Return evaluated
       /\ StronglySorted descending evaluated
       /\ exists i chosen,
            i = 2%nat
            /\ near_part i 3 (6004799503160661 # 9007199254740992)
            /\ nth_error evaluated i = Some chosen
            /\ selectMove Medium evaluated
                 (6004799503160661 # 9007199254740992)
               = Return (move chosen)
            /\ In (move chosen) (p_moves kp_start).
Proof.
  assert (Hne : p_moves kp_start <> []) by discriminate.
  assert (Hd : double (6004799503160661 # 9007199254740992)).
  { exists 6004799503160661, (-53).
    split; [reflexivity|]. split; [lia|reflexivity]. }
  split; [exact Hne|]. split; [exact Hd|].
  destruct (evaluateAllMoves_returns kp_engine Medium (repeat "..." 79)
              (fun _ => 1 # 2) (p_moves kp_start) kp_game)
    as [evaluated He].
  { intros m Hm. simpl in Hm.
    repeat (destruct Hm as [<-|Hm]; [vm_compute; discriminate|]).
    contradiction. }
  exists evaluated. split; [exact He|].
  destruct (selector_spec kp_engine Medium (repeat "..." 79)
              (fun _ => 1 # 2) (p_moves kp_start) kp_game evaluated Hne He)
    as [scored [Hlen [_ [_ [Hsorted [_ Hsel]]]]]].
  split; [exact Hsorted|].
  rewrite Hlen in Hsel. cbv zeta in Hsel.
  change (Nat.min 3 (List.length (p_moves kp_start))) with 3%nat in Hsel.
  destruct Hsel as [_ [Hsel _]].
  destruct (Hsel (6004799503160661 # 9007199254740992) Hd)
    as [i [chosen [Hi [Hidx [Hpart [Hnth [Hrun [_ Hin]]]]]]]].
  - discriminate.
  - reflexivity.
  - exists i, chosen. split; [|split; [exact Hpart|]].
    + apply Nat2Z.inj. rewrite Hidx. vm_compute. reflexivity.
    + split; [exact Hnth|]. split; [exact Hrun|exact Hin].
Defined.

Lemma no_move_only_without_candidates_witness :
  (forall n : nat, double (1 # 2) /\ (0 <= 1 # 2)%Q /\ (1 # 2 < 1)%Q)
  /\ (forall m, In m (moves (game (kp_state Easy))) ->
                kp_engine (position (game (kp_state Easy))) (input_of_move m)
                <> None
                /\ kp_engine (position (game (kp_state Easy)))
                     (mkMoveInput (from m) (to m) (Some Queen)) <> None)
  /\ moves (game (kp_state Easy)) <> []
  /\ exists m result after,
       let request := mkMoveInput (from m) (to m) (Some Queen) in
       In m (moves (game (kp_state Easy)))
       /\ makeComputerMoveWithTimer kp_engine (kp_state Easy)
            (fun _ => 1 # 2)
          = (start_clock (kp_state Easy),
             Return (Some (mkPending request
                             (THINKING_TIME (difficulty (kp_state Easy))))))
       /\ kp_engine (position (game (kp_state Easy))) request
          = Some (result, after)
       /\ snd (makeAMove kp_engine (kp_state Easy) request) = true
       /\ game (fst (makeAMove kp_engine (kp_state Easy) request))
          = mkChess after [position (game (kp_state Easy))]
       /\ moveHistory (fst (makeAMove kp_engine (kp_state Easy) request))
          = (moveHistory (kp_state Easy) ++ [san result])%list.
Proof.
  assert (Hr : forall n : nat,
             double (1 # 2) /\ (0 <= 1 # 2)%Q /\ (1 # 2 < 1)%Q).
  { intros n. split; [|split; [discriminate|reflexivity]].
    exists 1, (-1). split; [reflexivity|]. split; [lia|reflexivity]. }
  assert (Ha : forall m, In m (moves (game (kp_state Easy))) ->
                         kp_engine (position (game (kp_state Easy)))
                           (input_of_move m) <> None
                         /\ kp_engine (position (game (kp_state Easy)))
                              (mkMoveInput (from m) (to m) (Some Queen))
                            <> None).
  { intros m Hm. simpl in Hm.
    repeat (destruct Hm as [<-|Hm];
            [split; vm_compute; discriminate|]).
    contradiction. }
  assert (Hne : moves (game (kp_state Easy)) <> []) by discriminate.
  split; [exact Hr|]. split; [exact Ha|]. split; [exact Hne|].
  exact (proj2 (proj2 (no_move_only_without_candidates kp_engine
                         (kp_state Easy) (fun _ => 1 # 2) Hr Ha)) Hne).
Defined.

Lemma evaluateAllMoves_apply_undo_witness :
  snd (evaluateAllMoves kp_engine Medium [] (fun _ => 1 # 2)
         (p_moves kp_start) kp_game) = kp_game
  /\ exists evaluated,
       fst (evaluateAllMoves kp_engine Medium [] (fun _ => 1 # 2)
              (p_moves kp_start) kp_game) = Return evaluated.
Proof.
  destruct (evaluateAllMoves_apply_undo kp_engine Medium [] (fun _ => 1 # 2)
              (p_moves kp_start) kp_game) as [H1 [_ H3]].
  split; [exact H1|]. apply H3.
  intros m Hm. simpl in Hm.
  repeat (destruct Hm as [<-|Hm]; [vm_compute; discriminate|]).
  contradiction.
Defined.

Lemma makeAMove_atomic_witness :
  makeAMove kp_engine (kp_state Easy) (mkMoveInput "a8" "a1" (Some Queen))
  = (kp_state Easy, false)
  /\ snd (makeAMove kp_engine (kp_state Easy)
            (mkMoveInput "d4" "e3" (Some Queen))) = true.
Proof.
  split.
  - exact (makeAMove_atomic kp_engine (kp_state Easy)
             (mkMoveInput "a8" "a1" (Some Queen))).
  - exact (proj1 (makeAMove_atomic kp_engine (kp_state Easy)
                    (mkMoveInput "d4" "e3" (Some Queen)))).
Defined.

(** * Further properties *)

(** ** Undo, the clock and the selection *)

Lemma slice_off_end_length {A : Type} (l : list A) (k : nat) :
  List.length (slice_off_end l k) = (List.length l - k)%nat.
Proof. unfold slice_off_end. rewrite length_firstn. lia. Qed.

(** X1.  [undoLastMove] takes no move back.  It calls [undo] on a copy made
    from the FEN, which has no history, so the position shown stays the
    same; the list of moves loses its last entry, or its last two against
    the computer, the clock is paused and the selection is cleared. *)
Theorem undoLastMove_keeps_position :
  forall st : State,
    position (game (undoLastMove st)) = position (game st)
    /\ history (game (undoLastMove st)) = []
    /\ List.length (moveHistory (undoLastMove st))
       = (List.length (moveHistory st)
          - (if isPlayingComputer st then 2 else 1))%nat
    /\ (exists dropped,
           moveHistory st = (moveHistory (undoLastMove st) ++ dropped)%list)
    /\ isTimerRunning (undoLastMove st) = false
    /\ timeLeft (undoLastMove st) = timeLeft st
    /\ moveFrom (undoLastMove st) = ""
    /\ possibleMoves (undoLastMove st) = [].
Proof.
  intros st. unfold undoLastMove.
  destruct (isPlayingComputer st); cbn;
    (split; [reflexivity|]); (split; [reflexivity|]);
    (split; [apply slice_off_end_length|]);
    (split; [|repeat split]).
  - exists (skipn (List.length (moveHistory st) - 2) (moveHistory st)).
    unfold slice_off_end. symmetry. apply firstn_skipn.
  - exists (skipn (List.length (moveHistory st) - 1) (moveHistory st)).
    unfold slice_off_end. symmetry. apply firstn_skipn.
Qed.

(** X2.  The clock after a move that the engine accepts.  The first move
    starts the clock and adds nothing.  With the clock running and a
    positive increment, the increment goes to the side that did not move:
    [handleMoveComplete] reads the turn from the position before the move,
    and credits the other colour.  The clock of the side that moved is
    unchanged. *)
Theorem makeAMove_clock :
  forall (play : Position -> MoveInput -> option (Move * Position))
         (st : State) (mv : MoveInput) (result : Move) (after : Position),
    play (position (game st)) mv = Some (result, after) ->
    let st' := fst (makeAMove play st mv) in
    isTimerRunning st' = true
    /\ (isTimerRunning st = false -> timeLeft st' = timeLeft st)
    /\ (isTimerRunning st = true ->
        increment (selectedTimeControl st) <= 0 ->
        timeLeft st' = timeLeft st)
    /\ (isTimerRunning st = true ->
        0 < increment (selectedTimeControl st) ->
        match turn (game st) with
        | White =>
            white (timeLeft st') = white (timeLeft st)
            /\ black (timeLeft st')
               = black (timeLeft st) + increment (selectedTimeControl st)
        | Black =>
            black (timeLeft st') = black (timeLeft st)
            /\ white (timeLeft st')
               = white (timeLeft st) + increment (selectedTimeControl st)
        end).
Proof.
  intros play st mv result after Hplay st'. subst st'.
  unfold makeAMove, Chess_move, new_Chess. cbn [position].
  rewrite Hplay. cbn [fst]. unfold handleMoveComplete. cbn.
  destruct (isTimerRunning st) eqn:Hrun; cbn.
  - destruct (0 <? increment (selectedTimeControl st)) eqn:Hinc.
    + apply Z.ltb_lt in Hinc. cbn.
      split; [first [reflexivity | exact Hrun]|]. split; [discriminate|].
      split; [intros _ H; lia|]. intros _ _.
      unfold turn. cbn. destruct (p_turn (position (game st))); cbn;
        split; reflexivity.
    + apply Z.ltb_ge in Hinc. cbn.
      split; [first [reflexivity | exact Hrun]|]. split; [discriminate|].
      split; [reflexivity|]. intros _ H. lia.
  - split; [reflexivity|]. split; [reflexivity|].
    split; discriminate.
Qed.

Lemma makeAMove_clock_witness :
  kp_engine (position (game kp_state_increment))
    (mkMoveInput "d4" "e3" (Some Queen))
  = Some (kp_dxe3, kp_after_dxe3)
  /\ turn (game kp_state_increment) = Black
  /\ timeLeft (fst (makeAMove kp_engine kp_state_increment
                      (mkMoveInput "d4" "e3" (Some Queen))))
     = mkTimeLeft 441 388.
Proof.
  split; [reflexivity|]. split; [reflexivity|].
  pose proof (makeAMove_clock kp_engine kp_state_increment
                (mkMoveInput "d4" "e3" (Some Queen)) kp_dxe3 kp_after_dxe3
                eq_refl) as H.
  cbv zeta in H. destruct H as [_ [_ [_ H]]].
  specialize (H eq_refl eq_refl).
  change (turn (game kp_state_increment)) with Black in H.
  destruct H as [Hb Hw].
  destruct (timeLeft _) as [w b]. cbn in *. subst. reflexivity.
Defined.

(** X3.  [onDrop] answers [true] exactly when the engine accepts the move
    from the source to the target square with promotion to a queen, and
    then the board shows the position the engine gave and the move list has
    one more entry.  On the computer's turn nothing happens.  Unlike
    [makeAMove], a refused drop is not without effect: the selection is
    cleared before the move is tried. *)
Theorem onDrop_spec :
  forall (play : Position -> MoveInput -> option (Move * Position))
         (st : State) (sourceSquare targetSquare : string),
    let dropped := onDrop play st sourceSquare targetSquare in
    if isPlayingComputer st && Color_eqb (turn (game st)) Black
    then dropped = (st, false)
    else
      match play (position (game st))
              (mkMoveInput sourceSquare targetSquare (Some Queen)) with
      | None => dropped = (with_selection st "" [], false)
      | Some (result, after) =>
          snd dropped = true
          /\ game (fst dropped) = mkChess after [position (game st)]
          /\ moveHistory (fst dropped)
             = (moveHistory st ++ [san result])%list
          /\ moveFrom (fst dropped) = ""
          /\ possibleMoves (fst dropped) = []
      end.
Proof.
  intros play st s t dropped. subst dropped. unfold onDrop.
  destruct (isPlayingComputer st && Color_eqb (turn (game st)) Black);
    [reflexivity|].
  destruct (makeAMove_cases play (with_selection st "" [])
              (mkMoveInput s t (Some Queen)))
    as [[Hp Hm]|[result [after [Hp Hm]]]];
    cbn [with_selection game] in Hp; rewrite Hp, Hm.
  - reflexivity.
  - cbn [fst snd].
    destruct (handleMoveComplete_fields (with_selection st "" [])
                (mkState (mkChess after
                            [position (game (with_selection st "" []))])
                   (moveHistory (with_selection st "" []) ++ [san result])
                   "" [] (isPlayingComputer (with_selection st "" []))
                   (difficulty (with_selection st "" []))
                   (selectedTimeControl (with_selection st "" []))
                   (timeLeft (with_selection st "" []))
                   (isTimerRunning (with_selection st "" []))
                   (lastMoveTime (with_selection st "" []))))
      as [Hg [Hh [Hf [Hq _]]]].
    rewrite Hg, Hh, Hf, Hq. repeat split.
Qed.

Lemma array_includes_In (l : list string) (x : string) :
  array_includes l x = true <-> In x l.
Proof.
  unfold array_includes. rewrite existsb_exists. split.
  - intros [y [Hin Heq]]. apply String.eqb_eq in Heq. subst. exact Hin.
  - intros Hin. exists x. split; [exact Hin|apply String.eqb_refl].
Qed.

Lemma select_square_ok (st : State) (square : string) :
  square <> "" ->
  (0 <? List.length (moves_from (game st) square))%nat = true ->
  selection_ok
    (with_selection st square (map to (moves_from (game st) square))).
Proof.
  intros Hsq Hlen. right. cbn [with_selection moveFrom possibleMoves game].
  split; [exact Hsq|]. split; [|reflexivity].
  apply Nat.ltb_lt in Hlen.
  destruct (moves_from (game st) square); [cbn in Hlen; lia|discriminate].
Qed.

(** X4.  A click keeps the selection sound.  If, before the click, either
    nothing is selected or the highlighted squares are the destinations of
    the legal moves of the selected square, then the same holds after it,
    whatever square is clicked and whatever the engine answers. *)
Theorem onSquareClick_keeps_selection :
  forall (play : Position -> MoveInput -> option (Move * Position))
         (st : State) (square : string),
    square <> "" ->
    selection_ok st ->
    selection_ok (onSquareClick play st square).
Proof.
  intros play st square Hsq Hok. unfold onSquareClick.
  destruct (isPlayingComputer st && Color_eqb (turn (game st)) Black);
    [exact Hok|].
  destruct (String.eqb (moveFrom st) "") eqn:Hfrom.
  - destruct (0 <? List.length (moves_from (game st) square))%nat eqn:Hlen.
    + apply select_square_ok; assumption.
    + exact Hok.
  - destruct (String.eqb square (moveFrom st)).
    + left. split; reflexivity.
    + destruct (array_includes (possibleMoves st) square).
      * destruct (makeAMove_cases play st
                    (mkMoveInput (moveFrom st) square (Some Queen)))
          as [[_ Hm]|[result [after [_ Hm]]]]; rewrite Hm; cbn [fst].
        -- exact Hok.
        -- left.
           match goal with
           | |- context [handleMoveComplete st ?s] =>
               destruct (handleMoveComplete_fields st s)
                 as [_ [_ [Hf [Hq _]]]]
           end.
           split; [rewrite Hf|rewrite Hq]; reflexivity.
      * destruct (0 <? List.length (moves_from (game st) square))%nat
          eqn:Hlen.
        -- apply select_square_ok; assumption.
        -- left. split; reflexivity.
Qed.

Lemma onSquareClick_keeps_selection_witness :
  "d4"%string <> ""%string
  /\ selection_ok kp_state_friend
  /\ selection_ok (onSquareClick kp_engine kp_state_friend "d4")
  /\ possibleMoves (onSquareClick kp_engine kp_state_friend "d4")
     = ["d3"; "e3"].
Proof.
  assert (Hsq : "d4"%string <> ""%string) by discriminate.
  assert (Hok : selection_ok kp_state_friend)
    by (left; split; reflexivity).
  split; [exact Hsq|]. split; [exact Hok|].
  split; [|reflexivity].
  exact (onSquareClick_keeps_selection kp_engine kp_state_friend "d4"
           Hsq Hok).
Defined.

(** X5.  With a sound selection a click plays only a legal move: the
    position changes only when a square is selected, the clicked square is
    one of the highlighted ones, the engine lists a move from the selected
    square to it, and the engine accepts that move with promotion to a
    queen; the board then shows the engine's position and the move list has
    one more entry.  In every other case the game and the move list stay
    as they are. *)
Theorem onSquareClick_plays_listed_move :
  forall (play : Position -> MoveInput -> option (Move * Position))
         (st : State) (square : string),
    selection_ok st ->
    let st' := onSquareClick play st square in
    (game st' = game st /\ moveHistory st' = moveHistory st)
    \/ (exists m result after,
           In m (moves (game st))
           /\ from m = moveFrom st /\ to m = square
           /\ moveFrom st <> ""
           /\ play (position (game st))
                (mkMoveInput (moveFrom st) square (Some Queen))
              = Some (result, after)
           /\ game st' = mkChess after [position (game st)]
           /\ moveHistory st' = (moveHistory st ++ [san result])%list).
Proof.
  intros play st square Hok st'. subst st'. unfold onSquareClick.
  destruct (isPlayingComputer st && Color_eqb (turn (game st)) Black);
    [left; split; reflexivity|].
  destruct (String.eqb (moveFrom st) "") eqn:Hfrom.
  { destruct (0 <? List.length (moves_from (game st) square))%nat;
      left; split; reflexivity. }
  destruct (String.eqb square (moveFrom st));
    [left; split; reflexivity|].
  destruct (array_includes (possibleMoves st) square) eqn:Hinc.
  2:{ destruct (0 <? List.length (moves_from (game st) square))%nat;
        left; split; reflexivity. }
  destruct (makeAMove_cases play st
              (mkMoveInput (moveFrom st) square (Some Queen)))
    as [[_ Hm]|[result [after [Hp Hm]]]]; rewrite Hm; cbn [fst].
  { left; split; reflexivity. }
  right.
  apply array_includes_In in Hinc.
  destruct Hok as [[He _]|[Hne [_ Hpm]]].
  { rewrite He in Hfrom. discriminate. }
  rewrite Hpm in Hinc. apply in_map_iff in Hinc.
  destruct Hinc as [m [Hto Hin]].
  unfold moves_from in Hin. apply filter_In in Hin.
  destruct Hin as [Hin Hfm]. apply String.eqb_eq in Hfm.
  exists m, result, after.
  match goal with
  | |- context [handleMoveComplete st ?s] =>
      destruct (handleMoveComplete_fields st s) as [Hg [Hh _]]
  end.
  rewrite Hg, Hh. repeat split; assumption.
Qed.

Lemma onSquareClick_plays_listed_move_witness :
  selection_ok kp_state_selected
  /\ game (onSquareClick kp_engine kp_state_selected "e3")
     = mkChess kp_after_dxe3 [kp_start].
Proof.
  assert (Hok : selection_ok kp_state_selected).
  { right. split; [discriminate|]. split; [discriminate|reflexivity]. }
  split; [exact Hok|].
  destruct (onSquareClick_plays_listed_move kp_engine kp_state_selected
              "e3" Hok)
    as [[Hg _]|[m [result [after [_ [_ [_ [_ [Hp [Hg _]]]]]]]]]].
  - vm_compute in Hg. discriminate Hg.
  - rewrite Hg. vm_compute in Hp. injection Hp as _ Ha. subst after.
    reflexivity.
Defined.

(** ** The clocks *)

Lemma handleMoveComplete_clock (st st' : State) :
  clock_ok st ->
  timeLeft st' = timeLeft st ->
  selectedTimeControl st' = selectedTimeControl st ->
  clock_ok (handleMoveComplete st st').
Proof.
  unfold clock_ok, handleMoveComplete. intros [Hw [Hb [Hi Hn]]] Ht Hc.
  destruct (negb (isTimerRunning st)); cbn.
  - rewrite Ht, Hc. auto.
  - destruct (0 <? increment (selectedTimeControl st)) eqn:Hinc; cbn.
    + rewrite Ht, Hc.
      destruct (negb (Color_eqb (turn (game st)) White)); cbn;
        repeat split; lia.
    + rewrite Ht, Hc. auto.
Qed.

Lemma makeAMove_clock_ok
    (play : Position -> MoveInput -> option (Move * Position))
    (st : State) (mv : MoveInput) :
  clock_ok st -> clock_ok (fst (makeAMove play st mv)).
Proof.
  intros Hok.
  destruct (makeAMove_cases play st mv)
    as [[_ Hm]|[result [after [_ Hm]]]]; rewrite Hm; cbn [fst].
  - exact Hok.
  - apply handleMoveComplete_clock; [exact Hok|reflexivity|reflexivity].
Qed.

Lemma find_In {A : Type} (f : A -> bool) (l : list A) (x : A) :
  find f l = Some x -> In x l.
Proof. intros H. apply find_some in H. tauto. Qed.

(** X6.  No clock ever goes below zero.  If both clocks and the two numbers
    of the time control are not negative, they are not after a tick of the
    timer, the check for a time out, a move, a drop, a click, a new game, an
    undo, the switch between friend and computer, the start of the
    computer's turn, and the choice of any time control of the menu. *)
Theorem clocks_never_negative :
  forall (play : Position -> MoveInput -> option (Move * Position))
         (isGameOver : Chess -> bool) (st : State),
    clock_ok st ->
    clock_ok (tick isGameOver st)
    /\ clock_ok (timeOutEffect st)
    /\ (forall mv, clock_ok (fst (makeAMove play st mv)))
    /\ (forall s t, clock_ok (fst (onDrop play st s t)))
    /\ (forall square, clock_ok (onSquareClick play st square))
    /\ clock_ok (resetGame st)
    /\ clock_ok (undoLastMove st)
    /\ clock_ok (togglePlayingComputer st)
    /\ clock_ok (start_clock st)
    /\ (forall value st',
          selectTimeControl st value = Return st' -> clock_ok st').
Proof.
  intros play isGameOver st Hok.
  pose proof Hok as [Hw [Hb [Hi Hn]]].
  split; [|split; [|split; [|split; [|split; [|split; [|split;
    [|split; [|split]]]]]]]].
  - unfold tick.
    destruct (isTimerRunning st && negb (isGameOver (game st)));
      [|exact Hok].
    destruct (turn (game st)); unfold clock_ok; cbn; repeat split; lia.
  - unfold timeOutEffect.
    destruct (white (timeLeft st) =? 0);
      [|destruct (black (timeLeft st) =? 0)]; exact Hok.
  - intros mv. apply makeAMove_clock_ok. exact Hok.
  - intros s t. unfold onDrop.
    destruct (isPlayingComputer st && Color_eqb (turn (game st)) Black);
      [exact Hok|].
    apply makeAMove_clock_ok. exact Hok.
  - intros square. unfold onSquareClick.
    destruct (isPlayingComputer st && Color_eqb (turn (game st)) Black);
      [exact Hok|].
    destruct (String.eqb (moveFrom st) "").
    + destruct (0 <? List.length (moves_from (game st) square))%nat;
        exact Hok.
    + destruct (String.eqb square (moveFrom st)); [exact Hok|].
      destruct (array_includes (possibleMoves st) square).
      * apply makeAMove_clock_ok. exact Hok.
      * destruct (0 <? List.length (moves_from (game st) square))%nat;
          exact Hok.
  - unfold clock_ok, resetGame. cbn. auto.
  - unfold clock_ok, undoLastMove. cbn. auto.
  - unfold clock_ok, togglePlayingComputer, resetGame. cbn. auto.
  - unfold start_clock. destruct (negb (isTimerRunning st)); exact Hok.
  - intros value st'. unfold selectTimeControl.
    destruct (find _ TIME_CONTROLS) as [tc|] eqn:Hfind; [|discriminate].
    intros H. injection H as H. subst st'.
    apply find_In in Hfind.
    assert (Htc : 0 <= initial tc /\ 0 <= increment tc).
    { cbn in Hfind.
      repeat (destruct Hfind as [Hfind|Hfind];
              [subst tc; cbn; split; lia|]).
      contradiction. }
    unfold clock_ok. cbn. tauto.
Qed.

Lemma clocks_never_negative_witness :
  clock_ok initial_state
  /\ clock_ok (tick (fun _ => false) initial_state)
  /\ clock_ok (fst (makeAMove kp_engine kp_state_increment
                      (mkMoveInput "d4" "e3" (Some Queen)))).
Proof.
  assert (H0 : clock_ok initial_state)
    by (unfold clock_ok; cbn; repeat split; lia).
  assert (H1 : clock_ok kp_state_increment)
    by (unfold clock_ok; cbn; repeat split; lia).
  split; [exact H0|]. split.
  - exact (proj1 (clocks_never_negative kp_engine (fun _ => false)
                    initial_state H0)).
  - exact (proj1 (proj2 (proj2 (clocks_never_negative kp_engine
                                  (fun _ => false) kp_state_increment H1)))
             (mkMoveInput "d4" "e3" (Some Queen))).
Defined.

(** X7.  The fall of a flag.  When the clock runs, the game is not over and
    the side to move has one second left while the other side has time,
    the next tick followed by the check for a time out stops the clock with
    the mover's clock at zero; the status line then names the other side as
    the winner on time, whatever the position is, and further ticks change
    nothing.  The position itself is left as it is. *)
Theorem flag_fall :
  forall (isGameOver isStalemate : Chess -> bool) (st : State),
    isTimerRunning st = true ->
    isGameOver (game st) = false ->
    match turn (game st) with
    | White => white (timeLeft st) = 1 /\ 0 < black (timeLeft st)
    | Black => black (timeLeft st) = 1 /\ 0 < white (timeLeft st)
    end ->
    let st' := timeOutEffect (tick isGameOver st) in
    isTimerRunning st' = false
    /\ game st' = game st
    /\ tick isGameOver st' = st'
    /\ match turn (game st) with
       | White =>
           timeLeft st' = mkTimeLeft 0 (black (timeLeft st))
           /\ getGameStatus isStalemate st' = "Black wins on time!"
       | Black =>
           timeLeft st' = mkTimeLeft (white (timeLeft st)) 0
           /\ getGameStatus isStalemate st' = "White wins on time!"
       end.
Proof.
  intros isGameOver isStalemate st Hrun Hover Hclock st'. subst st'.
  unfold tick. rewrite Hrun, Hover. cbn [andb negb].
  destruct (turn (game st)) eqn:Hturn; destruct Hclock as [H1 H0];
    unfold timeOutEffect, getGameStatus, tick;
    cbn [with_timeLeft with_isTimerRunning timeLeft white black game
         isTimerRunning andb];
    rewrite H1; cbn [Z.sub Z.max Z.compare Z.eqb Z.add Z.pos_sub Z.opp].
  all: try (destruct (white (timeLeft st) =? 0) eqn:Hw;
            [apply Z.eqb_eq in Hw; lia|]).
  all: cbn [with_isTimerRunning with_timeLeft timeLeft white black game
            isTimerRunning andb Z.eqb].
  all: try rewrite Hw.
  all: repeat split.
Qed.

Lemma flag_fall_witness :
  isTimerRunning kp_state_last_second = true
  /\ turn (game kp_state_last_second) = Black
  /\ getGameStatus no_move_no_check
       (timeOutEffect (tick (fun _ => false) kp_state_last_second))
     = "White wins on time!".
Proof.
  split; [reflexivity|]. split; [reflexivity|].
  pose proof (flag_fall (fun _ => false) no_move_no_check
                kp_state_last_second eq_refl eq_refl) as H.
  change (turn (game kp_state_last_second)) with Black in H.
  cbv zeta in H.
  exact (proj2 (proj2 (proj2 (proj2 (H (conj eq_refl eq_refl)))))).
Defined.

(** X8.  The status line never reads "Stalemate!".  chess.js counts a
    stalemate as a draw, and [getGameStatus] asks for a draw first: in a
    stalemate it reads "Draw!", or the result on time when a flag has
    fallen.  The line is always one of the six other texts. *)
Theorem stalemate_reported_as_draw :
  forall (isStalemate : Chess -> bool) (st : State),
    (isStalemate (game st) = true -> isDraw (game st) = true) ->
    getGameStatus isStalemate st <> "Stalemate!"
    /\ In (getGameStatus isStalemate st)
         ["Black wins on time!"; "White wins on time!"; "Checkmate!";
          "Draw!"; "Check!"; "White's turn"; "Black's turn"]
    /\ (isStalemate (game st) = true ->
        isCheckmate (game st) = false ->
        white (timeLeft st) <> 0 -> black (timeLeft st) <> 0 ->
        getGameStatus isStalemate st = "Draw!").
Proof.
  intros isStalemate st Hdraw. unfold getGameStatus.
  destruct (white (timeLeft st) =? 0) eqn:Hw.
  { apply Z.eqb_eq in Hw. split; [discriminate|].
    split; [cbn; tauto|]. intros _ _ H. contradiction. }
  destruct (black (timeLeft st) =? 0) eqn:Hb.
  { apply Z.eqb_eq in Hb. split; [discriminate|].
    split; [cbn; tauto|]. intros _ _ _ H. contradiction. }
  destruct (isCheckmate (game st)).
  { split; [discriminate|]. split; [cbn; tauto|]. discriminate. }
  destruct (isDraw (game st)).
  { split; [discriminate|]. split; [cbn; tauto|]. reflexivity. }
  destruct (isStalemate (game st)).
  { specialize (Hdraw eq_refl). discriminate. }
  destruct (isCheck (game st)).
  { split; [discriminate|]. split; [cbn; tauto|]. discriminate. }
  destruct (turn (game st)); cbn;
    (split; [discriminate|]); (split; [tauto|discriminate]).
Qed.

Lemma stalemate_reported_as_draw_witness :
  no_move_no_check (game stalemate_state) = true
  /\ isDraw (game stalemate_state) = true
  /\ getGameStatus no_move_no_check stalemate_state = "Draw!".
Proof.
  split; [reflexivity|]. split; [reflexivity|].
  refine (proj2 (proj2 (stalemate_reported_as_draw no_move_no_check
                          stalemate_state (fun _ => eq_refl)))
            eq_refl eq_refl _ _); discriminate.
Defined.

Lemma padStart_two_digits (n : nat) :
  (n < 60)%nat ->
  padStart (Js.of_nat n) 2 "0"
  = String (digit (n / 10)) (String (digit (n mod 10)) "").
Proof.
  intros H.
  do 60 (destruct n as [|n]; [reflexivity|]).
  lia.
Qed.

Lemma number_to_string_nonneg (z : Z) :
  0 <= z -> number_to_string z = Js.of_nat (Z.to_nat z).
Proof.
  intros H. unfold number_to_string.
  destruct (z <? 0) eqn:E; [apply Z.ltb_lt in E; lia|reflexivity].
Qed.

(** X9.  [formatTime] of a number of seconds that is not negative is the
    number of whole minutes in decimal, a colon, and exactly two digits for
    the seconds: a digit below 6 and a digit below 10 which, with the
    minutes, give back the number of seconds. *)
Theorem formatTime_minutes_seconds :
  forall seconds : Z,
    0 <= seconds ->
    exists minutes tens units : nat,
      (tens < 6)%nat /\ (units < 10)%nat
      /\ seconds
         = 60 * Z.of_nat minutes + 10 * Z.of_nat tens + Z.of_nat units
      /\ formatTime seconds
         = (Js.of_nat minutes ++ ":"
            ++ String (digit tens) (String (digit units) ""))%string.
Proof.
  intros s Hs. unfold formatTime. cbv zeta.
  assert (Hm : 0 <= s / 60) by (apply Z.div_pos; lia).
  assert (Hr : 0 <= s mod 60 < 60) by (apply Z.mod_pos_bound; lia).
  rewrite Z.rem_mod_nonneg by lia.
  rewrite !number_to_string_nonneg by lia.
  set (n := Z.to_nat (s mod 60)).
  assert (Hn : (n < 60)%nat) by (subst n; lia).
  exists (Z.to_nat (s / 60)), (n / 10)%nat, (n mod 10)%nat.
  split; [apply Nat.Div0.div_lt_upper_bound; lia|].
  split; [apply Nat.mod_upper_bound; lia|].
  split.
  - pose proof (Z.div_mod s 60 ltac:(lia)) as Hdm.
    pose proof (Nat.div_mod_eq n 10) as Hnm.
    assert (Hz : Z.of_nat n = s mod 60) by (subst n; lia).
    rewrite Z2Nat.id by lia.
    rewrite Hdm at 1. rewrite <- Hz. rewrite Hnm at 1.
    rewrite Nat2Z.inj_add, Nat2Z.inj_mul. cbn. lia.
  - rewrite padStart_two_digits by exact Hn. reflexivity.
Qed.

Lemma formatTime_minutes_seconds_witness :
  0 <= 431
  /\ formatTime 431 = "7:11"
  /\ exists minutes tens units : nat,
       (tens < 6)%nat /\ (units < 10)%nat
       /\ 431 = 60 * Z.of_nat minutes + 10 * Z.of_nat tens + Z.of_nat units
       /\ formatTime 431
          = (Js.of_nat minutes ++ ":"
             ++ String (digit tens) (String (digit units) ""))%string.
Proof.
  split; [lia|]. split; [reflexivity|].
  apply formatTime_minutes_seconds. lia.
Defined.

(** ** The evaluation terms *)

Lemma fold_left_step_range {A : Type} (f : Z -> A -> Z) (lo hi : Z) :
  (forall a x, a + lo <= f a x <= a + hi) ->
  forall l a,
    a + lo * Z.of_nat (List.length l)
    <= fold_left f l a
    <= a + hi * Z.of_nat (List.length l).
Proof.
  intros Hstep. induction l as [|x l IH]; intros a.
  - cbn. lia.
  - cbn [fold_left]. rewrite length_cons, Nat2Z.inj_succ.
    specialize (IH (f a x)). specialize (Hstep a x). lia.
Qed.

Lemma evaluateOpeningPrinciples_scale (w : Z) (l : list Move) :
  forall a,
    fold_left
      (fun score move =>
         let score :=
           if PieceSymbol_eqb (piece move) Knight
              || PieceSymbol_eqb (piece move) Bishop
           then score + 30 * w else score in
         let score :=
           if includes (san move) "O-O" || includes (san move) "O-O-O"
           then score + 40 * w else score in
         let score :=
           if PieceSymbol_eqb (piece move) Queen
              && negb (match captured move with
                       | Some _ => true
                       | None => false
                       end)
           then score - 30 * w else score in
         if PieceSymbol_eqb (piece move) Pawn
            && array_includes ["d4"; "d5"; "e4"; "e5"] (to move)
         then score + 25 * w else score)
      l (w * a)
    = w * fold_left
            (fun score move =>
               let score :=
                 if PieceSymbol_eqb (piece move) Knight
                    || PieceSymbol_eqb (piece move) Bishop
                 then score + 30 * 1 else score in
               let score :=
                 if includes (san move) "O-O" || includes (san move) "O-O-O"
                 then score + 40 * 1 else score in
               let score :=
                 if PieceSymbol_eqb (piece move) Queen
                    && negb (match captured move with
                             | Some _ => true
                             | None => false
                             end)
                 then score - 30 * 1 else score in
               if PieceSymbol_eqb (piece move) Pawn
                  && array_includes ["d4"; "d5"; "e4"; "e5"] (to move)
               then score + 25 * 1 else score)
            l a.
Proof.
  induction l as [|m l IH]; intros a; [reflexivity|].
  cbn [fold_left]. rewrite <- IH. f_equal. cbv zeta.
  destruct (PieceSymbol_eqb (piece m) Knight
            || PieceSymbol_eqb (piece m) Bishop);
    destruct (includes (san m) "O-O" || includes (san m) "O-O-O");
    destruct (PieceSymbol_eqb (piece m) Queen
              && negb (match captured m with
                       | Some _ => true
                       | None => false
                       end));
    destruct (PieceSymbol_eqb (piece m) Pawn
              && array_includes ["d4"; "d5"; "e4"; "e5"] (to m));
    ring.
Qed.

Lemma evaluateOpeningPrinciples_step_range (m : Move) (a : Z) :
  let score :=
    if PieceSymbol_eqb (piece m) Knight || PieceSymbol_eqb (piece m) Bishop
    then a + 30 * 1 else a in
  let score :=
    if includes (san m) "O-O" || includes (san m) "O-O-O"
    then score + 40 * 1 else score in
  let score :=
    if PieceSymbol_eqb (piece m) Queen
       && negb (match captured m with Some _ => true | None => false end)
    then score - 30 * 1 else score in
  a - 30
  <= (if PieceSymbol_eqb (piece m) Pawn
         && array_includes ["d4"; "d5"; "e4"; "e5"] (to m)
      then score + 25 * 1 else score)
  <= a + 70.
Proof.
  cbv zeta.
  destruct (piece m); cbn [PieceSymbol_eqb orb andb];
    destruct (includes (san m) "O-O" || includes (san m) "O-O-O");
    try destruct (negb (match captured m with
                        | Some _ => true
                        | None => false
                        end));
    try destruct (array_includes ["d4"; "d5"; "e4"; "e5"] (to m));
    lia.
Qed.

(** X10.  The opening term is linear in its weight, so the term of weight 2
    is twice the term of weight 1; and for a weight that is not negative it
    lies between -30 and +70 times the weight for each legal move of the
    position. *)
Theorem evaluateOpeningPrinciples_linear :
  forall (g : Chess) (weight : Z),
    evaluateOpeningPrinciples g weight
    = weight * evaluateOpeningPrinciples g 1
    /\ (0 <= weight ->
        - (30 * weight * Z.of_nat (List.length (moves g)))
        <= evaluateOpeningPrinciples g weight
        <= 70 * weight * Z.of_nat (List.length (moves g))).
Proof.
  intros g w.
  assert (Hlin : evaluateOpeningPrinciples g w
                 = w * evaluateOpeningPrinciples g 1).
  { unfold evaluateOpeningPrinciples.
    rewrite <- evaluateOpeningPrinciples_scale.
    replace (w * 0) with 0 by ring. reflexivity. }
  split; [exact Hlin|]. intros Hw. rewrite Hlin.
  assert (Hone : 0 + -30 * Z.of_nat (List.length (moves g))
                 <= evaluateOpeningPrinciples g 1
                 <= 0 + 70 * Z.of_nat (List.length (moves g))).
  { unfold evaluateOpeningPrinciples. apply fold_left_step_range.
    intros a m.
    pose proof (evaluateOpeningPrinciples_step_range m a) as Hs.
    cbv zeta in Hs |- *. lia. }
  nia.
Qed.

Lemma evaluateOpeningPrinciples_linear_witness :
  0 <= 2
  /\ evaluateOpeningPrinciples (new_Chess start_position) 2 = 340
  /\ - (30 * 2 * Z.of_nat (List.length (moves (new_Chess start_position))))
     <= evaluateOpeningPrinciples (new_Chess start_position) 2
     <= 70 * 2 * Z.of_nat (List.length (moves (new_Chess start_position))).
Proof.
  split; [lia|]. split; [reflexivity|].
  apply (proj2 (evaluateOpeningPrinciples_linear
                  (new_Chess start_position) 2)).
  lia.
Defined.

Lemma PIECE_VALUES_at_least_pawn (t : PieceSymbol) : 100 <= PIECE_VALUES t.
Proof. destruct t; cbn; lia. Qed.

Lemma evaluateThreats_fold (chk : bool) (l : list Move) :
  forall a,
    let r :=
      fold_left
        (fun max nextMove =>
           match captured nextMove with
           | Some c => Z.max max (PIECE_VALUES c)
           | None => if chk then Z.max max (PIECE_VALUES Pawn) else max
           end)
        l a in
    a <= r
    /\ (forall m c, In m l -> captured m = Some c -> PIECE_VALUES c <= r)
    /\ (chk = true -> l <> [] -> 100 <= r)
    /\ (r = a
        \/ (exists m c, In m l /\ captured m = Some c /\ r = PIECE_VALUES c)
        \/ (chk = true /\ r = 100
            /\ exists m, In m l /\ captured m = None)).
Proof.
  induction l as [|x l IH]; intros a; cbv zeta.
  - cbn. split; [lia|]. split; [intros m c []|].
    split; [intros _ H; congruence|]. left. reflexivity.
  - cbn [fold_left].
    match goal with
    | |- _ <= fold_left _ l ?a' /\ _ => specialize (IH a'); set (a1 := a') in *
    end.
    cbv zeta in IH. destruct IH as [Hge [Hcap [Hchk Hval]]].
    assert (Ha1 : a <= a1).
    { subst a1. destruct (captured x); [lia|]. destruct chk; lia. }
    assert (Hx : forall c, captured x = Some c -> PIECE_VALUES c <= a1).
    { intros c Hc. subst a1. rewrite Hc. lia. }
    assert (Hk : chk = true -> 100 <= a1).
    { intros Hc. subst a1. rewrite Hc.
      destruct (captured x) as [c|].
      - pose proof (PIECE_VALUES_at_least_pawn c). lia.
      - cbn [PIECE_VALUES]. lia. }
    split; [lia|]. split; [|split].
    + intros m c [Hm|Hm] Hc.
      * subst m. specialize (Hx c Hc). lia.
      * eapply Hcap; eassumption.
    + intros Hc _. specialize (Hk Hc). lia.
    + destruct Hval as [Hv|[[m [c [Hm [Hc Hv]]]]|[Hc [Hv [m [Hm Hn]]]]]].
      * rewrite Hv. subst a1.
        destruct (captured x) as [c|] eqn:Hcx.
        -- destruct (Z.max_spec a (PIECE_VALUES c)) as [[_ E]|[_ E]];
             rewrite E.
           ++ right. left. exists x, c. cbn. auto.
           ++ left. reflexivity.
        -- destruct chk.
           ++ destruct (Z.max_spec a (PIECE_VALUES Pawn)) as [[_ E]|[_ E]];
                rewrite E.
              ** right. right. split; [reflexivity|].
                 split; [reflexivity|]. exists x. cbn. auto.
              ** left. reflexivity.
           ++ left. reflexivity.
      * right. left. exists m, c. cbn. auto.
      * right. right. split; [exact Hc|]. split; [exact Hv|].
        exists m. cbn. auto.
Qed.

(** X11.  [evaluateThreats] is the value of the most valuable piece that a
    legal move of the position captures; a move that captures nothing
    counts as a pawn when the side to move is in check and as nothing
    otherwise.  So the term is not negative, it is at least the value of
    every piece that can be captured, at least 100 when the side to move is
    in check and has a move, and it is 0 unless it is the value of a piece
    that some legal move captures or the 100 of a check. *)
Theorem evaluateThreats_is_maximum :
  forall g : Chess,
    0 <= evaluateThreats g
    /\ (forall m c, In m (moves g) -> captured m = Some c ->
                    PIECE_VALUES c <= evaluateThreats g)
    /\ (isCheck g = true -> moves g <> [] -> 100 <= evaluateThreats g)
    /\ (evaluateThreats g = 0
        \/ (exists m c, In m (moves g) /\ captured m = Some c
                        /\ evaluateThreats g = PIECE_VALUES c)
        \/ (isCheck g = true /\ evaluateThreats g = 100
            /\ exists m, In m (moves g) /\ captured m = None)).
Proof.
  intros g. exact (evaluateThreats_fold (isCheck g) (moves g) 0).
Qed.

Lemma evaluateThreats_is_maximum_witness :
  In back_rank_Rxg2 (moves (new_Chess back_rank_start))
  /\ captured back_rank_Rxg2 = Some Pawn
  /\ evaluateThreats (new_Chess back_rank_start) = 100
  /\ PIECE_VALUES Pawn <= evaluateThreats (new_Chess back_rank_start).
Proof.
  assert (Hin : In back_rank_Rxg2 (moves (new_Chess back_rank_start))).
  { unfold moves, new_Chess, back_rank_start. cbn [position p_moves].
    repeat first [left; reflexivity | right]. }
  split; [exact Hin|]. split; [reflexivity|]. split; [reflexivity|].
  exact (proj1 (proj2 (evaluateThreats_is_maximum
                         (new_Chess back_rank_start)))
           back_rank_Rxg2 Pawn Hin eq_refl).
Defined.

Lemma array_includes_same_set (l l' : list string) (x : string) :
  (forall sq, In sq l <-> In sq l') ->
  array_includes l x = array_includes l' x.
Proof.
  intros H.
  destruct (array_includes l x) eqn:E; symmetry.
  - apply array_includes_In. apply H. apply array_includes_In. exact E.
  - destruct (array_includes l' x) eqn:E'; [|reflexivity].
    apply array_includes_In in E'. apply H in E'.
    apply array_includes_In in E'. congruence.
Qed.

(** X12.  [evaluateCenterControl] lies between 0 and 100, and it depends
    only on which squares the legal moves of the position reach: how many
    moves reach a square, by which piece and in which order plays no
    part. *)
Theorem evaluateCenterControl_counts_squares :
  forall g : Chess,
    0 <= evaluateCenterControl g <= 100
    /\ forall g' : Chess,
         (forall sq, In sq (map to (moves g)) <-> In sq (map to (moves g')))
         -> evaluateCenterControl g' = evaluateCenterControl g.
Proof.
  intros g. split.
  - unfold evaluateCenterControl. cbv zeta.
    match goal with
    | |- _ <= fold_left ?f2 ?l2 (fold_left ?f1 ?l1 0) <= _ =>
        pose proof (fold_left_step_range f1 0 10) as H1;
        pose proof (fold_left_step_range f2 0 5) as H2;
        set (inner := fold_left f1 l1 0) in *;
        set (outer := fold_left f2 l2 inner) in *
    end.
    assert (Hin : 0 + 0 * 4 <= inner <= 0 + 10 * 4).
    { apply H1. intros a x. cbv beta.
      destruct (array_includes (map to (moves g)) x); lia. }
    assert (Hout : inner + 0 * 12 <= outer <= inner + 5 * 12).
    { apply H2. intros a x. cbv beta.
      destruct (array_includes (map to (moves g)) x); lia. }
    lia.
  - intros g' Hsame. unfold evaluateCenterControl. cbv zeta.
    rewrite (fold_left_ext
               (fun score square =>
                  if array_includes (map to (moves g')) square
                  then score + 10 else score)
               (fun score square =>
                  if array_includes (map to (moves g)) square
                  then score + 10 else score))
      by (intros a x;
          rewrite (array_includes_same_set _ _ x Hsame); reflexivity).
    apply fold_left_ext. intros a x.
    rewrite (array_includes_same_set _ _ x Hsame). reflexivity.
Qed.

Lemma evaluateCenterControl_counts_squares_witness :
  evaluateCenterControl (new_Chess start_position) = 50
  /\ evaluateCenterControl (new_Chess start_position_reordered)
     = evaluateCenterControl (new_Chess start_position).
Proof.
  split; [reflexivity|].
  apply (proj2 (evaluateCenterControl_counts_squares
                  (new_Chess start_position))).
  intros sq. unfold moves, new_Chess, start_position_reordered.
  cbn [position p_moves]. rewrite map_rev. apply in_rev.
Defined.

Lemma class_of_both_cases (c : ascii) :
  existsb (Ascii.eqb c)
    ["p"; "r"; "n"; "b"; "q"; "P"; "R"; "N"; "B"; "Q"]%char
  = ci_member ["p"; "r"; "n"; "b"; "q"]%char c.
Proof.
  destruct c as [[] [] [] [] [] [] [] []]; reflexivity.
Qed.

Lemma digit_not_man c :
  is_digit c = true -> ci_member ["p"; "r"; "n"; "b"; "q"]%char c = false.
Proof. intros H. digit_cases H. Qed.

(** X13.  [isDrawnPosition] counts the men on the board.  Its regular
    expression runs over the first field of the FEN only, and it finds
    exactly the pawns, rooks, knights, bishops and queens of both colours
    that stand on the board: the function answers [true] when the kings
    have at most three other men with them, whatever these men are. *)
Theorem isDrawnPosition_counts_men :
  forall g : Chess,
    isDrawnPosition g
    = (count_on_board [Pawn; Rook; Knight; Bishop; Queen] (board g) <=? 3)%nat.
Proof.
  intros g. unfold isDrawnPosition. cbv zeta. rewrite fen_first_field.
  f_equal. unfold match_class_g.
  rewrite (filter_ext _ _ class_of_both_cases).
  change (List.length
            (filter (ci_member ["p"; "r"; "n"; "b"; "q"]%char)
               (chars (fen_placement (board g)))))
    with (match_class_gi ["p"; "r"; "n"; "b"; "q"]%char
            (fen_placement (board g))).
  rewrite fen_placement_count; [|apply digit_not_man|reflexivity].
  unfold count_on_board. f_equal. apply filter_ext.
  intros [[] []]; reflexivity.
Qed.

(** X14.  The Undo button desynchronises the move list from the board.
    After a move that the engine accepts, [undoLastMove] against a friend
    gives the move list of before the move, but the board still shows the
    position after it, with nothing left to take back. *)
Theorem undo_after_move_keeps_board :
  forall (play : Position -> MoveInput -> option (Move * Position))
         (st : State) (mv : MoveInput) (result : Move) (after : Position),
    play (position (game st)) mv = Some (result, after) ->
    isPlayingComputer st = false ->
    let moved := fst (makeAMove play st mv) in
    let undone := undoLastMove moved in
    position (game moved) = after
    /\ moveHistory moved = (moveHistory st ++ [san result])%list
    /\ position (game undone) = after
    /\ history (game undone) = []
    /\ moveHistory undone = moveHistory st.
Proof.
  intros play st mv result after Hplay Hfriend moved undone.
  subst undone moved.
  destruct (makeAMove_cases play st mv)
    as [[Hn _]|[result' [after' [Hp Hm]]]]; [congruence|].
  rewrite Hplay in Hp. injection Hp as <- <-.
  rewrite Hm. cbn [fst].
  match goal with
  | |- context [handleMoveComplete st ?s] =>
      destruct (handleMoveComplete_fields st s)
        as [Hg [Hh [_ [_ [Hc _]]]]];
      set (moved := handleMoveComplete st s) in *
  end.
  cbn [game moveHistory isPlayingComputer] in Hg, Hh, Hc.
  unfold undoLastMove. rewrite Hc, Hfriend. cbn.
  rewrite Hg, Hh. cbn.
  repeat split.
  unfold slice_off_end. rewrite length_app. cbn [List.length].
  replace (List.length (moveHistory st) + 1 - 1)%nat
    with (List.length (moveHistory st) + 0)%nat by lia.
  rewrite firstn_app_2. cbn. apply app_nil_r.
Qed.

Lemma undo_after_move_keeps_board_witness :
  kp_engine (position (game kp_state_friend))
    (mkMoveInput "d4" "e3" (Some Queen))
  = Some (kp_dxe3, kp_after_dxe3)
  /\ isPlayingComputer kp_state_friend = false
  /\ position (game (undoLastMove
                       (fst (makeAMove kp_engine kp_state_friend
                               (mkMoveInput "d4" "e3" (Some Queen))))))
     = kp_after_dxe3.
Proof.
  split; [reflexivity|]. split; [reflexivity|].
  exact (proj1 (proj2 (proj2
           (undo_after_move_keeps_board kp_engine kp_state_friend
              (mkMoveInput "d4" "e3" (Some Queen)) kp_dxe3 kp_after_dxe3
              eq_refl eq_refl)))).
Defined.

Lemma fold_left_unchanged {A B : Type} (f : A -> B -> A) (l : list B) :
  (forall a x, f a x = a) -> forall a, fold_left f l a = a.
Proof.
  intros H. induction l as [|x l IH]; intros a; [reflexivity|].
  cbn [fold_left]. rewrite H. apply IH.
Qed.

Lemma existsb_false_on {A : Type} (f : A -> bool) (l : list A) :
  (forall x, f x = false) -> existsb f l = false.
Proof.
  intros H. induction l as [|x l IH]; [reflexivity|].
  cbn [existsb]. rewrite H, IH. reflexivity.
Qed.

Lemma filter_nothing {A : Type} (l : list A) :
  filter (fun _ => false) l = [].
Proof. induction l as [|x l IH]; [reflexivity|exact IH]. Qed.

(** X15.  [evaluateAdvancedPawnStructure] looks at Black's pawns only: it
    is 0 when no black pawn stands on the board, whatever White's pawns
    are, and it always lies between -440 and 400. *)
Theorem evaluateAdvancedPawnStructure_range :
  forall g : Chess,
    -440 <= evaluateAdvancedPawnStructure g <= 400
    /\ ((forall row col,
            is_piece Pawn Black (cell (board g) row col) = false) ->
        evaluateAdvancedPawnStructure g = 0).
Proof.
  intros g. split.
  - unfold evaluateAdvancedPawnStructure. cbv zeta.
    match goal with
    | |- _ <= fold_left ?f2 ?l2 (fold_left ?f1 ?l1 0) <= _ =>
        assert (H1 : forall a x, a + -30 <= f1 a x <= a + 0);
        [|assert (H2 : forall a x, a + -25 <= f2 a x <= a + 50);
          [|pose proof (fold_left_step_range f1 (-30) 0 H1 l1 0) as Hin;
            pose proof (fold_left_step_range f2 (-25) 50 H2 l2
                          (fold_left f1 l1 0)) as Hout;
            set (inner := fold_left f1 l1 0) in *;
            set (outer := fold_left f2 l2 inner) in *]]
    end.
    + intros a x. cbv beta.
      match goal with
      | |- context [if ?c then _ else _] => destruct c
      end; lia.
    + intros a x. cbv beta.
      repeat match goal with
             | |- context [if ?c then _ else _] => destruct c
             end; lia.
    + change (Z.of_nat (List.length (seq 0 8))) with 8 in Hin, Hout. lia.
  - intros Hnone. unfold evaluateAdvancedPawnStructure. cbv zeta.
    etransitivity.
    + apply fold_left_unchanged. intros a col. cbv beta.
      rewrite (existsb_false_on _ (seq 0 8))
        by (intros row; apply Hnone).
      reflexivity.
    + apply fold_left_unchanged. intros a col. cbv beta.
      rewrite (filter_ext _ (fun _ => false))
        by (intros row; apply Hnone).
      rewrite filter_nothing. reflexivity.
Qed.

Lemma evaluateAdvancedPawnStructure_range_witness :
  (forall row col,
      is_piece Pawn Black (cell (board (new_Chess stalemate_position))
                             row col) = false)
  /\ evaluateAdvancedPawnStructure (new_Chess stalemate_position) = 0.
Proof.
  assert (H : forall row col,
             is_piece Pawn Black
               (cell (board (new_Chess stalemate_position)) row col)
             = false).
  { intros row col.
    do 8 (destruct row as [|row];
          [do 8 (destruct col as [|col]; [reflexivity|]);
           destruct col; reflexivity|]).
    destruct row; reflexivity. }
  split; [exact H|].
  exact (proj2 (evaluateAdvancedPawnStructure_range
                  (new_Chess stalemate_position)) H).
Defined.

(** ** The piece-square sum *)

Lemma cell_turn_board (b : Board) (row col : nat) :
  eight_by_eight b -> (row < 8)%nat -> (col < 8)%nat ->
  cell (turn_board b) row col
  = option_map swap_colour (cell b (7 - row) (7 - col)).
Proof.
  intros [Hlen Hrows] Hr Hc. unfold cell, turn_board.
  rewrite nth_error_rev, length_map, Hlen.
  destruct (Nat.ltb_spec row 8) as [_|]; [|lia].
  change (8 - S row)%nat with (7 - row)%nat.
  rewrite nth_error_map.
  destruct (nth_error b (7 - row)) as [r|] eqn:Hrow; [|reflexivity].
  cbn [option_map].
  assert (Hl : List.length r = 8%nat).
  { rewrite Forall_forall in Hrows. apply Hrows.
    eapply nth_error_In. exact Hrow. }
  rewrite nth_error_rev, length_map, Hl.
  destruct (Nat.ltb_spec col 8) as [_|]; [|lia].
  change (8 - S col)%nat with (7 - col)%nat.
  rewrite nth_error_map.
  destruct (nth_error r (7 - col)) as [[p|]|]; reflexivity.
Qed.

Lemma square_score_swap (e : bool) (p : Piece) (square : nat) :
  (square <= 63)%nat ->
  square_score e (swap_colour p) square
  = - square_score e p (63 - square).
Proof.
  intros Hs. unfold square_score, swap_colour.
  cbn [type color].
  replace (63 - (63 - square))%nat with square by lia.
  destruct (color p); cbn [opposite Color_eqb];
    destruct (type p); try destruct e; lia.
Qed.

Lemma in_all_squares (sq : nat * nat) :
  In sq all_squares -> (fst sq < 8)%nat /\ (snd sq < 8)%nat.
Proof.
  destruct sq as [r c]. unfold all_squares. rewrite in_prod_iff, !in_seq.
  cbn. lia.
Qed.

Lemma contribution_turn (e : bool) (b : Board) (sq : nat * nat) :
  eight_by_eight b -> In sq all_squares ->
  contribution e (turn_board b) sq = - contribution e b (turn_square sq).
Proof.
  intros Hb Hin. apply in_all_squares in Hin. destruct Hin as [Hr Hc].
  unfold contribution, turn_square. cbn [fst snd].
  rewrite cell_turn_board by assumption.
  destruct (cell b (7 - fst sq) (7 - snd sq)) as [p|]; [|reflexivity].
  cbn [option_map]. rewrite square_score_swap by lia.
  do 2 f_equal. lia.
Qed.

Lemma sum_shift {T : Type} (f : T -> Z) (l : list T) :
  forall a,
    fold_left (fun acc x => acc + f x) l a
    = a + fold_left (fun acc x => acc + f x) l 0.
Proof.
  induction l as [|x l IH]; intros a; cbn [fold_left]; [lia|].
  rewrite IH, (IH (0 + f x)). lia.
Qed.

Lemma sum_rev {T : Type} (f : T -> Z) (l : list T) :
  fold_left (fun acc x => acc + f x) (rev l) 0
  = fold_left (fun acc x => acc + f x) l 0.
Proof.
  induction l as [|x l IH]; [reflexivity|].
  cbn [rev fold_left]. rewrite fold_left_app. cbn [fold_left].
  rewrite IH, (sum_shift f l (0 + f x)). lia.
Qed.

Lemma sum_map {T : Type} (f : T -> Z) (s : T -> T) (l : list T) :
  forall a,
    fold_left (fun acc x => acc + f (s x)) l a
    = fold_left (fun acc x => acc + f x) (map s l) a.
Proof.
  induction l as [|x l IH]; intros a; [reflexivity|].
  cbn [map fold_left]. apply IH.
Qed.

Lemma sum_opp {T : Type} (f : T -> Z) (l : list T) :
  forall a,
    fold_left (fun acc x => acc + - f x) l (- a)
    = - fold_left (fun acc x => acc + f x) l a.
Proof.
  induction l as [|x l IH]; intros a; [reflexivity|].
  cbn [fold_left]. rewrite <- IH. f_equal. lia.
Qed.

Lemma piece_square_sum_turn (e : bool) (b : Board) :
  eight_by_eight b ->
  fold_left (fun acc sq => acc + contribution e (turn_board b) sq)
    all_squares 0
  = - fold_left (fun acc sq => acc + contribution e b sq) all_squares 0.
Proof.
  intros Hb.
  rewrite (fold_left_ext_in
             (fun acc sq => acc + contribution e (turn_board b) sq)
             (fun acc sq => acc + - contribution e b (turn_square sq)))
    by (intros a sq Hin; rewrite contribution_turn by assumption;
        reflexivity).
  change 0 with (- 0) at 1.
  rewrite (sum_opp (fun sq => contribution e b (turn_square sq))).
  f_equal.
  rewrite (sum_map (contribution e b) turn_square).
  change (map turn_square all_squares) with (rev all_squares).
  apply sum_rev.
Qed.

(** X16.  The piece-square sum takes no side.  When the board is turned by
    half a turn and the colours of all pieces are exchanged, the sum of
    the Hard level ([evaluateAdvancedPosition], lines 834-873) changes its
    sign and keeps its size; so does the sum of the Medium level
    ([evaluatePosition]) when both positions are in the same phase. *)
Theorem piece_square_antisymmetric :
  forall (g g' : Chess) (isEndgame : option bool),
    eight_by_eight (board g) ->
    board g' = turn_board (board g) ->
    evaluateAdvancedPosition g' isEndgame
    = - evaluateAdvancedPosition g isEndgame
    /\ (isInEndgame g' = isInEndgame g ->
        evaluatePosition g' = - evaluatePosition g).
Proof.
  intros g g' e Hb Hturn. split.
  - rewrite !evaluateAdvancedPosition_sum, Hturn.
    apply piece_square_sum_turn. exact Hb.
  - intros Hphase. rewrite !evaluatePosition_sum, Hturn, Hphase.
    apply piece_square_sum_turn. exact Hb.
Qed.

Lemma piece_square_antisymmetric_witness :
  eight_by_eight (board kp_game)
  /\ board (new_Chess kp_turned) = turn_board (board kp_game)
  /\ evaluateAdvancedPosition kp_game None = 25
  /\ evaluateAdvancedPosition (new_Chess kp_turned) None
     = - evaluateAdvancedPosition kp_game None.
Proof.
  assert (Hb : eight_by_eight (board kp_game))
    by (split; [reflexivity|repeat constructor]).
  split; [exact Hb|]. split; [reflexivity|]. split; [reflexivity|].
  exact (proj1 (piece_square_antisymmetric kp_game (new_Chess kp_turned)
                  None Hb eq_refl)).
Defined.

Lemma sum_bounded_by_count {T : Type} (f : T -> Z) (D : T -> bool)
    (l : list T) :
  (forall x, - (if D x then 50 else 0) <= f x <= (if D x then 50 else 0)) ->
  forall a,
    a - 50 * Z.of_nat (List.length (filter D l))
    <= fold_left (fun acc x => acc + f x) l a
    <= a + 50 * Z.of_nat (List.length (filter D l)).
Proof.
  intros Hf. induction l as [|x l IH]; intros a.
  - cbn. lia.
  - cbn [fold_left filter]. specialize (IH (a + f x)).
    specialize (Hf x). destruct (D x).
    + rewrite length_cons, Nat2Z.inj_succ. lia.
    + lia.
Qed.

Lemma contribution_occupied (e : bool) (b : Board) (sq : nat * nat) :
  - (if occupied b sq then 50 else 0)
  <= contribution e b sq
  <= (if occupied b sq then 50 else 0).
Proof.
  unfold contribution, occupied.
  destruct (cell b (fst sq) (snd sq)) as [p|]; [|lia].
  pose proof (square_score_bound e p (fst sq * 8 + snd sq)). lia.
Qed.

(** X17.  The piece-square sum is worth at most half a pawn for each man:
    at both levels it lies between -50 and +50 times the number of
    occupied squares of the board. *)
Theorem piece_square_bounded_by_men :
  forall (g : Chess) (isEndgame : option bool),
    - (50 * Z.of_nat (men_on (board g)))
    <= evaluateAdvancedPosition g isEndgame
    <= 50 * Z.of_nat (men_on (board g))
    /\ - (50 * Z.of_nat (men_on (board g)))
       <= evaluatePosition g
       <= 50 * Z.of_nat (men_on (board g)).
Proof.
  intros g e. unfold men_on.
  rewrite evaluateAdvancedPosition_sum, evaluatePosition_sum.
  pose proof (sum_bounded_by_count (contribution (truthy e) (board g))
                (occupied (board g)) all_squares
                (contribution_occupied (truthy e) (board g)) 0) as H1.
  pose proof (sum_bounded_by_count
                (contribution (isInEndgame g) (board g))
                (occupied (board g)) all_squares
                (contribution_occupied (isInEndgame g) (board g)) 0) as H2.
  split; lia.
Qed.

(** ** The endgame term *)

Lemma fold_left_invariant {A B : Type} (P : A -> Prop) (f : A -> B -> A)
    (l : list B) :
  (forall a x, In x l -> P a -> P (f a x)) ->
  forall a, P a -> P (fold_left f l a).
Proof.
  induction l as [|x l IH]; intros H a Ha; [exact Ha|].
  cbn [fold_left]. apply IH.
  - intros a' x' Hin. apply H. right. exact Hin.
  - apply H; [left; reflexivity|exact Ha].
Qed.

Lemma find_kings_on_board (b : Board) :
  (forall r c, fst (find_kings b) = Some (r, c) -> (r < 8 /\ c < 8)%nat)
  /\ (forall r c, snd (find_kings b) = Some (r, c) -> (r < 8 /\ c < 8)%nat).
Proof.
  unfold find_kings. rewrite for_squares_unfold.
  apply (fold_left_invariant
           (fun kings : option (nat * nat) * option (nat * nat) =>
              (forall r c, fst kings = Some (r, c) -> (r < 8 /\ c < 8)%nat)
              /\ (forall r c, snd kings = Some (r, c)
                              -> (r < 8 /\ c < 8)%nat))).
  - intros kings sq Hin [Hb Hw]. apply in_all_squares in Hin.
    destruct (cell b (fst sq) (snd sq)) as [p|]; [|split; assumption].
    destruct (PieceSymbol_eqb (type p) King); [|split; assumption].
    destruct (Color_eqb (color p) Black); cbn [fst snd]; split;
      try assumption; intros r c [= <- <-]; exact Hin.
  - split; intros r c; discriminate.
Qed.

Lemma black_king_distance_range (r c : nat) :
  (r < 8)%nat -> (c < 8)%nat ->
  (1 # 2 <= Qmax (Qabs (inject_Z (Z.of_nat r) - (7 # 2)))
              (Qabs (inject_Z (Z.of_nat c) - (7 # 2))) <= 7 # 2)%Q.
Proof.
  intros Hr Hc.
  do 8 (destruct r as [|r];
        [do 8 (destruct c as [|c];
               [split; apply Qle_bool_iff; vm_compute; reflexivity|]);
         lia|]).
  lia.
Qed.

(** X18.  [evaluateEndgamePosition] lies between -30 and 35.  It is never
    negative when [isDrawnPosition] is false, and then at least 5 when both
    kings are on the board: the term grows with the distance of the black
    king from the centre of the board. *)
Theorem evaluateEndgamePosition_range :
  forall g : Chess,
    (- (30) <= evaluateEndgamePosition g <= 35)%Q
    /\ (isDrawnPosition g = false ->
        (0 <= evaluateEndgamePosition g)%Q
        /\ (forall bk wk, find_kings (board g) = (Some bk, Some wk) ->
                          (5 <= evaluateEndgamePosition g)%Q)).
Proof.
  intros g. unfold evaluateEndgamePosition. cbv zeta.
  destruct (find_kings_on_board (board g)) as [Hb Hw].
  destruct (find_kings (board g)) as [[[br bc]|] [[wr wc]|]];
    cbn [fst snd] in Hb, Hw.
  2-4: split; [split; apply Qle_bool_iff; reflexivity|];
       intros _; split; [apply Qle_bool_iff; reflexivity|];
       intros bk wk; discriminate.
  destruct (Hb br bc eq_refl) as [Hbr Hbc].
  destruct (Hw wr wc eq_refl) as [Hwr Hwc].
  pose proof (black_king_distance_range br bc Hbr Hbc) as [Hlo Hhi].
  set (d := Qmax (Qabs (inject_Z (Z.of_nat br) - (7 # 2)))
              (Qabs (inject_Z (Z.of_nat bc) - (7 # 2)))) in *.
  set (k := Z.max (Z.abs (Z.of_nat br - Z.of_nat wr))
              (Z.abs (Z.of_nat bc - Z.of_nat wc))).
  assert (Hk : 0 <= k * 5 <= 35) by (subst k; lia).
  assert (Hk0 : (0 <= inject_Z (k * 5))%Q)
    by (change 0%Q with (inject_Z 0); rewrite <- Zle_Qle; lia).
  assert (Hk1 : (inject_Z (k * 5) <= 35)%Q)
    by (change 35%Q with (inject_Z 35); rewrite <- Zle_Qle; lia).
  set (q := inject_Z (k * 5)) in *.
  destruct (isDrawnPosition g).
  - split; [split; lra|]. discriminate.
  - split; [split; lra|]. intros _. split; [lra|]. intros _ _ _. lra.
Qed.

Lemma evaluateEndgamePosition_range_witness :
  isDrawnPosition kp_game = true
  /\ isDrawnPosition (new_Chess queens_traded) = false
  /\ (evaluateEndgamePosition kp_game == 0)%Q
  /\ (0 <= evaluateEndgamePosition (new_Chess queens_traded))%Q.
Proof.
  split; [reflexivity|]. split; [reflexivity|]. split; [reflexivity|].
  exact (proj1 (proj2 (evaluateEndgamePosition_range
                         (new_Chess queens_traded)) eq_refl)).
Defined.

(** ** The scorer that nothing calls *)



(** ** The quality of the selected move *)

Lemma filter_length_perm {A : Type} (f : A -> bool) (l l' : list A) :
  Permutation l l' ->
  List.length (filter f l) = List.length (filter f l').
Proof.
  induction 1 as [|x l l' _ IH|x y l|l l' l'' _ IH1 _ IH2].
  - reflexivity.
  - cbn [filter]. destruct (f x); cbn [List.length]; congruence.
  - cbn [filter]. destruct (f x), (f y); reflexivity.
  - congruence.
Qed.

Lemma sorted_after {A : Type} (R : A -> A -> Prop) (l1 l2 : list A) (x : A) :
  StronglySorted R (l1 ++ x :: l2) -> Forall (R x) l2.
Proof.
  induction l1 as [|y l1 IH]; cbn [app]; intros H;
    apply StronglySorted_inv in H; destruct H as [H1 H2].
  - exact H2.
  - apply IH. exact H1.
Qed.

Lemma filter_none {A : Type} (f : A -> bool) (l : list A) :
  Forall (fun x => f x = false) l -> filter f l = [].
Proof.
  induction 1 as [|x l Hx _ IH]; [reflexivity|].
  cbn [filter]. rewrite Hx. exact IH.
Qed.

(** X20.  The move that is played is among the best of its level.  For a
    list of scored candidates that is not empty and a random double in
    [0, 1), [selectMove] on the sorted list returns the move of a
    candidate that fewer than 5 (Easy), 3 (Medium) or 2 (Hard) of the
    candidates beat with a strictly higher score. *)
Theorem selectMove_among_the_best :
  forall (d : Difficulty) (scored : list ScoredMove) (r : Q),
    scored <> [] -> double r -> (0 <= r)%Q -> (r < 1)%Q ->
    exists chosen : ScoredMove,
      In chosen scored
      /\ selectMove d (sort_by_score scored) r = Return (move chosen)
      /\ (List.length (filter (better_than chosen) scored)
          < shortlist_size d)%nat.
Proof.
  intros d scored r Hne Hd Hr0 Hr1.
  pose proof (sort_by_score_perm scored) as Hperm.
  pose proof (sort_by_score_sorted scored) as Hsorted.
  set (sorted := sort_by_score scored) in *.
  assert (Hlen : (0 < List.length sorted)%nat).
  { rewrite <- (Permutation_length Hperm).
    destruct scored; [congruence|cbn; lia]. }
  set (k := Nat.min (shortlist_size d) (List.length sorted)).
  assert (Hk : (0 < k)%nat)
    by (subst k; destruct d; unfold shortlist_size; lia).
  destruct (random_index_range r k Hk (shortlist_at_most_5 d _) Hd Hr0 Hr1)
    as [i [Hi Hidx]].
  destruct (nth_error sorted i) as [chosen|] eqn:Hnth.
  2:{ apply nth_error_None in Hnth. subst k. lia. }
  exists chosen. split; [|split].
  - eapply Permutation_in; [apply Permutation_sym; exact Hperm|].
    eapply nth_error_In. exact Hnth.
  - eapply selectMove_at; [exact Hidx|exact Hi|exact Hnth].
  - rewrite (filter_length_perm (better_than chosen) _ _ Hperm).
    fold sorted.
    destruct (nth_error_split sorted i Hnth) as [l1 [l2 [Hsplit Hl1]]].
    rewrite Hsplit in Hsorted |- *.
    apply sorted_after in Hsorted.
    rewrite filter_app. cbn [filter].
    assert (Hself : better_than chosen chosen = false).
    { unfold better_than. apply negb_false_iff. apply Qle_bool_iff.
      apply Qle_refl. }
    rewrite Hself.
    rewrite (filter_none (better_than chosen) l2).
    + rewrite app_nil_r.
      pose proof (filter_length_le (better_than chosen) l1).
      subst k. lia.
    + eapply Forall_impl; [|exact Hsorted].
      intros y Hy. unfold better_than. apply negb_false_iff.
      apply Qle_bool_iff. exact Hy.
Qed.

Lemma selectMove_among_the_best_witness :
  kp_scored <> []
  /\ exists chosen : ScoredMove,
       In chosen kp_scored
       /\ selectMove Hard (sort_by_score kp_scored) (3 # 4)
          = Return (move chosen)
       /\ (List.length (filter (better_than chosen) kp_scored)
           < shortlist_size Hard)%nat.
Proof.
  split; [discriminate|].
  apply selectMove_among_the_best.
  - discriminate.
  - exists 3, (-2). split; [reflexivity|]. split; [lia|reflexivity].
  - apply Qle_bool_iff. reflexivity.
  - reflexivity.
Defined.

(** ** The squares next to the king *)

Lemma find_black_king_scan (b : Board) (l : list (nat * nat)) :
  forall found,
    let result :=
      fold_left
        (fun found sq =>
           match found with
           | Some _ => found
           | None => if is_piece King Black (cell b (fst sq) (snd sq))
                     then Some (fst sq, snd sq) else None
           end)
        l found in
    (forall x, found = Some x -> result = Some x)
    /\ (found = None ->
        match result with
        | Some (r, c) =>
            In (r, c) l /\ is_piece King Black (cell b r c) = true
        | None =>
            forall sq, In sq l ->
                       is_piece King Black (cell b (fst sq) (snd sq)) = false
        end).
Proof.
  induction l as [|sq l IH]; intros found; cbv zeta.
  - cbn. split; [auto|]. intros ->. intros sq [].
  - cbn [fold_left]. split.
    + intros x ->. apply (IH (Some x)). reflexivity.
    + intros ->.
      destruct (is_piece King Black (cell b (fst sq) (snd sq))) eqn:Hk.
      * destruct (IH (Some (fst sq, snd sq))) as [Hkeep _].
        cbv zeta in Hkeep. rewrite (Hkeep _ eq_refl).
        split; [left; destruct sq; reflexivity|exact Hk].
      * destruct (IH None) as [_ Hnone]. cbv zeta in Hnone.
        specialize (Hnone eq_refl).
        match goal with
        | |- match ?res with _ => _ end =>
            destruct res as [[r c]|]
        end.
        -- destruct Hnone as [Hin Hking]. split; [right; exact Hin|].
           exact Hking.
        -- intros sq' [<-|Hin]; [exact Hk|apply Hnone; exact Hin].
Qed.

Lemma near_king_at (kingRow kingCol : Z) (row col : nat) (m : Move) :
  (row < 8)%nat -> (col < 8)%nat ->
  to m = square_name row col ->
  near_king kingRow kingCol m
  = (Z.abs (Z.of_nat row - kingRow) <=? 1)
    && (Z.abs (Z.of_nat col - kingCol) <=? 1).
Proof.
  intros Hr Hc Hto. unfold near_king. rewrite Hto.
  do 8 (destruct row as [|row];
        [do 8 (destruct col as [|col]; [reflexivity|]); lia|]).
  lia.
Qed.

(** X21.  [countAttacksNearKing] reads the board and the names of the
    squares the same way.  Its scan finds a black king that stands on the
    board (the first in reading order), or gives (-1, -1) when there is
    none; and for a move to the square that chess.js names for a row and a
    column of [board()], its test holds exactly when that row and that
    column are each at most one away from the king's. *)
Theorem countAttacksNearKing_reads_squares :
  forall (b : Board),
    (match find_black_king b with
     | (kingRow, kingCol) =>
         (exists row col,
             (row < 8)%nat /\ (col < 8)%nat
             /\ kingRow = Z.of_nat row /\ kingCol = Z.of_nat col
             /\ cell b row col = Some (mkPiece King Black))
         \/ (kingRow = -1 /\ kingCol = -1
             /\ forall row col, (row < 8)%nat -> (col < 8)%nat ->
                  cell b row col <> Some (mkPiece King Black))
     end)
    /\ forall (kingRow kingCol : Z) (row col : nat) (m : Move),
         (row < 8)%nat -> (col < 8)%nat ->
         to m = square_name row col ->
         near_king kingRow kingCol m
         = (Z.abs (Z.of_nat row - kingRow) <=? 1)
           && (Z.abs (Z.of_nat col - kingCol) <=? 1).
Proof.
  intros b. split; [|apply near_king_at].
  unfold find_black_king. rewrite for_squares_unfold.
  destruct (find_black_king_scan b all_squares None) as [_ Hscan].
  cbv zeta in Hscan. specialize (Hscan eq_refl).
  match goal with
  | |- match (match ?res with _ => _ end) with _ => _ end =>
      destruct res as [[r c]|]
  end.
  - destruct Hscan as [Hin Hk]. left. exists r, c.
    apply in_all_squares in Hin. cbn [fst snd] in Hin.
    destruct Hin as [Hr Hc].
    repeat split; try assumption.
    unfold is_piece in Hk.
    destruct (cell b r c) as [[t co]|]; [|discriminate].
    cbn [type color] in Hk. apply andb_prop in Hk. destruct Hk as [Ht Hco].
    destruct t; try discriminate. destruct co; try discriminate.
    reflexivity.
  - right. split; [reflexivity|]. split; [reflexivity|].
    intros row col Hr Hc Hcell.
    specialize (Hscan (row, col)). cbn [fst snd] in Hscan.
    rewrite Hcell in Hscan. cbn in Hscan.
    assert (Hin : In (row, col) all_squares).
    { unfold all_squares. apply in_prod_iff. rewrite !in_seq. lia. }
    specialize (Hscan Hin). discriminate.
Qed.

Lemma countAttacksNearKing_reads_squares_witness :
  to kp_dxe3 = square_name 5 4
  /\ find_black_king (board kp_game) = (0, 0)
  /\ near_king 0 0 kp_dxe3 = false
  /\ near_king 0 0 kp_dxe3
     = (Z.abs (Z.of_nat 5 - 0) <=? 1) && (Z.abs (Z.of_nat 4 - 0) <=? 1).
Proof.
  split; [reflexivity|]. split; [vm_compute; reflexivity|].
  split; [vm_compute; reflexivity|].
  pose proof (countAttacksNearKing_reads_squares (board kp_game)) as H.
  apply proj2 in H.
  exact (H 0 0 5%nat 4%nat kp_dxe3 ltac:(lia) ltac:(lia) eq_refl).
Defined.
